(** * TypedStorage: a typed, prefixed, collision-checked wrapper over Storage

    A shallow embedding of [src/main.ts].  The host objects the class talks
    to (the [Storage] objects, the module-level [takenKeys] map and the
    [Set] objects it holds) live in an explicit [World]; every method is a
    computation in the monad [JS] that threads the world and may complete
    abruptly with a thrown error. *)

From Stdlib Require Import ZArith Ascii String List Lia ZifyBool.
From stdpp Require Import base gmap sets list strings.

#[local] Set Warnings "-clear-no-such-hyp".
Local Open Scope Z_scope.

(** ** Host objects *)

(** Identity of a [Storage] object.  The source compares storages by
    reference ([Map] keys, [switch] in [getStorageName]). *)
Inductive Storage :=
  | localStorage
  | sessionStorage
  | otherStorage (id : nat).

#[global] Instance Storage_eq_dec : EqDecision Storage.
Proof. solve_decision. Defined.

Definition Storage_code (s : Storage) : nat :=
  match s with
  | localStorage => 0%nat
  | sessionStorage => 1%nat
  | otherStorage n => S (S n)
  end.

Definition Storage_of_code (n : nat) : Storage :=
  match n with
  | O => localStorage
  | S O => sessionStorage
  | S (S n) => otherStorage n
  end.

#[global] Instance Storage_countable : Countable Storage.
Proof.
  apply (inj_countable' Storage_code Storage_of_code).
  intros []; reflexivity.
Defined.

(** Errors the code and the host can throw. *)
Inductive JsError :=
  | TypeError (msg : string)
  | Error (msg : string)
  | RangeError (msg : string)
  | QuotaExceededError.

(** Completion of a call: a normal result or a thrown error. *)
Inductive Completion (A : Type) :=
  | Normal (a : A)
  | Throw (e : JsError).
Arguments Normal {A} a.
Arguments Throw {A} e.

(** Calls received by the backing stores, in order. *)
Inductive StorageCall :=
  | Call_getItem (s : Storage) (key : string)
  | Call_setItem (s : Storage) (key value : string)
  | Call_removeItem (s : Storage) (key : string).

(** The world: the contents of every [Storage], the module-level
    [takenKeys : Map<Storage, Set<string>>] (a map from storage identity to
    the address of a [Set] object), the heap of [Set] objects, and the
    record of the calls the storages received. *)
Record World := mkWorld {
  stored : gmap Storage (gmap string string);
  takenKeys : gmap Storage nat;
  heap : list (gset string);
  calls : list StorageCall;
}.

Definition items (w : World) (s : Storage) : gmap string string :=
  default ∅ (stored w !! s).

(** The claimed keys of a storage, read through [takenKeys]. *)
Definition claimed (w : World) (s : Storage) : gset string :=
  match takenKeys w !! s with
  | Some l => default ∅ (heap w !! l)
  | None => ∅
  end.

Definition initial_world : World := mkWorld ∅ ∅ [] [].

(** ** The monad of the embedding *)

Definition JS (A : Type) : Type := World → World * Completion A.

Definition ret {A} (a : A) : JS A := λ w, (w, Normal a).
Definition throw {A} (e : JsError) : JS A := λ w, (w, Throw e).
Definition bind {A B} (m : JS A) (k : A → JS B) : JS B :=
  λ w, match m w with
       | (w', Normal a) => k a w'
       | (w', Throw e) => (w', Throw e)
       end.

Declare Scope js_scope.
Delimit Scope js_scope with js.
Notation "'let*' x := m 'in' k" := (bind m (λ x, k))
  (at level 10, x name, m at level 100, k at level 200) : js_scope.
Notation "m ;;; k" := (bind m (λ _, k))
  (at level 100, k at level 200, right associativity) : js_scope.
Local Open Scope js_scope.

(** [for (const x of l) body] *)
Fixpoint for_of {A} (l : list A) (body : A → JS unit) : JS unit :=
  match l with
  | [] => ret tt
  | x :: l' => body x ;;; for_of l' body
  end.

(** [Completion]-valued pure calls lifted into the monad. *)
Definition lift {A} (c : Completion A) : JS A := λ w, (w, c).

(** ** Set and Map operations on the key registry *)

Definition Set_has (l : nat) (x : string) : JS bool :=
  λ w, (w, Normal (bool_decide (x ∈ default ∅ (heap w !! l)))).

Definition Set_add (l : nat) (x : string) : JS unit :=
  λ w, (mkWorld (stored w) (takenKeys w)
                (alter (λ s, {[x]} ∪ s) l (heap w)) (calls w),
        Normal tt).

(** [new Set<string>()]: a fresh object at the end of the heap. *)
Definition Set_new : JS nat :=
  λ w, (mkWorld (stored w) (takenKeys w) (heap w ++ [∅]) (calls w),
        Normal (length (heap w))).

Definition takenKeys_get (s : Storage) : JS (option nat) :=
  λ w, (w, Normal (takenKeys w !! s)).

Definition takenKeys_set (s : Storage) (l : nat) : JS unit :=
  λ w, (mkWorld (stored w) (<[s := l]> (takenKeys w)) (heap w) (calls w),
        Normal tt).

(** [getTakenKey] (main.ts 9-14). *)
Definition getTakenKey (storage : Storage) : JS nat :=
  let* o := takenKeys_get storage in
  match o with
  | Some l => ret l
  | None =>
      let* set := Set_new in
      takenKeys_set storage set ;;;
      ret set
  end.

(** [getStorageName] (main.ts 15-24). *)
Definition getStorageName (storage : Storage) : string :=
  match storage with
  | localStorage => "localStorage"
  | sessionStorage => "sessionStorage"
  | otherStorage _ => "<unknown Storage>"
  end.

Definition quote : string := String (ascii_of_nat 34) EmptyString.

Definition taken_message (storeKey : string) (storage : Storage) : string :=
  "the key " +:+ quote +:+ storeKey +:+ quote +:+ " from "
    +:+ getStorageName storage +:+ " is already taken.".

(** ** Converters *)

(** [Converter<Value>] (main.ts 1-4).  [parse] returns [None] for [null].
    Both functions are host functions and may complete abruptly. *)
Record Converter (Value : Type) := mkConverter {
  parse : string → Completion (option Value);
  stringify : Value → Completion string;
}.
Arguments mkConverter {Value} parse stringify.
Arguments parse {Value} c value.
Arguments stringify {Value} c value.

(** ** The Storage interface of the host *)

Section Host.

(** Whether the host accepts writing [value] under [key] into a storage
    with the given contents; a refused write throws QuotaExceededError
    (quota exceeded, storage disabled). *)
Variable accepts : Storage → gmap string string → string → string → bool.

Definition record (c : StorageCall) (w : World) : World :=
  mkWorld (stored w) (takenKeys w) (heap w) (calls w ++ [c]).

Definition Storage_getItem (s : Storage) (key : string) : JS (option string) :=
  λ w, (record (Call_getItem s key) w, Normal (items w s !! key)).

Definition Storage_setItem (s : Storage) (key value : string) : JS unit :=
  λ w, let w1 := record (Call_setItem s key value) w in
       if accepts s (items w s) key value
       then (mkWorld (<[s := <[key := value]> (items w s)]> (stored w1))
                     (takenKeys w1) (heap w1) (calls w1),
             Normal tt)
       else (w1, Throw QuotaExceededError).

Definition Storage_removeItem (s : Storage) (key : string) : JS unit :=
  λ w, let w1 := record (Call_removeItem s key) w in
       (mkWorld (<[s := delete key (items w s)]> (stored w1))
                (takenKeys w1) (heap w1) (calls w1),
        Normal tt).

(** ** The TypedStorage class *)

Section Class.

(** [Body]: the type of the value of each field, [Body k] for [Body[k]]. *)
Context {Body : string → Type}.

(** [Converters<Body>] (main.ts 5-7): an object with one converter per
    field.  [Object_keys] lists its own keys in the order of
    [Object.keys]; [prop k] is [converters[k]], [None] for [undefined]. *)
Record Converters := mkConverters {
  Object_keys : list string;
  prop : ∀ k : string, option (Converter (Body k));
}.

(** A [Body] object: its own properties in the order of [Object.keys]. *)
Definition BodyObject : Type := list { k : string & Body k }.

Record TypedStorage := mkTypedStorage {
  storage : Storage;
  prefix : string;
  converters : Converters;
}.

(** The constructor (main.ts 29-57).  The second argument is a string or
    the converters; the third is optional. *)
Definition TypedStorage_new (storage : Storage)
    (prefix : string + Converters) (converters : option Converters)
    : JS TypedStorage :=
  let '(prefix, converters) :=
    match prefix with
    | inl p => (p, converters)
    | inr c => ("", Some c)
    end in
  match converters with
  | None => throw (TypeError "converters not defined (this should be unreachable)")
  | Some converters =>
      let* takenField := getTakenKey storage in
      for_of (Object_keys converters) (λ key,
        let storeKey := prefix +:+ key in
        let* taken := Set_has takenField storeKey in
        if taken : bool
        then throw (Error (taken_message storeKey storage))
        else Set_add takenField storeKey) ;;;
      ret (mkTypedStorage storage prefix converters)
  end.

(** [this.converters[key].parse(item)] and [.stringify(value)]: a call on
    [undefined] is a TypeError. *)
Definition call_parse (this : TypedStorage) (key item : string)
    : JS (option (Body key)) :=
  match prop (converters this) key with
  | Some c => lift (parse c item)
  | None => throw (TypeError "Cannot read properties of undefined (reading 'parse')")
  end.

Definition call_stringify (this : TypedStorage) (key : string) (value : Body key)
    : JS string :=
  match prop (converters this) key with
  | Some c => lift (stringify c value)
  | None => throw (TypeError "Cannot read properties of undefined (reading 'stringify')")
  end.

(** [getItem] (main.ts 58-62). *)
Definition getItem (this : TypedStorage) (key : string) : JS (option (Body key)) :=
  let* item := Storage_getItem (storage this) (prefix this +:+ key) in
  match item with
  | None => ret None
  | Some item => call_parse this key item
  end.

(** [hasItem] (main.ts 63-65). *)
Definition hasItem (this : TypedStorage) (key : string) : JS bool :=
  let* v := getItem this key in
  ret (bool_decide (is_Some v)).

(** [setItem] (main.ts 66-71): the arguments of [storage.setItem] are
    evaluated first, so [stringify] runs before the store is called. *)
Definition setItem (this : TypedStorage) (key : string) (value : Body key) : JS unit :=
  let* s := call_stringify this key value in
  Storage_setItem (storage this) (prefix this +:+ key) s.

(** [removeItem] (main.ts 72-74). *)
Definition removeItem (this : TypedStorage) (key : string) : JS unit :=
  Storage_removeItem (storage this) (prefix this +:+ key).

(** [setDefaults] (main.ts 75-79); [visit] is the body of its loop, run on
    a key of [Object.keys(body)] and the value [body[key]]. *)
Definition visit (this : TypedStorage) (field : { k : string & Body k }) : JS unit :=
  let '(existT key value) := field in
  let* has := hasItem this key in
  if negb has then setItem this key value else ret tt.

Definition setDefaults (this : TypedStorage) (body : BodyObject) : JS unit :=
  for_of body (visit this).

End Class.
End Host.

(** ** Numbers of the host *)

(** A Number is an IEEE 754 binary64 value: NaN, an infinity, or
    [(-1)^negative * m * 2^e] with an integer significand.  Zeros and
    subnormals have [e = -1074]. *)
Inductive Number :=
  | NaN
  | Infinity (negative : bool)
  | Finite (negative : bool) (m e : Z).

#[global] Instance Number_eq_dec : EqDecision Number.
Proof. solve_decision. Defined.

(** The values a double can take: [0 <= m < 2^53], [-1074 <= e <= 971], and
    a significand below [2^52] only at the least exponent. *)
Definition is_double (x : Number) : bool :=
  match x with
  | Finite _ m e =>
      (0 <=? m) && (m <? 2^53) && (-1074 <=? e) && (e <=? 971)
      && ((2^52 <=? m) || (e =? -1074))
  | _ => true
  end.

Definition Number_isNaN (x : Number) : bool :=
  match x with NaN => true | _ => false end.

(** [x === y] on Numbers: NaN equals nothing, the two zeros are equal. *)
Definition Number_equal (x y : Number) : bool :=
  match x, y with
  | Infinity s1, Infinity s2 => bool_decide (s1 = s2)
  | Finite s1 m1 e1, Finite s2 m2 e2 =>
      (m1 =? 0) && (m2 =? 0)
      || bool_decide (s1 = s2) && (m1 =? m2) && (e1 =? e2)
  | _, _ => false
  end.

Definition Number_negate (x : Number) : Number :=
  match x with
  | NaN => NaN
  | Infinity s => Infinity (negb s)
  | Finite s m e => Finite (negb s) m e
  end.

(** *** The Number value of a positive rational *)

(** The integer [b] with [2^b <= n/d < 2^(b+1)], for positive [n] and [d]. *)
Definition binade (n d : Z) : Z :=
  let K := Z.log2 d + 1 in
  Z.log2 (n * 2^K / d) - K.

(** [N/D] rounded to the nearest integer, ties to even. *)
Definition round_half_even (N D : Z) : Z :=
  let q := N / D in
  let r := N mod D in
  match 2 * r ?= D with
  | Lt => q
  | Gt => q + 1
  | Eq => if Z.even q then q else q + 1
  end.

(** The Number value of [n/d] for positive [n] and [d]: round to nearest,
    ties to even, in binary64; values from [2^1024 - 2^970] on round to
    infinity. *)
Definition round_ratio (n d : Z) : Number :=
  let b := binade n d in
  let e := Z.max (b - 52) (-1074) in
  let m := round_half_even (n * 2^(Z.max 0 (-e))) (d * 2^(Z.max 0 e)) in
  let '(m, e) := if m =? 2^53 then (2^52, e + 1) else (m, e) in
  if 971 <? e then Infinity false else Finite false m e.

(** The Number value of the decimal [c * 10^q], [c >= 0]. *)
Definition round_decimal (c q : Z) : Number :=
  if c =? 0 then Finite false 0 (-1074)
  else if 0 <=? q then round_ratio (c * 10^q) 1
  else round_ratio c (10^(-q)).

(** *** Decimal digits *)

Definition digit_char (d : Z) : ascii := ascii_of_nat (48 + Z.to_nat d).

Definition digit_value (c : ascii) : option Z :=
  let n := Z.of_nat (nat_of_ascii c) in
  if (48 <=? n) && (n <=? 57) then Some (n - 48) else None.

Definition is_digit (c : ascii) : bool :=
  match digit_value c with Some _ => true | None => false end.

(** The last [k] decimal digits of [n], most significant first. *)
Fixpoint render_digits (k : nat) (n : Z) : list ascii :=
  match k with
  | O => []
  | S k' => render_digits k' (n / 10) ++ [digit_char (n mod 10)]
  end.

(** The number of decimal digits of [n] (1 for 0). *)
Fixpoint count_digits (fuel : nat) (n : Z) : nat :=
  match fuel with
  | O => 1
  | S fuel' => if n <? 10 then 1%nat else S (count_digits fuel' (n / 10))
  end.

Definition num_digits (n : Z) : nat := count_digits (Z.to_nat (Z.log2 n)) n.

(** The decimal digits of [n >= 0], without leading zeros. *)
Definition render (n : Z) : list ascii := render_digits (num_digits n) n.

(** The integer a sequence of digits denotes. *)
Definition digits_value (l : list ascii) : Z :=
  fold_left (λ acc c, acc * 10 + default 0 (digit_value c)) l 0.

(** The longest prefix of digits, and what follows it. *)
Fixpoint span_digits (l : list ascii) : list ascii * list ascii :=
  match l with
  | c :: l' =>
      if is_digit c then let '(ds, rest) := span_digits l' in (c :: ds, rest)
      else ([], l)
  | [] => ([], [])
  end.

(** *** Number::toString (ECMA-262, Number::toString with radix 10) *)

(** ECMA-262 takes integers [n], [k] and [s] with [k >= 1],
    [10^(k-1) <= s < 10^k], the Number value of [s * 10^(n-k)] equal to the
    Number, and [k] as small as possible; among several [s], the one for
    which [s * 10^(n-k)] is closest to the Number, and the even one of two
    equally close.  Here the pair is [s] and [q = n - k].  The search goes
    through the lengths [k] from 1 up to the length [D] of the exact decimal
    expansion [N * 10^q0] of the Number, which always qualifies; at each
    length the two candidates are the expansion cut to [k] digits and that
    plus one in the last digit (which is [10^(n0)], one digit, when the cut
    is all nines). *)
Section Shortest.
Variables (x : Number) (N q0 : Z) (D : Z).

Definition candidates (k : Z) : (Z * Z) * (Z * Z) :=
  let lo := N / 10^(D - k) in
  let q := D - k + q0 in
  ((lo, q), if lo + 1 =? 10^k then (1, q + k) else (lo + 1, q)).

Definition passes (c : Z * Z) : bool :=
  bool_decide (round_decimal c.1 c.2 = x).

Definition try_length (k : Z) : option (Z * Z) :=
  let '(lo, hi) := candidates k in
  let r := N mod 10^(D - k) in
  match passes lo, passes hi with
  | true, true =>
      match 2 * r ?= 10^(D - k) with
      | Lt => Some lo
      | Gt => Some hi
      | Eq => if Z.even lo.1 then Some lo else Some hi
      end
  | true, false => Some lo
  | false, true => Some hi
  | false, false => None
  end.

Fixpoint search (fuel : nat) (k : Z) : option (Z * Z) :=
  match fuel with
  | O => None
  | S fuel' =>
      match try_length k with
      | Some c => Some c
      | None => search fuel' (k + 1)
      end
  end.
End Shortest.

(** The exact decimal expansion of [m * 2^e]: [N * 10^q0] with [q0 <= 0]. *)
Definition exact_decimal (m e : Z) : Z * Z :=
  if 0 <=? e then (m * 2^e, 0) else (m * 5^(-e), e).

Definition shortest_decimal (m e : Z) : Z * Z :=
  let '(N, q0) := exact_decimal m e in
  let D := num_digits N in
  default (N, q0) (search (Finite false m e) N q0 (Z.of_nat D) D 1).

Definition zeros (n : Z) : list ascii := replicate (Z.to_nat n) "0"%char.

(** The string for the digits [s] and exponent [q]; [k] is the number of
    digits and the decimal point comes after [n = q + k] digits. *)
Definition format_decimal (s q : Z) : list ascii :=
  let k := Z.of_nat (num_digits s) in
  let n := q + k in
  let ds := render s in
  if (k <=? n) && (n <=? 21) then ds ++ zeros (n - k)
  else if (0 <? n) && (n <=? 21) then
    take (Z.to_nat n) ds ++ "."%char :: drop (Z.to_nat n) ds
  else if (-6 <? n) && (n <=? 0) then
    "0"%char :: "."%char :: zeros (- n) ++ ds
  else
    let e := n - 1 in
    let sign := if e <? 0 then "-"%char else "+"%char in
    let mantissa :=
      if k =? 1 then ds else take 1 ds ++ "."%char :: drop 1 ds in
    mantissa ++ "e"%char :: sign :: render (Z.abs e).

Definition Number_toString_chars (x : Number) : list ascii :=
  match x with
  | NaN => list_ascii_of_string "NaN"
  | Infinity s =>
      (if s then ["-"%char] else []) ++ list_ascii_of_string "Infinity"
  | Finite s m e =>
      if m =? 0 then ["0"%char]
      else
        let '(d, q) := shortest_decimal m e in
        (if s then ["-"%char] else []) ++ format_decimal d q
  end.

(** [x.toString()] *)
Definition Number_toString (x : Number) : string :=
  string_of_list_ascii (Number_toString_chars x).

(** *** parseFloat and parseInt *)

(** A string is held as its UTF-8 encoding, one [ascii] a byte, as the
    string literals of this file are.  [utf8 cp] is the encoding of a code
    point of the Basic Multilingual Plane. *)
Definition utf8 (cp : Z) : list ascii :=
  let byte n := ascii_of_nat (Z.to_nat n) in
  if cp <? 0x80 then [byte cp]
  else if cp <? 0x800 then [byte (0xC0 + cp / 64); byte (0x80 + cp mod 64)]
  else [byte (0xE0 + cp / 4096); byte (0x80 + cp / 64 mod 64);
        byte (0x80 + cp mod 64)].

(** The code points of WhiteSpace (ECMA-262 12.2: TAB, VT, FF, ZWNBSP and
    the space separators of Unicode) and of LineTerminator (12.3: LF, CR,
    LS, PS). *)
Definition WhiteSpace : list Z :=
  [0x9; 0xB; 0xC; 0xFEFF;
   0x20; 0xA0; 0x1680; 0x2000; 0x2001; 0x2002; 0x2003; 0x2004; 0x2005; 0x2006;
   0x2007; 0x2008; 0x2009; 0x200A; 0x202F; 0x205F; 0x3000].

Definition LineTerminator : list Z := [0xA; 0xD; 0x2028; 0x2029].

(** [l] without the prefix [p], when it starts with [p]. *)
Fixpoint strip_prefix (p l : list ascii) : option (list ascii) :=
  match p, l with
  | [], _ => Some l
  | c :: p', c' :: l' => if Ascii.eqb c c' then strip_prefix p' l' else None
  | _ :: _, [] => None
  end.

(** [l] without the first of the code points [cps] it starts with. *)
Fixpoint skip_one_of (cps : list Z) (l : list ascii) : option (list ascii) :=
  match cps with
  | [] => None
  | cp :: cps' =>
      match strip_prefix (utf8 cp) l with
      | Some l' => Some l'
      | None => skip_one_of cps' l
      end
  end.

(** [l] without the white space or line terminator it starts with. *)
Definition skip_white_space (l : list ascii) : option (list ascii) :=
  skip_one_of (WhiteSpace ++ LineTerminator) l.

(** TrimString(string, start): the string without its leading white space
    and line terminators.  Every round removes one code point, so as many
    rounds as the string has bytes are enough. *)
Fixpoint trim_start_rounds (rounds : nat) (l : list ascii) : list ascii :=
  match rounds with
  | O => l
  | S rounds' =>
      match skip_white_space l with
      | Some l' => trim_start_rounds rounds' l'
      | None => l
      end
  end.

Definition trim_start (l : list ascii) : list ascii :=
  trim_start_rounds (length l) l.

(** An optional sign: whether it is negative, and what follows it. *)
Definition read_sign (l : list ascii) : bool * list ascii :=
  match l with
  | c :: l' =>
      if Ascii.eqb c "-" then (true, l')
      else if Ascii.eqb c "+" then (false, l')
      else (false, l)
  | [] => (false, [])
  end.

(** An optional ExponentPart: [e] or [E], an optional sign, and at least one
    digit; its value, 0 when there is none. *)
Definition read_exponent (l : list ascii) : Z :=
  match l with
  | c :: l' =>
      if Ascii.eqb c "e" || Ascii.eqb c "E" then
        let '(neg, l'') := read_sign l' in
        let '(ds, _) := span_digits l'' in
        match ds with
        | [] => 0
        | _ => if neg then - digits_value ds else digits_value ds
        end
      else 0
  | [] => 0
  end.

(** The longest prefix that is a StrUnsignedDecimalLiteral other than
    [Infinity], as digits [c] and exponent [q] of its value [c * 10^q];
    [None] when there is no such prefix. *)
Definition read_decimal (l : list ascii) : option (Z * Z) :=
  let '(int, rest) := span_digits l in
  let '(frac, rest) :=
    match rest with
    | c :: rest' =>
        if Ascii.eqb c "." then span_digits rest' else ([], rest)
    | [] => ([], [])
    end in
  match int, frac with
  | [], [] => None
  | _, _ =>
      Some (digits_value (int ++ frac),
            read_exponent rest - Z.of_nat (length frac))
  end.

Definition with_sign (negative : bool) (x : Number) : Number :=
  if negative then Number_negate x else x.

Definition starts_with (p l : list ascii) : bool :=
  bool_decide (take (length p) l = p).

(** [Number.parseFloat(string)]: the Number value of the longest prefix of
    the trimmed string that is a StrDecimalLiteral, NaN when there is none.
    The value is rounded from the exact decimal (ECMA-262 lets a host drop
    significant digits after the 20th; the strings [toString] writes have
    at most 17). *)
Definition parseFloat (string : string) : Number :=
  let '(negative, l) := read_sign (trim_start (list_ascii_of_string string)) in
  if starts_with (list_ascii_of_string "Infinity") l
  then Infinity negative
  else match read_decimal l with
       | Some (c, q) => with_sign negative (round_decimal c q)
       | None => NaN
       end.

(** [Number.parseInt(string, 10)]: the Number value of the longest prefix of
    digits after the white space and the sign, NaN when there is none. *)
Definition parseInt10 (string : string) : Number :=
  let '(negative, l) := read_sign (trim_start (list_ascii_of_string string)) in
  let '(ds, _) := span_digits l in
  match ds with
  | [] => NaN
  | _ => with_sign negative (round_decimal (digits_value ds) 0)
  end.

(** ** Dates of the host *)

(** A Date object, by its time value: NaN for an invalid date, or the number
    of milliseconds since the epoch, of magnitude at most [8.64e15]. *)
Inductive Date :=
  | Invalid_Date
  | Date_at (t : Z).

Definition max_time : Z := 8640000000000000.

Definition is_date (d : Date) : bool :=
  match d with
  | Invalid_Date => true
  | Date_at t => (- max_time <=? t) && (t <=? max_time)
  end.

(** [Number.isNaN(+date)] *)
Definition Date_isNaN (d : Date) : bool :=
  match d with Invalid_Date => true | Date_at _ => false end.

(** *** Day number and time within the day (ECMA-262, 21.4.1) *)

Definition msPerDay : Z := 86400000.
Definition Day (t : Z) : Z := t / msPerDay.
Definition TimeWithinDay (t : Z) : Z := t mod msPerDay.

Definition is_leap_year (y : Z) : bool :=
  (y mod 4 =? 0) && (negb (y mod 100 =? 0) || (y mod 400 =? 0)).

Definition DaysInYear (y : Z) : Z := if is_leap_year y then 366 else 365.

Definition DayFromYear (y : Z) : Z :=
  365 * (y - 1970) + (y - 1969) / 4 - (y - 1901) / 100 + (y - 1601) / 400.

(** The largest [y] with [DayFromYear y <= day]: the estimate from the mean
    length of a year is off by at most one. *)
Definition YearFromDay (day : Z) : Z :=
  let y := 1970 + day * 10000 / 3652425 in
  if day <? DayFromYear y then y - 1
  else if DayFromYear (y + 1) <=? day then y + 1
  else y.

Definition YearFromTime (t : Z) : Z := YearFromDay (Day t).

Definition DayWithinYear (t : Z) : Z := Day t - DayFromYear (YearFromTime t).

(** The number of days of the year before month [m] (0 for January). *)
Definition days_before_month (leap : bool) (m : Z) : Z :=
  let l := if leap then 1 else 0 in
  match m with
  | 0 => 0
  | 1 => 31
  | 2 => 59 + l
  | 3 => 90 + l
  | 4 => 120 + l
  | 5 => 151 + l
  | 6 => 181 + l
  | 7 => 212 + l
  | 8 => 243 + l
  | 9 => 273 + l
  | 10 => 304 + l
  | 11 => 334 + l
  | _ => 365 + l
  end.

Definition month_of_day (leap : bool) (d : Z) : Z :=
  if d <? days_before_month leap 1 then 0
  else if d <? days_before_month leap 2 then 1
  else if d <? days_before_month leap 3 then 2
  else if d <? days_before_month leap 4 then 3
  else if d <? days_before_month leap 5 then 4
  else if d <? days_before_month leap 6 then 5
  else if d <? days_before_month leap 7 then 6
  else if d <? days_before_month leap 8 then 7
  else if d <? days_before_month leap 9 then 8
  else if d <? days_before_month leap 10 then 9
  else if d <? days_before_month leap 11 then 10
  else 11.

Definition MonthFromTime (t : Z) : Z :=
  month_of_day (is_leap_year (YearFromTime t)) (DayWithinYear t).

Definition DateFromTime (t : Z) : Z :=
  DayWithinYear t
  - days_before_month (is_leap_year (YearFromTime t)) (MonthFromTime t) + 1.

Definition HourFromTime (t : Z) : Z := (t / 3600000) mod 24.
Definition MinFromTime (t : Z) : Z := (t / 60000) mod 60.
Definition SecFromTime (t : Z) : Z := (t / 1000) mod 60.
Definition msFromTime (t : Z) : Z := t mod 1000.

Definition MakeTime (hour min sec ms : Z) : Z :=
  hour * 3600000 + min * 60000 + sec * 1000 + ms.

(** [MakeDay] for a month between 0 and 11. *)
Definition MakeDay (year month date : Z) : Z :=
  DayFromYear year + days_before_month (is_leap_year year) month + date - 1.

Definition MakeDate (day time : Z) : Z := day * msPerDay + time.

Definition TimeClip (t : Z) : Date :=
  if max_time <? Z.abs t then Invalid_Date else Date_at t.

Definition days_in_month (leap : bool) (month : Z) : Z :=
  days_before_month leap (month + 1) - days_before_month leap month.

(** *** Date.prototype.toISOString *)

Definition year_chars (y : Z) : list ascii :=
  if (0 <=? y) && (y <=? 9999) then render_digits 4 y
  else (if y <? 0 then "-"%char else "+"%char) :: render_digits 6 (Z.abs y).

Definition ISO_chars (t : Z) : list ascii :=
  year_chars (YearFromTime t)
  ++ "-"%char :: render_digits 2 (MonthFromTime t + 1)
  ++ "-"%char :: render_digits 2 (DateFromTime t)
  ++ "T"%char :: render_digits 2 (HourFromTime t)
  ++ ":"%char :: render_digits 2 (MinFromTime t)
  ++ ":"%char :: render_digits 2 (SecFromTime t)
  ++ "."%char :: render_digits 3 (msFromTime t)
  ++ ["Z"%char].

Definition Date_toISOString (d : Date) : Completion string :=
  match d with
  | Invalid_Date => Throw (RangeError "Invalid time value")
  | Date_at t => Normal (string_of_list_ascii (ISO_chars t))
  end.

(** *** new Date(string) *)

(** [k] digits, and what follows them. *)
Definition read_digits (k : nat) (l : list ascii) : option (Z * list ascii) :=
  if bool_decide (length (take k l) = k) && forallb is_digit (take k l)
  then Some (digits_value (take k l), drop k l)
  else None.

(** The character [c], and what follows it. *)
Definition read_char (c : ascii) (l : list ascii) : option (list ascii) :=
  match l with
  | c' :: l' => if Ascii.eqb c' c then Some l' else None
  | [] => None
  end.

(** The year of the Date Time String Format: four digits, or a sign and six
    digits (and not [-000000]). *)
Definition read_year (l : list ascii) : option (Z * list ascii) :=
  match l with
  | c :: l' =>
      if Ascii.eqb c "+" then read_digits 6 l'
      else if Ascii.eqb c "-" then
        '(y, rest) ← read_digits 6 l';
        if y =? 0 then None else Some (- y, rest)
      else read_digits 4 l
  | [] => None
  end.

(** The time value of a string in the complete form
    [YYYY-MM-DDTHH:mm:ss.sssZ] of the Date Time String Format, with every
    field in its range; [None] for any other string. *)
Definition read_ISO (l : list ascii) : option Z :=
  '(year, l) ← read_year l;
  l ← read_char "-" l;
  '(month, l) ← read_digits 2 l;
  l ← read_char "-" l;
  '(date, l) ← read_digits 2 l;
  l ← read_char "T" l;
  '(hour, l) ← read_digits 2 l;
  l ← read_char ":" l;
  '(min, l) ← read_digits 2 l;
  l ← read_char ":" l;
  '(sec, l) ← read_digits 2 l;
  l ← read_char "." l;
  '(ms, l) ← read_digits 3 l;
  l ← read_char "Z" l;
  match l with
  | [] =>
      if (1 <=? month) && (month <=? 12) && (1 <=? date)
         && (date <=? days_in_month (is_leap_year year) (month - 1))
         && (hour <=? 23) && (min <=? 59) && (sec <=? 59)
      then Some (MakeDate (MakeDay year (month - 1) date)
                          (MakeTime hour min sec ms))
      else None
  | _ => None
  end.

Section HostDate.
(** What the host's [Date.parse] makes of a string that is not in the
    complete form above: the shorter forms of the format, forms with a
    time zone offset or in local time, and the formats and fallbacks that
    are specific to the host. *)
Variable host_Date_parse : string → Date.

(** [new Date(value)] for a string. *)
Definition Date_new (value : string) : Date :=
  match read_ISO (list_ascii_of_string value) with
  | Some t => TimeClip t
  | None => host_Date_parse value
  end.
End HostDate.

(** ** Built-in converters *)

(** [booleanConverter] (main.ts 81-100). *)
Definition booleanConverter : Converter bool :=
  mkConverter
    (λ value,
       if String.eqb value "0" then Normal (Some false)
       else if String.eqb value "1" then Normal (Some true)
       else Normal None)
    (λ value, if value then Normal "1" else Normal "0").

(** [stringConverter] (main.ts 101-104). *)
Definition stringConverter : Converter string :=
  mkConverter (λ value, Normal (Some value)) (λ value, Normal value).

(** [enumConverterFactory] (main.ts 105-115).  [Enum extends string]: the
    members are strings, and [enumTuple.includes] compares them as such. *)
Definition enumConverterFactory (enumTuple : list string) : Converter string :=
  mkConverter
    (λ value,
       if bool_decide (value ∈ enumTuple) then Normal (Some value)
       else Normal None)
    (λ value, Normal value).

(** [intConverter] (main.ts 116-123). *)
Definition intConverter : Converter Number :=
  mkConverter
    (λ value,
       let num := parseInt10 value in
       if Number_isNaN num then Normal None else Normal (Some num))
    (λ value, Normal (Number_toString value)).

(** [floatConverter] (main.ts 124-131). *)
Definition floatConverter : Converter Number :=
  mkConverter
    (λ value,
       let num := parseFloat value in
       if Number_isNaN num then Normal None else Normal (Some num))
    (λ value, Normal (Number_toString value)).

(** [isoDateConverter] (main.ts 132-139). *)
Definition isoDateConverter (host_Date_parse : string → Date) : Converter Date :=
  mkConverter
    (λ value,
       let date := Date_new host_Date_parse value in
       if Date_isNaN date then Normal None else Normal (Some date))
    (λ value, Date_toISOString value).

(** * Vocabulary of the properties *)

(** Well-formed registries: every entry of [takenKeys] points into the
    heap, and two storages never share a [Set] object.  It holds of the
    initial world and every operation preserves it. *)
Definition world_ok (w : World) : Prop :=
  (∀ s l, takenKeys w !! s = Some l → (l < length (heap w))%nat) ∧
  (∀ s1 s2 l, takenKeys w !! s1 = Some l → takenKeys w !! s2 = Some l → s1 = s2).

(** What the loop of the constructor does to the set it works on: the
    final set, and the key it stopped at. *)
Fixpoint claim_keys (prefix : string) (keys : list string) (S : gset string)
    : gset string * option string :=
  match keys with
  | [] => (S, None)
  | key :: keys =>
      if bool_decide (prefix +:+ key ∈ S) then (S, Some (prefix +:+ key))
      else claim_keys prefix keys ({[prefix +:+ key]} ∪ S)
  end.

Definition effective_keys (prefix : string) (keys : list string) : gset string :=
  list_to_set ((λ key, prefix +:+ key) <$> keys).

Definition constructor_loop (storage : Storage) (prefix : string)
    (takenField : nat) (keys : list string) : JS unit :=
  for_of keys (λ key,
    let storeKey := prefix +:+ key in
    let* taken := Set_has takenField storeKey in
    if taken : bool
    then throw (Error (taken_message storeKey storage))
    else Set_add takenField storeKey).

(** The raw key a field is stored under. *)
Definition effective_key {Body} (this : @TypedStorage Body) (key : string) : string := prefix this +:+ key.

(** A schema whose fields all use the converter [c]:
    [{k1: c, k2: c, ...}]. *)
Definition uniform_schema {V : Type} (c : Converter V) (keys : list string)
    : @Converters (λ _, V) :=
  mkConverters keys (λ k, if bool_decide (k ∈ keys) then Some c else None).

(** A host that never refuses a write. *)
Definition accepts_all : Storage → gmap string string → string → string → bool :=
  λ _ _ _ _, true.

(** Two computations agree on a pair of worlds when they complete the same
    way and leave the same store contents. *)
Definition agree {A} (m : JS A) (w1 w2 : World) : Prop :=
  (m w1).2 = (m w2).2 ∧ stored (m w1).1 = stored (m w2).1.

(** [Object.keys(body)]. *)
Definition keys_of {Body : string → Type} (body : @BodyObject Body) : list string :=
  (λ field, projT1 field) <$> body.

(** The calls the stores received on the way from [w] to [w']. *)
Definition new_calls (w w' : World) : list StorageCall :=
  drop (length (calls w)) (calls w').

(** On the way from [w] to [w'] only entries of the store of [this] under
    the effective keys of the fields in [K] were written: every other entry
    of every store is as before, the registry is as before, and the record
    of calls grew by calls that write only under those keys. *)
Definition touches_only {Body} (this : @TypedStorage Body) (K : string → Prop)
    (w w' : World) : Prop :=
  (∀ s k, ¬ (s = storage this ∧ ∃ key, K key ∧ k = effective_key this key) →
          items w' s !! k = items w s !! k) ∧
  takenKeys w' = takenKeys w ∧ heap w' = heap w ∧
  ∃ tr, calls w' = (calls w ++ tr)%list ∧
        ∀ s k v, Call_setItem s k v ∈ tr →
                 s = storage this ∧ ∃ key, K key ∧ k = effective_key this key.

(** The converter of every field of [body] reads back the string it writes
    for the value [body] gives the field. *)
Definition round_trips {Body} (this : @TypedStorage Body) (body : @BodyObject Body)
    : Prop :=
  ∀ key (value : Body key) c s,
    existT key value ∈ body →
    prop (converters this) key = Some c →
    stringify c value = Normal s →
    ∃ v, parse c s = Normal (Some v).

(** The world after [new TypedStorage(localStorage, {b: stringConverter})]
    in a fresh page, and in it the call
    [new TypedStorage(localStorage, {a: stringConverter, b: stringConverter})]. *)
Definition world_b : World :=
  (TypedStorage_new localStorage (inr (uniform_schema stringConverter ["b"])) None
     initial_world).1.

Definition construct_ab : World * Completion (@TypedStorage (λ _, string)) :=
  TypedStorage_new localStorage (inr (uniform_schema stringConverter ["a"; "b"]))
    None world_b.

(** The integer a Number is equal to, if there is one. *)
Definition integer_value (x : Number) : option Z :=
  match x with
  | Finite s m e =>
      let sign := if s then -1 else 1 in
      if 0 <=? e then Some (sign * (m * 2^e))
      else if m mod 2^(-e) =? 0 then Some (sign * (m / 2^(-e)))
      else None
  | _ => None
  end.

Definition negative_zero : Number := Finite true 0 (-1074).

(** A positive double. *)
Definition positive_double (m e : Z) : Prop :=
  0 < m < 2^53 ∧ -1074 <= e <= 971 ∧ (2^52 <= m ∨ e = -1074).

(** [n/d] is exactly [m * 2^e]. *)
Definition ratio_is (n d m e : Z) : Prop :=
  n * 2 ^ Z.max 0 (- e) = m * d * 2 ^ Z.max 0 e.

Definition all_digits (l : list ascii) : Prop := Forall (λ c, is_digit c = true) l.

(** The string does not go on with a digit. *)
Definition no_digit_ahead (l : list ascii) : Prop :=
  match l with c :: _ => is_digit c = false | [] => True end.

(** The converter [c] reads back the value [v]: [stringify] returns a
    string, and [parse] of that string returns a value related to [v] by
    [R]. *)
Definition reads_back {V : Type} (c : Converter V) (R : V → V → Prop) (v : V) : Prop :=
  ∃ s y, stringify c v = Normal s ∧ parse c s = Normal (Some y) ∧ R y v.

(** [y === x], and [y] is [x] itself unless [x] is the negative zero. *)
Definition same_number (y x : Number) : Prop :=
  Number_equal y x = true ∧ (x ≠ negative_zero → y = x).

(** The Numbers 1, 1.5 and 42. *)
Definition one : Number := Finite false (2^52) (-52).
Definition one_and_a_half : Number := Finite false (3 * 2^51) (-52).
Definition forty_two : Number := Finite false (42 * 2^47) (-47).

(** The Number [10^21]. *)
Definition ten_to_21 : Number := Finite false (5^21 * 2^4) 17.

(** A host whose [Date.parse] knows no format of its own. *)
Definition no_host_formats : string → Date := λ _, Invalid_Date.

(** [new TypedStorage(localStorage, {flag: booleanConverter})] in a fresh
    page: the instance and the world it is constructed in. *)
Definition flag_storage : @TypedStorage (λ _, bool) :=
  mkTypedStorage localStorage "" (uniform_schema booleanConverter ["flag"]).

Definition flag_world : World :=
  (TypedStorage_new localStorage (inr (uniform_schema booleanConverter ["flag"]))
     None initial_world).1.

(** [{flag: b}] *)
Definition flag_defaults (b : bool) : @BodyObject (λ _, bool) :=
  [existT "flag" b].

(** [new TypedStorage(localStorage, {count: intConverter})] in a fresh page,
    and the defaults [{count: NaN}]. *)
Definition count_storage : @TypedStorage (λ _, Number) :=
  mkTypedStorage localStorage "" (uniform_schema intConverter ["count"]).

Definition count_world : World :=
  (TypedStorage_new localStorage (inr (uniform_schema intConverter ["count"]))
     None initial_world).1.

Definition count_defaults : @BodyObject (λ _, Number) :=
  [existT "count" NaN].

(** [new TypedStorage(localStorage, {last_played: isoDateConverter})] in a
    fresh page, and the defaults [{last_played: new Date(NaN)}]. *)
Definition date_storage : @TypedStorage (λ _, Date) :=
  mkTypedStorage localStorage ""
    (uniform_schema (isoDateConverter no_host_formats) ["last_played"]).

Definition date_world : World :=
  (TypedStorage_new localStorage
     (inr (uniform_schema (isoDateConverter no_host_formats) ["last_played"]))
     None initial_world).1.

Definition date_defaults : @BodyObject (λ _, Date) :=
  [existT "last_played" Invalid_Date].

(** A call that reads or writes the entry of a field in [K] of [this]. *)
Definition field_call {Body} (this : @TypedStorage Body) (K : string → Prop)
    (c : StorageCall) : Prop :=
  ∃ key, K key ∧
    (c = Call_getItem (storage this) (effective_key this key) ∨
     ∃ v, c = Call_setItem (storage this) (effective_key this key) v).

(** On the way from [w] to [w'] the stores received only such calls. *)
Definition calls_only {Body} (this : @TypedStorage Body) (K : string → Prop)
    (w w' : World) : Prop :=
  ∃ tr, calls w' = calls w ++ tr ∧ ∀ c, c ∈ tr → field_call this K c.

(** The double that is the integer [n], for [0 <= n < 2^53]. *)
Definition double_of_integer (n : Z) : Number :=
  if n =? 0 then Finite false 0 (-1074)
  else Finite false (n * 2 ^ (52 - Z.log2 n)) (Z.log2 n - 52).

(** A run of white space and line terminators. *)
Inductive white_space : list ascii → Prop :=
  | white_space_nil : white_space []
  | white_space_cons cp ws :
      cp ∈ WhiteSpace ++ LineTerminator → white_space ws →
      white_space (utf8 cp ++ ws).

(** An optional sign. *)
Definition optional_sign (sign : list ascii) : Prop :=
  sign = [] ∨ sign = ["+"%char] ∨ sign = ["-"%char].

(** The string is white space, an optional sign, a decimal digit, and
    anything after that. *)
Definition has_leading_digit (string : string) : Prop :=
  ∃ ws sign d rest,
    list_ascii_of_string string = ws ++ sign ++ d :: rest ∧
    white_space ws ∧ optional_sign sign ∧ is_digit d = true.

(** A host whose stores are full: every write is refused. *)
Definition store_full : Storage → gmap string string → string → string → bool :=
  λ _ _ _ _, false.

(** [new TypedStorage(localStorage, {a: booleanConverter, b: booleanConverter})]
    in a fresh page, and the defaults [{a: false, b: true}]. *)
Definition pair_storage : @TypedStorage (λ _, bool) :=
  mkTypedStorage localStorage "" (uniform_schema booleanConverter ["a"; "b"]).

Definition pair_world : World :=
  (TypedStorage_new localStorage (inr (uniform_schema booleanConverter ["a"; "b"]))
     None initial_world).1.

Definition pair_defaults : @BodyObject (λ _, bool) :=
  [existT "a" false; existT "b" true].

(** * Properties *)

(** ** The key registry *)

Lemma initial_world_ok : world_ok initial_world.
Proof. split; intros *; cbn; intros H; by rewrite lookup_empty in H. Qed.

Lemma getTakenKey_spec storage w :
  world_ok w →
  ∃ w' l, getTakenKey storage w = (w', Normal l) ∧
    world_ok w' ∧ takenKeys w' !! storage = Some l ∧
    is_Some (heap w' !! l) ∧
    stored w' = stored w ∧ calls w' = calls w ∧
    (∀ s, claimed w' s = claimed w s).
Proof.
  intros [Hb Hi]. unfold getTakenKey, bind, takenKeys_get.
  destruct (takenKeys w !! storage) as [l|] eqn:E.
  - exists w, l. repeat split; eauto.
    apply lookup_lt_is_Some. eauto.
  - cbn. eexists _, _. split; [reflexivity|]. cbn.
    split; [split|].
    + intros s l. cbn. rewrite length_app. cbn. rewrite lookup_insert.
      case_decide; [intros [= <-]; lia|]. intros Hl%Hb. lia.
    + intros s1 s2 l. cbn. rewrite !lookup_insert.
      repeat case_decide; subst; try done.
      * intros [= <-] Hl%Hb. lia.
      * intros Hl%Hb [= <-]. lia.
      * eauto.
    + rewrite lookup_insert_eq. split; [done|].
      split. { rewrite lookup_app_r, Nat.sub_diag by lia. by eexists. }
      do 2 (split; [done|]).
      intros s. unfold claimed. cbn. rewrite lookup_insert.
      case_decide; subst.
      * rewrite E. rewrite lookup_app_r by lia. by rewrite Nat.sub_diag.
      * destruct (takenKeys w !! s) as [l|] eqn:E'; [|done].
        rewrite lookup_app_l; [done|]. eauto.
Qed.

Lemma constructor_loop_cons storage prefix l key keys w :
  constructor_loop storage prefix l (key :: keys) w =
    if bool_decide (prefix +:+ key ∈ default ∅ (heap w !! l))
    then (w, Throw (Error (taken_message (prefix +:+ key) storage)))
    else constructor_loop storage prefix l keys (Set_add l (prefix +:+ key) w).1.
Proof.
  unfold constructor_loop. cbn [for_of]. unfold bind, Set_has. cbn.
  by destruct (bool_decide _).
Qed.

Lemma constructor_loop_spec storage prefix l keys : ∀ w S,
  heap w !! l = Some S →
  constructor_loop storage prefix l keys w =
    (mkWorld (stored w) (takenKeys w)
       (<[l := (claim_keys prefix keys S).1]> (heap w)) (calls w),
     match (claim_keys prefix keys S).2 with
     | None => Normal tt
     | Some storeKey => Throw (Error (taken_message storeKey storage))
     end).
Proof.
  induction keys as [|key keys IH]; intros w S HS.
  - cbn. unfold ret. rewrite list_insert_id by done. by destruct w.
  - rewrite constructor_loop_cons, HS. cbn.
    case_bool_decide; cbn.
    + rewrite list_insert_id by done. by destruct w.
    + erewrite IH; cbn.
      2:{ rewrite list_lookup_alter_eq, HS. reflexivity. }
      f_equal. f_equal.
      apply list_eq. intros i. rewrite !list_lookup_insert.
      rewrite length_alter.
      pose proof (lookup_lt_Some _ _ _ HS) as Hlt.
      destruct (decide (l = i)) as [->|]; cbn.
      * repeat case_decide; try lia; done.
      * rewrite list_lookup_alter_ne by done.
        repeat case_decide; try lia; done.
Qed.

Lemma claim_keys_mono prefix keys : ∀ S, S ⊆ (claim_keys prefix keys S).1.
Proof.
  induction keys as [|key keys IH]; intros S; cbn; [done|].
  case_bool_decide; cbn; [done|].
  etrans; [|apply IH]. set_solver.
Qed.

Lemma claim_keys_ok prefix keys : ∀ S,
  NoDup keys → (∀ key, key ∈ keys → prefix +:+ key ∉ S) →
  claim_keys prefix keys S = (effective_keys prefix keys ∪ S, None).
Proof.
  unfold effective_keys.
  induction keys as [|key keys IH]; intros S Hnd Hfree; cbn.
  - f_equal. set_solver.
  - apply NoDup_cons in Hnd as [Hkey Hnd].
    rewrite bool_decide_eq_false_2 by (apply Hfree; left).
    rewrite IH; [f_equal; set_solver|done|].
    intros key' Hin. rewrite elem_of_union, elem_of_singleton.
    intros [Heq%(inj _)|Hold]; [by subst|].
    revert Hold. apply Hfree. by right.
Qed.

Lemma claim_keys_collide prefix keys key : ∀ S,
  key ∈ keys → prefix +:+ key ∈ S → is_Some (claim_keys prefix keys S).2.
Proof.
  induction keys as [|key' keys IH]; intros S Hin HS; [by apply elem_of_nil in Hin|].
  cbn. case_bool_decide; cbn; [by eexists|].
  apply elem_of_cons in Hin as [->|Hin]; [done|].
  apply IH; [done|]. set_solver.
Qed.

Lemma claim_keys_claims prefix keys key : ∀ S,
  (claim_keys prefix keys S).2 = None → key ∈ keys →
  prefix +:+ key ∈ (claim_keys prefix keys S).1.
Proof.
  induction keys as [|key' keys IH]; intros S; cbn; [by intros _ ?%elem_of_nil|].
  case_bool_decide; cbn; [done|].
  intros Hnone [->|Hin]%elem_of_cons; [|by apply IH].
  apply claim_keys_mono. set_solver.
Qed.

Lemma claim_keys_stop prefix keys : ∀ S storeKey,
  (claim_keys prefix keys S).2 = Some storeKey →
  ∃ pre key post, keys = (pre ++ key :: post)%list ∧ storeKey = prefix +:+ key ∧
    (claim_keys prefix keys S).1 = effective_keys prefix pre ∪ S ∧
    storeKey ∈ effective_keys prefix pre ∪ S ∧
    (∀ key', key' ∈ pre → prefix +:+ key' ∉ S).
Proof.
  unfold effective_keys.
  induction keys as [|key keys IH]; intros S storeKey; cbn; [done|].
  case_bool_decide as Hin; cbn.
  - intros [= <-]. exists [], key, keys. cbn.
    repeat split; [set_solver..|]. intros ? []%elem_of_nil.
  - intros (pre & key' & post & -> & -> & H1 & H2 & H3)%IH.
    exists (key :: pre), key', post. cbn. rewrite H1.
    repeat split; [set_solver..|].
    intros k [->|Hk]%elem_of_cons; [done|].
    apply H3 in Hk. set_solver.
Qed.

Section Construction.
Context {Body : string → Type}.
Implicit Types (converters : @Converters Body).

Lemma TypedStorage_new_spec storage prefix converters w :
  world_ok w →
  let r := claim_keys prefix (Object_keys converters) (claimed w storage) in
  ∃ w',
    TypedStorage_new storage (inl prefix) (Some converters) w =
      (w', match r.2 with
           | None => Normal (mkTypedStorage storage prefix converters)
           | Some storeKey => Throw (Error (taken_message storeKey storage))
           end) ∧
    world_ok w' ∧ stored w' = stored w ∧ calls w' = calls w ∧
    claimed w' storage = r.1 ∧
    (∀ s, s ≠ storage → claimed w' s = claimed w s).
Proof.
  intros Hok r.
  destruct (getTakenKey_spec storage w Hok)
    as (w1 & l & Hget & Hok1 & Hl & [S HS] & Hst & Hcalls & Hcl).
  assert (claimed w storage = S) as HS'.
  { rewrite <- Hcl. unfold claimed. by rewrite Hl, HS. }
  unfold TypedStorage_new. unfold bind at 1. rewrite Hget.
  fold (constructor_loop storage prefix l (Object_keys converters)).
  unfold bind. rewrite (constructor_loop_spec _ _ _ _ _ _ HS).
  fold r. rewrite <- HS'. fold r.
  eexists. split; [by destruct (r.2)|].
  destruct Hok1 as [Hb Hi]. cbn.
  split; [split; cbn|].
  - intros s l'. rewrite length_insert. apply Hb.
  - apply Hi.
  - repeat split; try done.
    + unfold claimed. cbn. rewrite Hl.
      rewrite list_lookup_insert_eq; [done|]. by eapply lookup_lt_Some.
    + intros s Hs. rewrite <- Hcl. unfold claimed. cbn.
      destruct (takenKeys w1 !! s) as [l'|] eqn:E; [|done].
      rewrite list_lookup_insert_ne; [done|].
      intros ->. apply Hs. by eapply Hi.
Qed.

End Construction.

(** ** The methods *)

Section Methods.
Variable accepts : Storage → gmap string string → string → string → bool.
Context {Body : string → Type}.
Implicit Types (this : @TypedStorage Body) (w : World) (key : string).

Lemma getItem_unfold this key w :
  getItem this key w =
    let w1 := record (Call_getItem (storage this) (effective_key this key)) w in
    match items w (storage this) !! effective_key this key with
    | None => (w1, Normal None)
    | Some item =>
        match prop (converters this) key with
        | Some c => (w1, parse c item)
        | None =>
            (w1, Throw (TypeError "Cannot read properties of undefined (reading 'parse')"))
        end
    end.
Proof.
  unfold getItem, bind, Storage_getItem, effective_key. cbn.
  destruct (items w (storage this) !! _); [|done].
  unfold call_parse. by destruct (prop _ _).
Qed.

Lemma hasItem_unfold this key w :
  hasItem this key w =
    match getItem this key w with
    | (w1, Normal v) => (w1, Normal (bool_decide (is_Some v)))
    | (w1, Throw e) => (w1, Throw e)
    end.
Proof. reflexivity. Qed.

Lemma setItem_unfold this key (value : Body key) w :
  setItem accepts this key value w =
    match prop (converters this) key with
    | Some c =>
        match stringify c value with
        | Normal s =>
            Storage_setItem accepts (storage this) (effective_key this key) s w
        | Throw e => (w, Throw e)
        end
    | None =>
        (w, Throw (TypeError "Cannot read properties of undefined (reading 'stringify')"))
    end.
Proof.
  unfold setItem, bind, call_stringify.
  destruct (prop _ _) as [c|]; [|done].
  unfold lift. by destruct (stringify c value).
Qed.

(** C4.  [getItem] answers [null] when the store has no entry at the
    effective key; when it has one, the answer is the field converter's
    [parse] of the stored string.  An entry the converter cannot parse
    therefore yields the same [null] as a missing entry.  The call reads the
    store once and changes neither its contents nor the registry. *)
Theorem getItem_reads_and_parses this key (c : Converter (Body key)) w :
  prop (converters this) key = Some c →
  (getItem this key w).2 =
    match items w (storage this) !! effective_key this key with
    | None => Normal None
    | Some item => parse c item
    end ∧
  (∀ item, items w (storage this) !! effective_key this key = Some item →
           parse c item = Normal None →
           (getItem this key w).2 = Normal None) ∧
  (getItem this key w).1 =
    record (Call_getItem (storage this) (effective_key this key)) w.
Proof.
  intros Hc. rewrite getItem_unfold, Hc. cbn.
  destruct (items w (storage this) !! _) as [item|] eqn:E; cbn.
  - repeat split. by intros ? [= <-].
  - repeat split; done.
Qed.

(** C5.  [hasItem] is [true] exactly when [getItem] returns a value other
    than [null]; it throws when [getItem] throws; and it leaves the same
    world as [getItem], so the only store access is the single read
    [getItem] makes. *)
Theorem hasItem_iff_getItem this key w :
  ((hasItem this key w).2 = Normal true ↔
     ∃ v, (getItem this key w).2 = Normal (Some v)) ∧
  ((hasItem this key w).2 = Normal false ↔
     (getItem this key w).2 = Normal None) ∧
  (∀ e, (hasItem this key w).2 = Throw e ↔ (getItem this key w).2 = Throw e) ∧
  (hasItem this key w).1 = (getItem this key w).1 ∧
  calls (hasItem this key w).1 =
    (calls w ++ [Call_getItem (storage this) (effective_key this key)])%list.
Proof.
  rewrite hasItem_unfold.
  assert (calls (getItem this key w).1 =
    (calls w ++ [Call_getItem (storage this) (effective_key this key)])%list) as Hc.
  { rewrite getItem_unfold. cbn.
    destruct (items w _ !! _); [destruct (prop _ _)|]; done. }
  destruct (getItem this key w) as [w1 [[v|]|e]]; cbn in *.
  - repeat split; try done; eauto.
  - repeat split; try done. by intros [? ?].
  - repeat split; try done; try congruence. by intros [? ?].
Qed.

(** C9.  [setItem] and [removeItem] change at most the entry at the
    effective key of the field in the store of the instance: every other
    key of that store and every key of every other store keeps its value,
    and the registry ([takenKeys] and the sets it holds) is not mutated. *)
Theorem setItem_removeItem_frame this key (value : Body key) w :
  let w1 := (setItem accepts this key value w).1 in
  let w2 := (removeItem this key w).1 in
  (∀ s k, (s, k) ≠ (storage this, effective_key this key) →
          items w1 s !! k = items w s !! k ∧ items w2 s !! k = items w s !! k) ∧
  takenKeys w1 = takenKeys w ∧ heap w1 = heap w ∧
  takenKeys w2 = takenKeys w ∧ heap w2 = heap w ∧
  (∀ s, claimed w1 s = claimed w s ∧ claimed w2 s = claimed w s).
Proof.
  intros w1 w2.
  assert (∀ w' : World, (∀ s k, (s, k) ≠ (storage this, effective_key this key) →
            items w' s !! k = items w s !! k) ∧
          takenKeys w' = takenKeys w ∧ heap w' = heap w → 
          ∀ s, claimed w' s = claimed w s) as Hcl.
  { intros w' (_ & Ht & Hh) s. unfold claimed. by rewrite Ht, Hh. }
  assert ((∀ s k, (s, k) ≠ (storage this, effective_key this key) →
            items w1 s !! k = items w s !! k) ∧
          takenKeys w1 = takenKeys w ∧ heap w1 = heap w) as H1.
  { subst w1. rewrite setItem_unfold.
    destruct (prop _ _) as [c|]; [|done].
    destruct (stringify c value) as [str|e]; [|done].
    unfold Storage_setItem. destruct (accepts _ _ _ _); [|done]. cbn.
    split; [|done]. intros s k Hne. unfold items at 1. cbn.
    rewrite lookup_insert. case_decide as Hs; [|done]. subst s. cbn.
    rewrite lookup_insert_ne; [done|]. congruence. }
  assert ((∀ s k, (s, k) ≠ (storage this, effective_key this key) →
            items w2 s !! k = items w s !! k) ∧
          takenKeys w2 = takenKeys w ∧ heap w2 = heap w) as H2.
  { subst w2. unfold removeItem, Storage_removeItem. cbn.
    split; [|done]. intros s k Hne. unfold items at 1. cbn.
    rewrite lookup_insert. case_decide as Hs; [|done]. subst s. cbn.
    rewrite lookup_delete_ne; [done|]. unfold effective_key in Hne. congruence. }
  pose proof (Hcl _ H1). pose proof (Hcl _ H2).
  destruct H1 as (? & ? & ?), H2 as (? & ? & ?). repeat split; eauto.
Qed.

Lemma for_of_app {A} (l1 l2 : list A) (f : A → JS unit) w :
  for_of (l1 ++ l2)%list f w = (for_of l1 f ;;; for_of l2 f) w.
Proof.
  revert w. induction l1 as [|x l1 IH]; intros w; cbn; [done|].
  unfold bind in *. destruct (f x w) as [w1 [[]|e]]; [|done].
  apply IH.
Qed.

Lemma effective_key_inj this : Inj (=) (=) (effective_key this).
Proof. intros k1 k2. unfold effective_key. apply (inj _). Qed.

Lemma touches_only_refl this K w : touches_only this K w w.
Proof.
  repeat split; try done. exists []. rewrite app_nil_r. split; [done|].
  by intros s k v ?%elem_of_nil.
Qed.

Lemma touches_only_trans this (K1 K2 K : string → Prop) w1 w2 w3 :
  (∀ key, K1 key → K key) → (∀ key, K2 key → K key) →
  touches_only this K1 w1 w2 → touches_only this K2 w2 w3 →
  touches_only this K w1 w3.
Proof.
  intros HK1 HK2 (Hi1 & Ht1 & Hh1 & tr1 & Hc1 & Htr1)
    (Hi2 & Ht2 & Hh2 & tr2 & Hc2 & Htr2).
  split; [|split; [congruence|split; [congruence|]]].
  - intros s k Hn. rewrite Hi2, Hi1; [done|..]; intros (? & key & ? & ?); eauto 7.
  - exists (tr1 ++ tr2)%list. rewrite Hc2, Hc1, app_assoc. split; [done|].
    intros s k v [Hin|Hin]%elem_of_app.
    + destruct (Htr1 _ _ _ Hin) as (? & key & ? & ?); eauto.
    + destruct (Htr2 _ _ _ Hin) as (? & key & ? & ?); eauto.
Qed.

Lemma getItem_touches this key w K :
  touches_only this K w (getItem this key w).1 ∧
  calls (getItem this key w).1 =
    (calls w ++ [Call_getItem (storage this) (effective_key this key)])%list.
Proof.
  assert ((getItem this key w).1 =
    record (Call_getItem (storage this) (effective_key this key)) w) as ->.
  { rewrite getItem_unfold. cbn.
    destruct (items w _ !! _); [destruct (prop _ _)|]; done. }
  split; [|done]. repeat split; try done. eexists. split; [done|].
  intros s k v Hin%list_elem_of_singleton. done.
Qed.

Lemma setItem_touches this key (value : Body key) w :
  touches_only this (λ key', key' = key) w (setItem accepts this key value w).1.
Proof.
  rewrite setItem_unfold.
  destruct (prop _ _) as [c|]; [|apply touches_only_refl].
  destruct (stringify c value) as [str|e]; [|apply touches_only_refl].
  unfold Storage_setItem.
  assert (∀ s k v, Call_setItem s k v ∈ [Call_setItem (storage this)
            (effective_key this key) str] →
          s = storage this ∧ ∃ key', key' = key ∧ k = effective_key this key') as Htr.
  { intros s k v [= -> -> ->]%list_elem_of_singleton. eauto. }
  destruct (accepts _ _ _ _); cbn.
  - split; [|repeat split; eauto].
    intros s k Hn. unfold items at 1. cbn. rewrite lookup_insert.
    case_decide as Hs; [|done]. subst s. cbn.
    rewrite lookup_insert_ne; [done|]. intros <-. apply Hn. eauto.
  - repeat split; eauto.
Qed.

Lemma visit_unfold this key (value : Body key) w :
  visit accepts this (existT key value) w =
    match hasItem this key w with
    | (w1, Normal true) => (w1, Normal tt)
    | (w1, Normal false) => setItem accepts this key value w1
    | (w1, Throw e) => (w1, Throw e)
    end.
Proof.
  unfold visit, bind. destruct (hasItem this key w) as [w1 [[]|e]]; done.
Qed.

Lemma visit_touches this key (value : Body key) w :
  touches_only this (λ key', key' = key) w
    (visit accepts this (existT key value) w).1.
Proof.
  rewrite visit_unfold, hasItem_unfold.
  pose proof (getItem_touches this key w (λ key', key' = key)) as [Hget _].
  destruct (getItem this key w) as [w1 [v|e]]; cbn in *; [|done].
  destruct (bool_decide (is_Some v)); [done|].
  eapply touches_only_trans; [..|apply Hget|apply setItem_touches]; done.
Qed.

Lemma setDefaults_touches this (body : BodyObject) : ∀ w,
  touches_only this (λ key, key ∈ keys_of body) w
    (setDefaults accepts this body w).1.
Proof.
  induction body as [|[key value] body IH]; intros w.
  - apply touches_only_refl.
  - change (setDefaults accepts this (existT key value :: body) w) with
      ((visit accepts this (existT key value) ;;;
        setDefaults accepts this body) w).
    unfold bind. pose proof (visit_touches this key value w) as Hv.
    destruct (visit accepts this (existT key value) w) as [w1 [[]|e]]; cbn in *.
    + eapply touches_only_trans; [..|apply Hv|apply IH]; cbn.
      * intros ? ->. left.
      * intros ??. by right.
    + eapply (touches_only_trans _ _ (λ _, False));
        [..|apply Hv|apply touches_only_refl]; cbn.
      * intros ? ->. left.
      * done.
Qed.

Lemma hasItem_same_entry this key w w' :
  items w (storage this) !! effective_key this key =
    items w' (storage this) !! effective_key this key →
  (hasItem this key w).2 = (hasItem this key w').2.
Proof.
  intros Heq. rewrite !hasItem_unfold, !getItem_unfold. cbn. rewrite Heq.
  destruct (items w' _ !! _); [|done].
  destruct (prop _ _) as [c|]; [|done]. by destruct (parse c _) as [[]|].
Qed.

Lemma new_calls_app w w' tr : calls w' = (calls w ++ tr)%list → new_calls w w' = tr.
Proof. intros H. unfold new_calls. rewrite H. apply drop_app_length. Qed.

Lemma touches_only_elim this (K : string → Prop) key w w' :
  touches_only this K w w' → ¬ K key →
  items w' (storage this) !! effective_key this key =
    items w (storage this) !! effective_key this key ∧
  ∀ s, Call_setItem (storage this) (effective_key this key) s ∉ new_calls w w'.
Proof.
  intros (Hi & _ & _ & tr & Hc & Htr) HK. split.
  - apply Hi. intros (_ & key' & ? & ->%(inj _)). done.
  - intros s. rewrite (new_calls_app _ _ _ Hc).
    intros (_ & key' & ? & ->%(inj (effective_key this)))%Htr. done.
Qed.

Lemma setDefaults_cons this (field : {k : string & Body k}) (body : BodyObject) w :
  setDefaults accepts this (field :: body) w =
    (visit accepts this field ;;; setDefaults accepts this body) w.
Proof. reflexivity. Qed.

Lemma setDefaults_app this (pre body : BodyObject) w :
  setDefaults accepts this (pre ++ body)%list w =
    (setDefaults accepts this pre ;;; setDefaults accepts this body) w.
Proof. apply for_of_app. Qed.

Lemma methods_agree this key w w' :
  stored w = stored w' →
  agree (getItem this key) w w' ∧
  agree (hasItem this key) w w' ∧
  agree (removeItem this key) w w' ∧
  ∀ value, agree (setItem accepts this key value) w w'.
Proof.
  intros Hst.
  assert (items w (storage this) = items w' (storage this)) as Hit.
  { unfold items. by rewrite Hst. }
  assert (agree (getItem this key) w w') as Hget.
  { unfold agree. rewrite !getItem_unfold, Hit. cbn.
    destruct (items w' _ !! _); [destruct (prop _ _)|]; done. }
  split; [done|]. split; [|split].
  - destruct Hget as [H1 H2]. unfold agree. rewrite !hasItem_unfold.
    destruct (getItem this key w) as [? [?|?]], (getItem this key w') as [? [?|?]];
      cbn in *; by simplify_eq.
  - unfold agree, removeItem, Storage_removeItem. cbn. by rewrite Hst, Hit.
  - intros value. unfold agree. rewrite !setItem_unfold.
    destruct (prop _ _) as [c|]; [|done].
    destruct (stringify c value); [|done].
    unfold Storage_setItem. rewrite Hit.
    destruct (accepts _ _ _ _); cbn; by rewrite ?Hst.
Qed.

Lemma Storage_setItem_same s k v w :
  items w s !! k = Some v →
  stored (Storage_setItem accepts s k v w).1 = stored w.
Proof.
  intros Hk. unfold Storage_setItem. destruct (accepts _ _ _ _); [|done]. cbn.
  unfold items in *. destruct (stored w !! s) as [m|] eqn:E; cbn in *.
  - rewrite (insert_id m) by done. by apply insert_id.
  - by rewrite lookup_empty in Hk.
Qed.

(** Visiting again a field whose visit returned changes nothing in the
    stores, whatever happened to the other entries in between. *)
Lemma visit_again_returned this key (value : Body key) w w' :
  let k := effective_key this key in
  (visit accepts this (existT key value) w).2 = Normal tt →
  items w' (storage this) !! k =
    items (visit accepts this (existT key value) w).1 (storage this) !! k →
  stored (visit accepts this (existT key value) w').1 = stored w'.
Proof.
  intros k. rewrite !visit_unfold, !hasItem_unfold, !getItem_unfold. cbn zeta.
  fold k. 
  assert (∀ c, (record c w).(stored) = stored w) as Hrec by done.
  assert (∀ c w, items (record c w) (storage this) = items w (storage this))
    as Hirec by done.
  destruct (items w (storage this) !! k) as [item|] eqn:Hit.
  - (* an entry was there *)
    destruct (prop (converters this) key) as [c|] eqn:Hc; [|done].
    destruct (parse c item) as [[v|]|e] eqn:Hp; cbn; [| |done].
    + (* parsed: no write *)
      intros _. rewrite Hirec, Hit. intros ->. by rewrite Hp.
    + (* not parsed: written *)
      rewrite setItem_unfold, Hc.
      destruct (stringify c value) as [str|e] eqn:Hs; [|done].
      unfold Storage_setItem at 1 2. rewrite Hirec.
      destruct (accepts _ _ _ _); [|done]. cbn.
      intros _. unfold items at 2. cbn. rewrite lookup_insert_eq. cbn.
      rewrite lookup_insert_eq. intros Hk'. rewrite Hk'.
      destruct (parse c str) as [[v|]|e]; cbn; try done.
      rewrite setItem_unfold, Hc, Hs.
      rewrite Storage_setItem_same; [done|by rewrite Hirec].
  - (* no entry was there: written *)
    cbn. rewrite setItem_unfold.
    destruct (prop (converters this) key) as [c|] eqn:Hc; [|done].
    destruct (stringify c value) as [str|e] eqn:Hs; [|done].
    unfold Storage_setItem at 1 2. rewrite Hirec.
    destruct (accepts _ _ _ _); [|done]. cbn.
    intros _. unfold items at 2. cbn. rewrite lookup_insert_eq. cbn.
    rewrite lookup_insert_eq. intros Hk'. rewrite Hk'.
    destruct (parse c str) as [[v|]|e]; cbn; try done.
    rewrite setItem_unfold, Hc, Hs.
      rewrite Storage_setItem_same; [done|by rewrite Hirec].
Qed.

(** Visiting again a field whose visit threw, with the stores as the
    failed visit left them, throws again and changes nothing. *)
Lemma visit_again_thrown this key (value : Body key) w w' e :
  (visit accepts this (existT key value) w).2 = Throw e →
  stored w' = stored (visit accepts this (existT key value) w).1 →
  (visit accepts this (existT key value) w').2 = Throw e ∧
  stored (visit accepts this (existT key value) w').1 = stored w'.
Proof.
  rewrite !visit_unfold, !hasItem_unfold, !getItem_unfold. cbn zeta.
  assert (∀ w w', stored w = stored w' →
            items w (storage this) = items w' (storage this)) as Hitems.
  { intros ?? Heq. unfold items. by rewrite Heq. }
  assert (∀ str w0,
    (Storage_setItem accepts (storage this) (effective_key this key) str w0).2
      = Throw e →
    stored w' =
      stored (Storage_setItem accepts (storage this) (effective_key this key)
                str w0).1 →
    let r := Storage_setItem accepts (storage this) (effective_key this key) str
              (record (Call_getItem (storage this) (effective_key this key)) w') in
    r.2 = Throw e ∧ stored r.1 = stored w') as Hset.
  { intros str w0. unfold Storage_setItem.
    destruct (accepts _ (items w0 _) _ _) eqn:Hacc; [done|]. cbn.
    intros He Hst.
    rewrite (Hitems (record _ w') w0) by done. by rewrite Hacc. }
  assert (∀ str w0,
    (Storage_setItem accepts (storage this) (effective_key this key) str w0).2
      = Throw e →
    stored (Storage_setItem accepts (storage this) (effective_key this key)
                str w0).1 = stored w0) as Hthrown.
  { intros str w0. unfold Storage_setItem. by destruct (accepts _ _ _ _). }
  destruct (items w (storage this) !! _) as [item|] eqn:Hit.
  - destruct (prop (converters this) key) as [c|] eqn:Hc.
    + destruct (parse c item) as [[v|]|e'] eqn:Hp; cbn; [done| |].
      * rewrite setItem_unfold, Hc.
        destruct (stringify c value) as [str|e'] eqn:Hs.
        -- intros Hthrow Hst.
           assert (stored w' = stored w) as Hw.
           { rewrite Hst. by rewrite (Hthrown _ _ Hthrow). }
           rewrite (Hitems w' w), Hit, Hp by done. cbn.
           rewrite setItem_unfold, Hc, Hs. by apply (Hset str _ Hthrow).
        -- cbn. intros He Hst. rewrite (Hitems w' w), Hit, Hp by done. cbn.
           by rewrite setItem_unfold, Hc, Hs.
      * intros He Hst. by rewrite (Hitems w' w), Hit, Hp by done.
    + cbn. intros He Hst. by rewrite (Hitems w' w), Hit by done.
  - cbn. rewrite setItem_unfold.
    destruct (prop (converters this) key) as [c|] eqn:Hc.
    + destruct (stringify c value) as [str|e'] eqn:Hs.
      * intros Hthrow Hst.
        assert (stored w' = stored w) as Hw.
        { rewrite Hst. by rewrite (Hthrown _ _ Hthrow). }
        rewrite (Hitems w' w), Hit by done. cbn.
        rewrite setItem_unfold, Hc, Hs. by apply (Hset str _ Hthrow).
      * cbn. intros He Hst. rewrite (Hitems w' w), Hit by done. cbn.
        by rewrite setItem_unfold, Hc, Hs.
    + cbn. intros He Hst. rewrite (Hitems w' w), Hit by done. cbn.
      by rewrite setItem_unfold, Hc.
Qed.

(** After a visit that returned, a default that its converter reads back
    makes [hasItem] true. *)
Lemma visit_returned_hasItem this key (value : Body key) w w' :
  let k := effective_key this key in
  (visit accepts this (existT key value) w).2 = Normal tt →
  (∀ c s, prop (converters this) key = Some c → stringify c value = Normal s →
          ∃ v, parse c s = Normal (Some v)) →
  items w' (storage this) !! k =
    items (visit accepts this (existT key value) w).1 (storage this) !! k →
  hasItem this key w' =
    (record (Call_getItem (storage this) k) w', Normal true).
Proof.
  intros k. rewrite !visit_unfold, !hasItem_unfold, !getItem_unfold. cbn zeta.
  fold k.
  assert (∀ c w, items (record c w) (storage this) = items w (storage this))
    as Hirec by done.
  assert (∀ c str,
    prop (converters this) key = Some c → stringify c value = Normal str →
    (∀ c s, prop (converters this) key = Some c → stringify c value = Normal s →
          ∃ v, parse c s = Normal (Some v)) →
    (Storage_setItem accepts (storage this) k str
       (record (Call_getItem (storage this) k) w)).2 = Normal tt →
    items w' (storage this) !! k =
      items (Storage_setItem accepts (storage this) k str
         (record (Call_getItem (storage this) k) w)).1 (storage this) !! k →
    match
      match items w' (storage this) !! k with
      | Some item => (record (Call_getItem (storage this) k) w', parse c item)
      | None => (record (Call_getItem (storage this) k) w', Normal None)
      end
    with
    | (w1, Normal v) => (w1, Normal (bool_decide (is_Some v)))
    | (w1, Throw e) => (w1, Throw e)
    end = (record (Call_getItem (storage this) k) w', Normal true)) as Hwritten.
  { intros c str Hc Hs Hrt. unfold Storage_setItem.
    destruct (accepts _ _ _ _); [|done]. cbn. intros _.
    unfold items at 2. cbn. rewrite lookup_insert_eq. cbn.
    rewrite lookup_insert_eq. intros ->.
    destruct (Hrt c str Hc Hs) as [v ->]. done. }
  destruct (items w (storage this) !! k) as [item|] eqn:Hit.
  - destruct (prop (converters this) key) as [c|] eqn:Hc; [|done].
    destruct (parse c item) as [[v|]|e] eqn:Hp; cbn; [| |done].
    + intros _ _. rewrite Hirec, Hit. intros ->. by rewrite Hp.
    + rewrite setItem_unfold, Hc.
      destruct (stringify c value) as [str|e] eqn:Hs; [|done].
      intros. by eapply Hwritten.
  - cbn. rewrite setItem_unfold.
    destruct (prop (converters this) key) as [c|] eqn:Hc; [|done].
    destruct (stringify c value) as [str|e] eqn:Hs; [|done].
    intros. by eapply Hwritten.
Qed.

Lemma setDefaults_again_stores this (body : BodyObject) : ∀ w w1',
  NoDup (keys_of body) →
  stored w1' = stored (setDefaults accepts this body w).1 →
  stored (setDefaults accepts this body w1').1 = stored w1'.
Proof.
  induction body as [|[key value] body IH]; intros w w1' Hnd Hst; [done|].
  apply NoDup_cons in Hnd as [Hkey Hnd].
  rewrite setDefaults_cons in Hst |- *. unfold bind in *.
  destruct (visit accepts this (existT key value) w) as [wa [[]|e]] eqn:Hv.
  - pose proof (setDefaults_touches this body wa) as (Hframe & _).
    assert (stored (visit accepts this (existT key value) w1').1 = stored w1')
      as Hb.
    { apply (visit_again_returned this key value w); rewrite Hv; [done|].
      cbn. unfold items at 1. rewrite Hst. apply Hframe.
      intros (_ & key' & ? & ->%(inj (effective_key this))). done. }
    destruct (visit accepts this (existT key value) w1') as [wb [[]|e]];
      cbn in *; [|done].
    rewrite <- Hb. apply (IH wa); [done|]. by rewrite Hb.
  - destruct (visit_again_thrown this key value w w1' e) as [He Hb];
      rewrite ?Hv; try done.
    destruct (visit accepts this (existT key value) w1') as [wb [[]|e']];
      cbn in *; done.
Qed.

Lemma setDefaults_again_reads this (body : BodyObject) : ∀ w w1 w1',
  NoDup (keys_of body) →
  setDefaults accepts this body w = (w1, Normal tt) →
  round_trips this body →
  (∀ key, key ∈ keys_of body →
     items w1' (storage this) !! effective_key this key =
       items w1 (storage this) !! effective_key this key) →
  setDefaults accepts this body w1' =
    (mkWorld (stored w1') (takenKeys w1') (heap w1')
       (calls w1' ++ ((λ key, Call_getItem (storage this) (effective_key this key))
                        <$> keys_of body)),
     Normal tt).
Proof.
  induction body as [|[key value] body IH]; intros w w1 w1' Hnd Hrun Hrt Hsame.
  - cbn. unfold ret. rewrite app_nil_r. by destruct w1'.
  - apply NoDup_cons in Hnd as [Hkey Hnd].
    rewrite setDefaults_cons in Hrun |- *. unfold bind in *.
    destruct (visit accepts this (existT key value) w) as [wa [[]|e]] eqn:Hv;
      [|done].
    pose proof (setDefaults_touches this body wa) as (Hframe & _).
    rewrite Hrun in Hframe. cbn [fst] in Hframe.
    rewrite visit_unfold.
    rewrite (visit_returned_hasItem this key value w w1').
    + erewrite (IH wa w1); [|done|done| |].
      * cbn. by rewrite <- app_assoc.
      * intros key' value' c s Hin. apply Hrt. by right.
      * intros key' Hin. cbn. apply Hsame. by right.
    + by rewrite Hv.
    + intros c s. apply Hrt. left.
    + rewrite Hv. cbn. rewrite Hsame by left. apply Hframe.
      intros (_ & key' & ? & ->%(inj (effective_key this))). done.
Qed.

(** A visit calls the store to write only when [hasItem] is false, and
    then with the converter's string for the default. *)
Lemma visit_writes this key (value : Body key) w s k v :
  Call_setItem s k v ∈ new_calls w (visit accepts this (existT key value) w).1 →
  s = storage this ∧ k = effective_key this key ∧
  (hasItem this key w).2 = Normal false ∧
  ∃ c, prop (converters this) key = Some c ∧ stringify c value = Normal v.
Proof.
  rewrite visit_unfold, hasItem_unfold, getItem_unfold. cbn zeta.
  set (get := Call_getItem (storage this) (effective_key this key)).
  assert (Call_setItem s k v ∈ new_calls w (record get w) → False) as Hread.
  { rewrite (new_calls_app _ _ [get]) by done.
    by intros ?%list_elem_of_singleton. }
  assert (∀ c, prop (converters this) key = Some c →
    Call_setItem s k v ∈
      new_calls w (setItem accepts this key value (record get w)).1 →
    s = storage this ∧ k = effective_key this key ∧
    ∃ c, prop (converters this) key = Some c ∧ stringify c value = Normal v)
    as Hwrite.
  { intros c Hc. rewrite setItem_unfold, Hc.
    destruct (stringify c value) as [str|e] eqn:Hs; [|by intros ?%Hread].
    unfold Storage_setItem.
    assert (Call_setItem s k v ∈
              [get; Call_setItem (storage this) (effective_key this key) str] →
            s = storage this ∧ k = effective_key this key ∧
            ∃ c, prop (converters this) key = Some c ∧
                 stringify c value = Normal v) as Hin.
    { intros [Hg|Hs']%elem_of_cons; [done|].
      apply list_elem_of_singleton in Hs'. injection Hs' as -> -> ->. eauto. }
    destruct (accepts _ _ _ _); cbn [fst];
      rewrite (new_calls_app _ _
                 [get; Call_setItem (storage this) (effective_key this key) str])
        by (cbn; by rewrite <- app_assoc);
      intros (-> & -> & c0 & Hc0 & Hs0)%Hin; rewrite Hc in Hc0; eauto. }
  destruct (items w (storage this) !! _) as [item|].
  - destruct (prop (converters this) key) as [c|] eqn:Hc; [|by intros ?%Hread].
    destruct (parse c item) as [[v'|]|e]; cbn; [by intros ?%Hread| |by intros ?%Hread].
    intros H. destruct (Hwrite c eq_refl H) as (-> & -> & ?). done.
  - cbn.
    destruct (prop (converters this) key) as [c|] eqn:Hc.
    + intros H. destruct (Hwrite c eq_refl H) as (-> & -> & ?). done.
    + rewrite setItem_unfold, Hc. by intros ?%Hread.
Qed.

(** After a visit that returned, the field is set, or its entry holds the
    converter's string for the default. *)
Lemma visit_returned_entry this key (value : Body key) w w' c str :
  let k := effective_key this key in
  (visit accepts this (existT key value) w).2 = Normal tt →
  items w' (storage this) !! k =
    items (visit accepts this (existT key value) w).1 (storage this) !! k →
  (hasItem this key w').2 = Normal false →
  prop (converters this) key = Some c → stringify c value = Normal str →
  items w' (storage this) !! k = Some str.
Proof.
  intros k. rewrite visit_unfold, !hasItem_unfold, !getItem_unfold. cbn zeta.
  fold k. intros Hret Hsame Hhas Hc Hs. rewrite Hc in *.
  assert (∀ c w, items (record c w) (storage this) = items w (storage this))
    as Hirec by done.
  assert (∀ w0,
    (Storage_setItem accepts (storage this) k str w0).2 = Normal tt →
    items (Storage_setItem accepts (storage this) k str w0).1 (storage this) !! k
      = Some str) as Hwritten.
  { intros w0. unfold Storage_setItem. destruct (accepts _ _ _ _); [|done].
    intros _. unfold items. cbn. rewrite lookup_insert_eq. cbn.
    apply lookup_insert_eq. }
  destruct (items w (storage this) !! k) as [item|] eqn:Hit.
  - destruct (parse c item) as [[v|]|e] eqn:Hp; cbn in *; [| |done].
    + rewrite Hirec, Hit in Hsame. rewrite Hsame, Hp in Hhas. done.
    + rewrite setItem_unfold, Hc, Hs in Hret, Hsame.
      rewrite Hsame. by apply Hwritten.
  - cbn in *. rewrite setItem_unfold, Hc, Hs in Hret, Hsame.
    rewrite Hsame. by apply Hwritten.
Qed.

Lemma calls_extend this K w w' :
  touches_only this K w w' → ∃ tr, calls w' = calls w ++ tr.
Proof. intros (_ & _ & _ & tr & ? & _). eauto. Qed.

(** After a [setDefaults] that returned, every write a second
    [setDefaults] asks the store for is of the string the entry holds. *)
Lemma setDefaults_again_writes this (body : BodyObject) : ∀ w w1',
  NoDup (keys_of body) →
  (setDefaults accepts this body w).2 = Normal tt →
  stored w1' = stored (setDefaults accepts this body w).1 →
  ∀ s k v,
    Call_setItem s k v ∈ new_calls w1' (setDefaults accepts this body w1').1 →
    items w1' s !! k = Some v.
Proof.
  induction body as [|[key value] body IH]; intros w w1' Hnd Hret Hst s k v.
  { cbn. rewrite (new_calls_app _ _ []) by (by rewrite app_nil_r).
    by intros ?%elem_of_nil. }
  apply NoDup_cons in Hnd as [Hkey Hnd].
  rewrite setDefaults_cons in Hret, Hst |- *. unfold bind in *.
  destruct (visit accepts this (existT key value) w) as [wa [[]|e]] eqn:Hv;
    [|done].
  pose proof (setDefaults_touches this body wa) as (Hframe & _).
  assert (items w1' (storage this) !! effective_key this key =
          items (visit accepts this (existT key value) w).1 (storage this)
            !! effective_key this key) as Hsame.
  { rewrite Hv. cbn. unfold items at 1. rewrite Hst. apply Hframe.
    intros (_ & key' & ? & ->%(inj (effective_key this))). done. }
  assert (stored (visit accepts this (existT key value) w1').1 = stored w1')
    as Hb.
  { apply (visit_again_returned this key value w); [by rewrite Hv|done]. }
  assert (∀ s k v,
    Call_setItem s k v ∈ new_calls w1' (visit accepts this (existT key value) w1').1 →
    items w1' s !! k = Some v) as Hfirst.
  { intros s0 k0 v0 (-> & -> & Hhas & c & Hc & Hs)%visit_writes.
    apply (visit_returned_entry this key value w w1' c v0); try done.
    by rewrite Hv. }
  destruct (calls_extend _ _ _ _ (visit_touches this key value w1')) as [tr1 Htr1].
  destruct (visit accepts this (existT key value) w1') as [wb [[]|e]] eqn:Hvb;
    cbn [fst snd] in *; [|by apply Hfirst].
  destruct (calls_extend _ _ _ _ (setDefaults_touches this body wb)) as [tr2 Htr2].
  rewrite (new_calls_app w1' _ (tr1 ++ tr2)) by (by rewrite Htr2, Htr1, app_assoc).
  intros [Hin|Hin]%elem_of_app.
  - apply Hfirst. by rewrite (new_calls_app _ _ _ Htr1).
  - assert (items w1' s = items wb s) as -> by (unfold items; by rewrite Hb).
    apply (IH wa wb); [done|done|by rewrite Hb|].
    by rewrite (new_calls_app _ _ _ Htr2).
Qed.

(** C7 (as amended).  Calling [setDefaults] with the same defaults twice in
    succession leaves the stores as the first call left them.  When the first
    call returned, every write the second call asks the store for is of the
    string the entry already holds.  When in addition the converter of every
    field reads back the string it writes for the default
    ([parse(stringify(v))] is not [null]), the second call writes nothing:
    it returns after reading each field once. *)
Theorem setDefaults_twice_same_stores this (body : BodyObject) w :
  NoDup (keys_of body) →
  let r1 := setDefaults accepts this body w in
  let r2 := setDefaults accepts this body r1.1 in
  stored r2.1 = stored r1.1 ∧
  (r1.2 = Normal tt →
     ∀ s k v, Call_setItem s k v ∈ new_calls r1.1 r2.1 →
              items r1.1 s !! k = Some v) ∧
  (r1.2 = Normal tt → round_trips this body →
     r2.2 = Normal tt ∧
     new_calls r1.1 r2.1 =
       (λ key, Call_getItem (storage this) (effective_key this key))
         <$> keys_of body).
Proof.
  intros Hnd r1 r2. split; [|split].
  - by apply (setDefaults_again_stores this body w).
  - intros Hret. by apply (setDefaults_again_writes this body w).
  - intros Hret Hrt. subst r2.
    rewrite (setDefaults_again_reads this body w r1.1 r1.1); try done.
    + split; [done|]. by apply new_calls_app.
    + subst r1. by destruct (setDefaults accepts this body w) as [? []]; simplify_eq/=.
Qed.

(** What [setDefaults] does to the field it visits after the fields [pre]. *)
Lemma setDefaults_field this (body pre post : BodyObject)
    key (value : Body key) (c : Converter (Body key)) w w1 :
  NoDup (keys_of body) →
  body = (pre ++ existT key value :: post)%list →
  setDefaults accepts this pre w = (w1, Normal tt) →
  prop (converters this) key = Some c →
  let w' := (setDefaults accepts this body w).1 in
  let k := effective_key this key in
  ((hasItem this key w1).2 = Normal true →
     items w' (storage this) !! k = items w (storage this) !! k ∧
     ∀ s, Call_setItem (storage this) k s ∉ new_calls w w') ∧
  ((hasItem this key w1).2 = Normal false →
     ∀ s, stringify c value = Normal s →
       Call_setItem (storage this) k s ∈ new_calls w w' ∧
       ((setDefaults accepts this body w).2 = Normal tt →
          items w' (storage this) !! k = Some s)).
Proof.
  intros Hnd -> Hpre Hc w' k.
  unfold keys_of in Hnd. rewrite fmap_app, fmap_cons in Hnd. cbn in Hnd.
  apply NoDup_app in Hnd as (_ & Hpre_post & [Hpost _]%NoDup_cons).
  assert (key ∉ keys_of pre) as Hkpre.
  { intros Hin. apply (Hpre_post _ Hin). left. }
  pose proof (setDefaults_touches this pre w) as Htpre. rewrite Hpre in Htpre.
  cbn [fst] in Htpre.
  assert (setDefaults accepts this (pre ++ existT key value :: post)%list w =
          (visit accepts this (existT key value) ;;;
           setDefaults accepts this post) w1) as Hrun.
  { rewrite setDefaults_app. unfold bind at 1. by rewrite Hpre. }
  subst w'. rewrite Hrun. clear Hrun. unfold bind. rewrite visit_unfold.
  pose proof (getItem_touches this key w1 (λ _, False)) as [Htget Hcget].
  rewrite hasItem_unfold.
  destruct (getItem this key w1) as [wh [v|e]]; cbn [fst snd] in *; [|done].
  destruct (bool_decide (is_Some v)); (split; [|done]) || (split; [done|]).
  - (* the field is set: no write *)
    intros _. pose proof (setDefaults_touches this post wh) as Htpost.
    destruct (setDefaults accepts this post wh) as [w' r]. cbn [fst] in *.
    eapply (touches_only_elim this
              (λ key', key' ∈ keys_of pre ∨ key' ∈ keys_of post)).
    + eapply touches_only_trans; [| |exact Htpre|]; [by left|by intros ?; apply id|].
      eapply touches_only_trans; [| |exact Htget|exact Htpost]; [done|by right].
    + tauto.
  - (* the field is unset: write *)
    intros _ s Hs. rewrite setItem_unfold, Hc, Hs.
    destruct Htpre as (Hipre & _ & _ & tr1 & Hc1 & _).
    unfold Storage_setItem.
    destruct (accepts _ _ _ _) eqn:Hacc.
    + set (w2 := mkWorld _ _ _ _).
      pose proof (setDefaults_touches this post w2) as Htpost.
      destruct (setDefaults accepts this post w2) as [w' r]. cbn [fst snd] in *.
      destruct Htpost as (Hipost & _ & _ & tr3 & Hc3 & _).
      split.
      * erewrite new_calls_app; last first.
        { rewrite Hc3. subst w2. cbn. rewrite Hcget, Hc1.
          rewrite <- !app_assoc. reflexivity. }
        set_solver.
      * intros _. rewrite Hipost.
        -- subst w2. unfold items. cbn. rewrite lookup_insert_eq. cbn.
           apply lookup_insert_eq.
        -- intros (_ & key' & ? & ->%(inj (effective_key this))). done.
    + cbn. split; [|done].
      erewrite new_calls_app; last first.
      { cbn. rewrite Hcget, Hc1. rewrite <- !app_assoc. reflexivity. }
      set_solver.
Qed.

(** The field that is unset when it is visited and whose default
    [stringify] throws on: the error ends [setDefaults], and nothing is
    written for the field. *)
Lemma setDefaults_field_not_written this (body pre post : BodyObject)
    key (value : Body key) (c : Converter (Body key)) w w1 e :
  NoDup (keys_of body) →
  body = (pre ++ existT key value :: post)%list →
  setDefaults accepts this pre w = (w1, Normal tt) →
  prop (converters this) key = Some c →
  (hasItem this key w1).2 = Normal false →
  stringify c value = Throw e →
  let w' := (setDefaults accepts this body w).1 in
  let k := effective_key this key in
  (setDefaults accepts this body w).2 = Throw e ∧
  items w' (storage this) !! k = items w (storage this) !! k ∧
  ∀ s, Call_setItem (storage this) k s ∉ new_calls w w'.
Proof.
  intros Hnd -> Hpre Hc Hhas Hs w' k.
  unfold keys_of in Hnd. rewrite fmap_app, fmap_cons in Hnd. cbn in Hnd.
  apply NoDup_app in Hnd as (_ & Hpre_post & _).
  assert (key ∉ keys_of pre) as Hkpre.
  { intros Hin. apply (Hpre_post _ Hin). left. }
  pose proof (setDefaults_touches this pre w) as Htpre. rewrite Hpre in Htpre.
  cbn [fst] in Htpre.
  assert (setDefaults accepts this (pre ++ existT key value :: post)%list w =
          (visit accepts this (existT key value) ;;;
           setDefaults accepts this post) w1) as Hrun.
  { rewrite setDefaults_app. unfold bind at 1. by rewrite Hpre. }
  subst w'. rewrite Hrun. clear Hrun. unfold bind. rewrite visit_unfold.
  pose proof (getItem_touches this key w1 (λ _, False)) as [Htget _].
  rewrite hasItem_unfold in Hhas |- *.
  destruct (getItem this key w1) as [wh [v|e']]; cbn [fst snd] in *; [|done].
  injection Hhas as ->.
  rewrite setItem_unfold, Hc, Hs. cbn [fst snd]. split; [done|].
  apply (touches_only_elim this (λ key', key' ∈ keys_of pre)); [|done].
  eapply (touches_only_trans _ _ (λ _, False)); [| |exact Htpre|exact Htget];
    [by intros ?; apply id|done].
Qed.

End Methods.

(** ** Construction and the registry *)

Section ConstructionClaims.
Context {Body : string → Type}.
Implicit Types (converters : @Converters Body).

(** C1 (as amended).  When construction fails on an already claimed key,
    the keys of the fields that come before the colliding field in the
    order of [Object.keys] have been added to the claimed set of the store
    and stay there: the claimed set is the earlier one together with those
    keys.  No key of the colliding field or of a later field is added, and
    the claimed sets of the other stores are unchanged. *)
Theorem failed_construction_keeps_earlier_keys storage prefix converters w w' e :
  world_ok w →
  TypedStorage_new storage (inl prefix) (Some converters) w = (w', Throw e) →
  ∃ pre key post,
    Object_keys converters = (pre ++ key :: post)%list ∧
    e = Error (taken_message (prefix +:+ key) storage) ∧
    prefix +:+ key ∈ effective_keys prefix pre ∪ claimed w storage ∧
    (∀ key', key' ∈ pre → prefix +:+ key' ∉ claimed w storage) ∧
    claimed w' storage = effective_keys prefix pre ∪ claimed w storage ∧
    (∀ s, s ≠ storage → claimed w' s = claimed w s).
Proof.
  intros Hok Hnew.
  destruct (TypedStorage_new_spec storage prefix converters w Hok)
    as (w1 & Heq & _ & _ & _ & Hcl & Hother).
  rewrite Hnew in Heq.
  destruct (claim_keys prefix (Object_keys converters) (claimed w storage)).2
    as [storeKey|] eqn:E; [|by inversion Heq].
  inversion Heq; subst w1 e.
  apply claim_keys_stop in E as (pre & key & post & Hk & -> & H1 & H2 & H3).
  exists pre, key, post. rewrite Hcl, H1. done.
Qed.

(** C2.  After a successful construction, a later construction on the same
    store that shares an effective key with the first (whatever the two
    prefixes are) throws the key-collision error, in every world in which
    the keys the first one claimed are still claimed (no operation ever
    removes a key).  It touches neither the contents of any store nor the
    record of calls, so every method of the first instance completes the
    same way and leaves the same store contents as it would have without the
    failed attempt. *)
Theorem overlapping_construction_fails
    (accepts : Storage → gmap string string → string → string → bool)
    storage prefix1 converters1 prefix2 converters2 key1 key2 w0 w1 this1 w :
  world_ok w0 →
  TypedStorage_new storage (inl prefix1) (Some converters1) w0 = (w1, Normal this1) →
  world_ok w → claimed w1 storage ⊆ claimed w storage →
  key1 ∈ Object_keys converters1 →
  key2 ∈ Object_keys converters2 →
  prefix1 +:+ key1 = prefix2 +:+ key2 →
  ∃ w2 storeKey,
    TypedStorage_new storage (inl prefix2) (Some converters2) w =
      (w2, Throw (Error (taken_message storeKey storage))) ∧
    stored w2 = stored w ∧ calls w2 = calls w ∧
    (∀ key, agree (getItem this1 key) w2 w ∧
            agree (hasItem this1 key) w2 w ∧
            agree (removeItem this1 key) w2 w ∧
            ∀ value, agree (setItem accepts this1 key value) w2 w).
Proof.
  intros Hok Hnew1 Hokw Hkept Hk1 Hk2 Heq.
  destruct (TypedStorage_new_spec storage prefix1 converters1 w0 Hok)
    as (w1' & Heq1 & _ & _ & _ & Hcl1 & _).
  rewrite Hnew1 in Heq1.
  destruct (claim_keys prefix1 (Object_keys converters1) (claimed w0 storage)).2
    eqn:E1; [by inversion Heq1|].
  inversion Heq1; subst w1'. clear Heq1.
  assert (prefix2 +:+ key2 ∈ claimed w storage) as Hin.
  { apply Hkept. rewrite Hcl1, <- Heq. by apply claim_keys_claims. }
  destruct (TypedStorage_new_spec storage prefix2 converters2 w Hokw)
    as (w2 & Heq2 & _ & Hst & Hcalls & _).
  destruct (claim_keys_collide prefix2 (Object_keys converters2) key2
              (claimed w storage) Hk2 Hin) as [storeKey Hstop].
  rewrite Hstop in Heq2.
  exists w2, storeKey. repeat split; try done; by apply methods_agree.
Qed.

(** C8.  Construction without a prefix argument is construction with the
    empty prefix: the two calls complete the same way and leave the same
    world, so every program that goes on with the instance behaves the same;
    and the effective key of a field of such an instance is the field name. *)
Theorem omitted_prefix_is_empty_prefix storage converters w :
  TypedStorage_new storage (inr converters) None w =
    TypedStorage_new storage (inl "") (Some converters) w ∧
  (∀ (A : Type) (k : @TypedStorage Body → JS A),
     (let* this := TypedStorage_new storage (inr converters) None in k this) w =
     (let* this := TypedStorage_new storage (inl "") (Some converters) in k this) w) ∧
  (∀ key, effective_key (mkTypedStorage storage "" converters) key = key).
Proof. repeat split. Qed.

(** C10.  Claimed keys are tracked per store: when the effective keys of a
    schema are free in two distinct stores, constructing an instance with
    the same prefix and the same fields on each of them succeeds both times;
    the first construction leaves the claimed set of the other store as it
    was, and each store ends up with the keys claimed in its own set. *)
Theorem distinct_stores_do_not_collide storage1 storage2 prefix converters w :
  world_ok w →
  storage1 ≠ storage2 →
  NoDup (Object_keys converters) →
  (∀ key, key ∈ Object_keys converters → prefix +:+ key ∉ claimed w storage1) →
  (∀ key, key ∈ Object_keys converters → prefix +:+ key ∉ claimed w storage2) →
  ∃ w1 w2,
    TypedStorage_new storage1 (inl prefix) (Some converters) w =
      (w1, Normal (mkTypedStorage storage1 prefix converters)) ∧
    claimed w1 storage2 = claimed w storage2 ∧
    TypedStorage_new storage2 (inl prefix) (Some converters) w1 =
      (w2, Normal (mkTypedStorage storage2 prefix converters)) ∧
    claimed w2 storage1 =
      effective_keys prefix (Object_keys converters) ∪ claimed w storage1 ∧
    claimed w2 storage2 =
      effective_keys prefix (Object_keys converters) ∪ claimed w storage2.
Proof.
  intros Hok Hne Hnd Hfree1 Hfree2.
  destruct (TypedStorage_new_spec storage1 prefix converters w Hok)
    as (w1 & Heq1 & Hok1 & _ & _ & Hcl1 & Hother1).
  rewrite (claim_keys_ok _ _ _ Hnd Hfree1) in Heq1, Hcl1. cbn in Heq1, Hcl1.
  destruct (TypedStorage_new_spec storage2 prefix converters w1 Hok1)
    as (w2 & Heq2 & _ & _ & _ & Hcl2 & Hother2).
  rewrite (Hother1 storage2) in Heq2, Hcl2 by done.
  rewrite (claim_keys_ok _ _ _ Hnd Hfree2) in Heq2, Hcl2. cbn in Heq2, Hcl2.
  exists w1, w2. repeat split; try done.
  - by apply Hother1.
  - by rewrite Hother2.
Qed.

End ConstructionClaims.

(** ** Concrete runs *)

(** C1, counterexample.  With ["b"] claimed on [localStorage], constructing
    [{a: stringConverter, b: stringConverter}] on it fails on ["b"], and
    ["a"], which was free, is claimed afterwards: the claimed set of the
    store is not what it was before the attempt. *)
Lemma failed_construction_claims_a :
  world_ok world_b ∧
  construct_ab.2 = Throw (Error (taken_message "b" localStorage)) ∧
  claimed world_b localStorage = {["b"]} ∧
  claimed construct_ab.1 localStorage = {["a"; "b"]} ∧
  claimed construct_ab.1 localStorage ≠ claimed world_b localStorage.
Proof.
  split.
  { destruct (TypedStorage_new_spec localStorage ""
      (uniform_schema stringConverter ["b"]) initial_world initial_world_ok)
      as (w' & Heq & Hok & _).
    unfold world_b.
    change (TypedStorage_new localStorage (inr ?c) None) with
      (TypedStorage_new localStorage (inl "") (Some c)).
    by rewrite Heq. }
  split; [vm_compute; reflexivity|].
  assert (claimed world_b localStorage = {["b"]}) as Hb
    by (vm_compute; reflexivity).
  assert (claimed construct_ab.1 localStorage = {["a"; "b"]}) as Hab
    by (vm_compute; reflexivity).
  rewrite Hab, Hb. do 2 (split; [done|]).
  intros Heq.
  assert ("a" ∈ ({["b"]} : gset string)) as Hin by (rewrite <- Heq; set_solver).
  set_solver.
Qed.

(** ** Decimal digits: properties *)

Lemma digit_value_char d : 0 <= d < 10 → digit_value (digit_char d) = Some d.
Proof.
  intros Hd.
  assert (d = 0 ∨ d = 1 ∨ d = 2 ∨ d = 3 ∨ d = 4 ∨ d = 5 ∨ d = 6 ∨ d = 7
          ∨ d = 8 ∨ d = 9) as Hcases by lia.
  repeat (destruct Hcases as [->|Hcases]; [reflexivity|]). by subst.
Qed.

Lemma is_digit_char d : 0 <= d < 10 → is_digit (digit_char d) = true.
Proof. intros Hd. unfold is_digit. by rewrite digit_value_char. Qed.

Lemma digit_value_range c d : digit_value c = Some d → 0 <= d < 10.
Proof.
  unfold digit_value. case_match eqn:E; [|done]. intros [= <-].
  apply andb_true_iff in E. lia.
Qed.

Lemma digits_value_snoc l c :
  digits_value (l ++ [c]) = digits_value l * 10 + default 0 (digit_value c).
Proof. unfold digits_value. by rewrite fold_left_app. Qed.

Lemma digits_value_app l2 : ∀ l1,
  digits_value (l1 ++ l2) =
    digits_value l1 * 10 ^ Z.of_nat (length l2) + digits_value l2.
Proof.
  induction l2 as [|c l2 IH] using rev_ind; intros l1.
  - rewrite app_nil_r. cbn. lia.
  - rewrite app_assoc, !digits_value_snoc, IH, length_app. cbn.
    rewrite Nat2Z.inj_add, Z.pow_add_r by lia. cbn. lia.
Qed.

Lemma digits_value_nonneg l : 0 <= digits_value l.
Proof.
  induction l as [|c l IH] using rev_ind; [done|].
  rewrite digits_value_snoc.
  destruct (digit_value c) as [d|] eqn:E; cbn; [|lia].
  apply digit_value_range in E. lia.
Qed.

Lemma length_render_digits k : ∀ n, length (render_digits k n) = k.
Proof.
  induction k as [|k IH]; intros n; cbn; [done|].
  rewrite length_app, IH. cbn. lia.
Qed.

Lemma render_digits_all_digits k : ∀ n, Forall (λ c, is_digit c = true) (render_digits k n).
Proof.
  induction k as [|k IH]; intros n; cbn; [constructor|].
  apply Forall_app. split; [apply IH|].
  constructor; [|constructor]. apply is_digit_char. apply Z.mod_pos_bound. lia.
Qed.

Lemma digits_value_render_digits k : ∀ n,
  0 <= n → digits_value (render_digits k n) = n mod 10 ^ Z.of_nat k.
Proof.
  induction k as [|k IH]; intros n Hn.
  - cbn. by rewrite Z.mod_1_r.
  - cbn [render_digits]. rewrite digits_value_snoc, IH by (apply Z.div_pos; lia).
    rewrite digit_value_char by (apply Z.mod_pos_bound; lia). cbn [default].
    rewrite Nat2Z.inj_succ, Z.pow_succ_r by lia.
    rewrite Z.rem_mul_r by lia. unfold id. lia.
Qed.

Lemma render_digits_add b : ∀ a n,
  render_digits (a + b) n =
    render_digits a (n / 10 ^ Z.of_nat b) ++ render_digits b n.
Proof.
  induction b as [|b IH]; intros a n.
  - rewrite Nat.add_0_r. cbn. by rewrite Z.div_1_r, app_nil_r.
  - replace (a + S b)%nat with (S (a + b)) by lia. cbn [render_digits].
    rewrite IH, app_assoc. do 3 f_equal.
    rewrite Nat2Z.inj_succ, Z.pow_succ_r by lia.
    rewrite Z.div_div by lia. done.
Qed.

Lemma count_digits_spec fuel : ∀ n,
  0 < n → n < 2 ^ Z.of_nat (S fuel) →
  10 ^ (Z.of_nat (count_digits fuel n) - 1) <= n < 10 ^ Z.of_nat (count_digits fuel n).
Proof.
  induction fuel as [|fuel IH]; intros n Hpos Hlt.
  - cbn in *. lia.
  - cbn [count_digits]. destruct (n <? 10) eqn:E.
    + apply Z.ltb_lt in E. cbn. lia.
    + apply Z.ltb_ge in E.
      assert (0 < n / 10) as Hq by (apply Z.div_str_pos; lia).
      assert (n / 10 < 2 ^ Z.of_nat (S fuel)) as Hq'.
      { apply Z.div_lt_upper_bound; [lia|].
        rewrite (Nat2Z.inj_succ (S fuel)), Z.pow_succ_r in Hlt by lia. lia. }
      destruct (IH _ Hq Hq') as [H1 H2].
      set (k := count_digits fuel (n / 10)) in *.
      rewrite Nat2Z.inj_succ. replace (Z.succ (Z.of_nat k) - 1) with (Z.succ (Z.of_nat k - 1)) by lia.
      assert (0 <= Z.of_nat k - 1).
      { destruct k; [|lia]. cbn in H2. lia. }
      rewrite !Z.pow_succ_r by lia.
      pose proof (Z.div_mod n 10 ltac:(lia)).
      pose proof (Z.mod_pos_bound n 10 ltac:(lia)). lia.
Qed.

Lemma num_digits_spec n :
  0 < n →
  10 ^ (Z.of_nat (num_digits n) - 1) <= n < 10 ^ Z.of_nat (num_digits n).
Proof.
  intros Hn. apply count_digits_spec; [done|].
  rewrite Nat2Z.inj_succ, Z2Nat.id by apply Z.log2_nonneg.
  apply Z.log2_spec. done.
Qed.

Lemma num_digits_pos n : (1 <= num_digits n)%nat.
Proof.
  unfold num_digits. destruct (Z.to_nat (Z.log2 n)); cbn; [lia|].
  destruct (n <? 10); lia.
Qed.

Lemma digits_value_render n : 0 <= n → digits_value (render n) = n.
Proof.
  intros Hn. unfold render. rewrite digits_value_render_digits by done.
  destruct (decide (n = 0)) as [->|]; [done|].
  apply Z.mod_small. pose proof (num_digits_spec n). lia.
Qed.

Lemma span_digits_app ds rest :
  Forall (λ c, is_digit c = true) ds →
  match rest with c :: _ => is_digit c = false | [] => True end →
  span_digits (ds ++ rest) = (ds, rest).
Proof.
  intros Hds Hrest. induction Hds as [|c ds Hc Hds IH]; cbn.
  - destruct rest as [|c rest]; [done|]. cbn. by rewrite Hrest.
  - by rewrite Hc, IH.
Qed.

Lemma span_digits_all ds :
  Forall (λ c, is_digit c = true) ds → span_digits ds = (ds, []).
Proof.
  intros Hds. rewrite <- (app_nil_r ds) at 1. by apply span_digits_app.
Qed.

Lemma zeros_all_digits n : Forall (λ c, is_digit c = true) (zeros n).
Proof. unfold zeros. apply Forall_forall. by intros c ->%elem_of_replicate_inv. Qed.

Lemma length_zeros n : length (zeros n) = Z.to_nat n.
Proof. apply length_replicate. Qed.

Lemma digits_value_zeros n : digits_value (zeros n) = 0.
Proof.
  unfold zeros. induction (Z.to_nat n) as [|k IH]; [done|].
  replace (S k) with (k + 1)%nat by lia. rewrite replicate_add. cbn [replicate].
  rewrite digits_value_snoc, IH. done.
Qed.

(** ** Rounding *)

Ltac simpl_max :=
  repeat match goal with
  | |- context [Z.max 0 ?x] =>
      first [rewrite (Z.max_l 0 x) by lia | rewrite (Z.max_r 0 x) by lia]
  | H : context [Z.max 0 ?x] |- _ =>
      first [rewrite (Z.max_l 0 x) in H by lia | rewrite (Z.max_r 0 x) in H by lia]
  end;
  rewrite ?Z.pow_0_r in *.

Lemma pow2_pos k : 0 < 2 ^ k ∨ k < 0.
Proof. destruct (Z.le_gt_cases 0 k); [left; by apply Z.pow_pos_nonneg|by right]. Qed.

Lemma binade_unique n d b :
  0 < n → 0 < d →
  d * 2 ^ Z.max 0 b <= n * 2 ^ Z.max 0 (- b) < 2 * d * 2 ^ Z.max 0 b →
  binade n d = b.
Proof.
  intros Hn Hd Hb. unfold binade.
  set (K := Z.log2 d + 1).
  assert (0 < K) as HK by (pose proof (Z.log2_nonneg d); lia).
  assert (d < 2 ^ K) as HdK by (apply Z.log2_spec; lia).
  assert (0 < 2 ^ K) as HK2 by (apply Z.pow_pos_nonneg; lia).
  enough (Z.log2 (n * 2 ^ K / d) = b + K) by lia.
  destruct (Z.le_gt_cases 0 b) as [Hb0|Hb0].
  - simpl_max.
    assert (0 < 2 ^ b) by (apply Z.pow_pos_nonneg; lia).
    apply Z.log2_unique; [lia|]. rewrite Z.pow_succ_r by lia.
    rewrite Z.pow_add_r by lia. split.
    + apply Z.div_le_lower_bound; nia.
    + apply Z.div_lt_upper_bound; nia.
  - simpl_max.
    assert (0 < 2 ^ (- b)) as Hp by (apply Z.pow_pos_nonneg; lia).
    assert (- b <= K) as HbK.
    { assert (2 ^ (- b) < 2 ^ (K + 1)) as Hlt.
      { rewrite Z.add_1_r, Z.pow_succ_r by lia. nia. }
      apply Z.pow_lt_mono_r_iff in Hlt; lia. }
    assert (2 ^ K = 2 ^ (- b) * 2 ^ (b + K)) as HKs.
    { rewrite <- Z.pow_add_r by lia. f_equal. lia. }
    assert (0 < 2 ^ (b + K)) by (apply Z.pow_pos_nonneg; lia).
    apply Z.log2_unique; [lia|]. rewrite Z.pow_succ_r by lia.
    rewrite HKs. split.
    + apply Z.div_le_lower_bound; nia.
    + apply Z.div_lt_upper_bound; nia.
Qed.

Lemma binade_exact n d m e :
  0 < n → 0 < d → 0 < m → ratio_is n d m e →
  binade n d = e + Z.log2 m.
Proof.
  intros Hn Hd Hm Hr. unfold ratio_is in Hr.
  apply binade_unique; [done..|].
  set (L := Z.log2 m).
  assert (0 <= L) as HL by apply Z.log2_nonneg.
  assert (2 ^ L <= m < 2 * 2 ^ L) as HmL.
  { rewrite <- Z.pow_succ_r by done. apply Z.log2_spec. done. }
  assert (0 < 2 ^ L) by (apply Z.pow_pos_nonneg; lia).
  destruct (Z.le_gt_cases 0 e) as [He|He].
  - simpl_max.
    simpl_max.
    rewrite Z.pow_add_r by lia.
    assert (0 < 2 ^ e) by (apply Z.pow_pos_nonneg; lia). nia.
  - simpl_max.
    assert (0 < 2 ^ (- e)) by (apply Z.pow_pos_nonneg; lia).
    destruct (Z.le_gt_cases 0 (e + L)) as [HeL|HeL].
    + simpl_max.
      assert (2 ^ L = 2 ^ (e + L) * 2 ^ (- e)) as Hs.
      { rewrite <- Z.pow_add_r by lia. f_equal. lia. }
      assert (0 < 2 ^ (e + L)) by (apply Z.pow_pos_nonneg; lia).
      nia.
    + simpl_max.
      assert (2 ^ (- e) = 2 ^ (- (e + L)) * 2 ^ L) as Hs.
      { rewrite <- Z.pow_add_r by lia. f_equal. lia. }
      assert (0 < 2 ^ (- (e + L))) by (apply Z.pow_pos_nonneg; lia).
      nia.
Qed.

Lemma round_half_even_exact m D : 0 < D → round_half_even (m * D) D = m.
Proof.
  intros HD. unfold round_half_even.
  rewrite Z.div_mul, Z.mod_mul by lia. cbn.
  by destruct D.
Qed.

Lemma round_ratio_exact n d m e :
  positive_double m e → 0 < n → 0 < d → ratio_is n d m e →
  round_ratio n d = Finite false m e.
Proof.
  intros (Hm & He & Hnorm) Hn Hd Hr. unfold round_ratio.
  rewrite (binade_exact n d m e) by (done || lia).
  assert (Z.max (e + Z.log2 m - 52) (-1074) = e) as ->.
  { destruct Hnorm as [Hnorm| ->].
    - assert (Z.log2 m = 52) as ->; [|lia].
      apply Z.log2_unique; [lia|]. change (2 ^ Z.succ 52) with (2 ^ 53). lia.
    - assert (Z.log2 m < 53); [|lia].
      apply Z.log2_lt_pow2; lia. }
  unfold ratio_is in Hr. rewrite Hr.
  rewrite <- Z.mul_assoc, round_half_even_exact.
  - assert ((m =? 2 ^ 53) = false) as -> by lia.
    assert ((971 <? e) = false) as -> by lia. done.
  - assert (0 < 2 ^ Z.max 0 e) by (apply Z.pow_pos_nonneg; lia). nia.
Qed.

(** The exact decimal expansion rounds to the double it expands. *)
Lemma round_decimal_exact m e :
  positive_double m e →
  round_decimal (exact_decimal m e).1 (exact_decimal m e).2 = Finite false m e.
Proof.
  intros Hd. pose proof Hd as (Hm & He & _).
  unfold exact_decimal, round_decimal.
  destruct (Z.leb_spec 0 e) as [He0|He0]; cbn [fst snd].
  - assert (0 < 2 ^ e) by (apply Z.pow_pos_nonneg; lia).
    assert ((m * 2 ^ e =? 0) = false) as -> by nia.
    cbn. rewrite Z.mul_1_r.
    apply round_ratio_exact; [done|nia|lia|].
    unfold ratio_is. simpl_max. cbn. lia.
  - assert (0 < 5 ^ (- e)) by (apply Z.pow_pos_nonneg; lia).
    assert (0 < 2 ^ (- e)) by (apply Z.pow_pos_nonneg; lia).
    assert ((m * 5 ^ (- e) =? 0) = false) as -> by nia.
    assert ((0 <=? e) = false) as -> by lia.
    apply round_ratio_exact; [done|nia|apply Z.pow_pos_nonneg; lia|].
    unfold ratio_is. simpl_max.
    change 10 with (5 * 2). rewrite Z.pow_mul_l. cbn. lia.
Qed.

(** An integer rounds to the double that is equal to it. *)
Lemma round_decimal_integer m e X :
  positive_double m e → 0 < X → X * 2 ^ Z.max 0 (- e) = m * 2 ^ Z.max 0 e →
  round_decimal X 0 = Finite false m e.
Proof.
  intros Hd HX Hval. unfold round_decimal.
  assert ((X =? 0) = false) as -> by lia. cbn. rewrite Z.mul_1_r.
  apply round_ratio_exact; [done|lia|lia|].
  unfold ratio_is. lia.
Qed.

(** ** The shortest decimal *)

Section ShortestFacts.
Variables (x : Number) (N q0 D : Z).

Lemma try_length_sound k c :
  try_length x N q0 D k = Some c →
  passes x c = true ∧
  (c = (candidates N q0 D k).1 ∨ c = (candidates N q0 D k).2).
Proof.
  unfold try_length. destruct (candidates N q0 D k) as [lo hi]. cbn.
  destruct (passes x lo) eqn:Hlo, (passes x hi) eqn:Hhi; [| | |done].
  - destruct (2 * _ ?= _); [destruct (Z.even _)|..]; intros [= <-]; eauto.
  - intros [= <-]; eauto.
  - intros [= <-]; eauto.
Qed.

Lemma try_length_complete k :
  passes x (candidates N q0 D k).1 = true → is_Some (try_length x N q0 D k).
Proof.
  unfold try_length. destruct (candidates N q0 D k) as [lo hi]. cbn.
  intros ->. destruct (passes x hi); [|by eexists].
  destruct (2 * _ ?= _); [destruct (Z.even _)|..]; by eexists.
Qed.

Lemma search_sound fuel : ∀ k c,
  search x N q0 D fuel k = Some c →
  ∃ k', k <= k' < k + Z.of_nat fuel ∧ try_length x N q0 D k' = Some c ∧
        ∀ k'', k <= k'' < k' → try_length x N q0 D k'' = None.
Proof.
  induction fuel as [|fuel IH]; intros k c; cbn [search]; [done|].
  destruct (try_length x N q0 D k) as [c'|] eqn:E.
  - intros [= <-]. exists k. split; [lia|]. split; [done|]. lia.
  - intros (k' & Hk' & Htry & Hbefore)%IH. exists k'.
    split; [lia|]. split; [done|].
    intros k'' Hk''. destruct (decide (k'' = k)) as [->|]; [done|].
    apply Hbefore. lia.
Qed.

Lemma search_complete fuel : ∀ k k0,
  k <= k0 < k + Z.of_nat fuel → is_Some (try_length x N q0 D k0) →
  is_Some (search x N q0 D fuel k).
Proof.
  induction fuel as [|fuel IH]; intros k k0 Hk Hsome; cbn [search]; [lia|].
  destruct (try_length x N q0 D k) as [c'|] eqn:E; [by eexists|].
  apply (IH _ k0); [|done].
  destruct (decide (k0 = k)) as [->|]; [|lia].
  rewrite E in Hsome. by destruct Hsome.
Qed.

End ShortestFacts.

(** What [shortest_decimal] returns is a candidate of some length [k]
    between 1 and the length of the exact expansion; it rounds to the
    double; no shorter length has a candidate that does. *)
Lemma shortest_decimal_spec m e :
  positive_double m e →
  let x := Finite false m e in
  let N := (exact_decimal m e).1 in
  let q0 := (exact_decimal m e).2 in
  let D := Z.of_nat (num_digits N) in
  ∃ k, 1 <= k <= D ∧
    try_length x N q0 D k = Some (shortest_decimal m e) ∧
    (∀ k', 1 <= k' < k → try_length x N q0 D k' = None).
Proof.
  intros Hd x N q0 D. unfold shortest_decimal.
  destruct (exact_decimal m e) as [N' q0'] eqn:Hex. cbn [fst snd] in *.
  subst N q0. fold D. fold x.
  assert (is_Some (search x N' q0' D (num_digits N') 1)) as [c Hc].
  { apply (search_complete _ _ _ _ _ _ D).
    - pose proof (num_digits_pos N'). lia.
    - apply try_length_complete. unfold candidates, passes. cbn.
      rewrite Z.sub_diag, Z.pow_0_r, Z.div_1_r. cbn.
      apply bool_decide_eq_true.
      pose proof (round_decimal_exact m e Hd) as Hr. rewrite Hex in Hr.
      exact Hr. }
  rewrite Hc. cbn.
  apply search_sound in Hc as (k & Hk & Htry & Hbefore).
  exists k. split; [lia|]. split; [done|]. intros k' Hk'. apply Hbefore. lia.
Qed.

Lemma exact_decimal_pos m e : 0 < m → 0 < (exact_decimal m e).1.
Proof.
  intros Hm. unfold exact_decimal. destruct (0 <=? e) eqn:E; cbn.
  - apply Z.mul_pos_pos; [done|]. apply Z.pow_pos_nonneg; lia.
  - apply Z.mul_pos_pos; [done|]. apply Z.pow_pos_nonneg; lia.
Qed.

Lemma shortest_decimal_sound m e :
  positive_double m e →
  0 < (shortest_decimal m e).1 ∧
  round_decimal (shortest_decimal m e).1 (shortest_decimal m e).2
    = Finite false m e.
Proof.
  intros Hd. destruct (shortest_decimal_spec m e Hd) as (k & Hk & Htry & _).
  apply try_length_sound in Htry as [Hpass Hcand].
  apply bool_decide_eq_true in Hpass.
  split; [|done].
  assert (0 <= (shortest_decimal m e).1) as Hnn.
  { pose proof (exact_decimal_pos m e ltac:(destruct Hd; lia)) as HN.
    assert (0 <= (exact_decimal m e).1 /
                 10 ^ (Z.of_nat (num_digits (exact_decimal m e).1) - k)).
    { apply Z.div_pos; [lia|]. apply Z.pow_pos_nonneg; lia. }
    destruct Hcand as [-> | ->]; unfold candidates; cbn; [done|].
    destruct (_ =? _); cbn; lia. }
  destruct (decide ((shortest_decimal m e).1 = 0)) as [H0|]; [|lia].
  unfold round_decimal in Hpass. rewrite H0 in Hpass. cbn in Hpass.
  destruct Hd as [? _]. inversion Hpass. lia.
Qed.

(** ** Leading white space *)

Lemma strip_prefix_app p l : strip_prefix p (p ++ l) = Some l.
Proof. induction p as [|c p IH]; cbn; [done|]. by rewrite Ascii.eqb_refl. Qed.

Lemma strip_prefix_Some p : ∀ l l', strip_prefix p l = Some l' → l = p ++ l'.
Proof.
  induction p as [|c p IH]; intros [|c' l] l'; cbn; try done.
  - by intros [= ->].
  - by intros [= ->].
  - destruct (Ascii.eqb_spec c c') as [->|]; [|done].
    intros ->%IH. done.
Qed.

Lemma skip_one_of_Some cps l l' :
  skip_one_of cps l = Some l' → ∃ cp, cp ∈ cps ∧ l = utf8 cp ++ l'.
Proof.
  induction cps as [|cp cps IH]; cbn; [done|].
  destruct (strip_prefix (utf8 cp) l) as [l0|] eqn:E.
  - intros [= ->]. exists cp. split; [left|by apply strip_prefix_Some].
  - intros (cp' & ? & ?)%IH. exists cp'. split; [by right|done].
Qed.

Lemma skip_white_space_Some l l' :
  skip_white_space l = Some l' →
  ∃ cp, cp ∈ WhiteSpace ++ LineTerminator ∧ l = utf8 cp ++ l'.
Proof. apply skip_one_of_Some. Qed.

(** No encoding of a white space code point is a prefix of another one:
    the code point a string starts with is the one that is removed. *)
Lemma skip_white_space_app cp l :
  cp ∈ WhiteSpace ++ LineTerminator → skip_white_space (utf8 cp ++ l) = Some l.
Proof.
  intros H. cbn in H.
  repeat (apply elem_of_cons in H as [->|H]; [reflexivity|]).
  by apply elem_of_nil in H.
Qed.

Lemma skip_white_space_shorter l l' :
  skip_white_space l = Some l' → (length l' < length l)%nat.
Proof.
  intros (cp & _ & ->)%skip_white_space_Some. rewrite length_app.
  enough (0 < length (utf8 cp))%nat by lia.
  unfold utf8. repeat case_match; cbn; lia.
Qed.

Lemma trim_start_rounds_enough n : ∀ m l,
  (length l <= n)%nat → (length l <= m)%nat →
  trim_start_rounds n l = trim_start_rounds m l.
Proof.
  induction n as [|n IH]; intros [|m] l Hn Hm; cbn [trim_start_rounds]; try done.
  - destruct l; [done|cbn in Hn; lia].
  - destruct l; [done|cbn in Hm; lia].
  - destruct (skip_white_space l) as [l'|] eqn:E; [|done].
    apply skip_white_space_shorter in E. apply IH; lia.
Qed.

Lemma trim_start_None l : skip_white_space l = None → trim_start l = l.
Proof.
  intros H. unfold trim_start.
  destruct (length l); cbn [trim_start_rounds]; [done|]. by rewrite H.
Qed.

Lemma trim_start_Some l l' :
  skip_white_space l = Some l' → trim_start l = trim_start l'.
Proof.
  intros H. unfold trim_start. pose proof (skip_white_space_shorter l l' H).
  destruct (length l) as [|n] eqn:E; [lia|]. cbn [trim_start_rounds]. rewrite H.
  apply trim_start_rounds_enough; lia.
Qed.

(** Leading white space is removed, whatever follows it. *)
Lemma trim_start_app ws rest :
  white_space ws → trim_start (ws ++ rest) = trim_start rest.
Proof.
  induction 1 as [|cp ws Hcp _ IH]; [done|].
  rewrite <- app_assoc, <- IH. apply trim_start_Some.
  by apply skip_white_space_app.
Qed.

(** What [trim_start] removes is white space, and what it leaves starts
    with none. *)
Lemma trim_start_spec l :
  ∃ ws, white_space ws ∧ l = ws ++ trim_start l ∧
        skip_white_space (trim_start l) = None.
Proof.
  remember (length l) as n eqn:Hn. revert l Hn.
  induction (lt_wf n) as [n _ IH]. intros l ->.
  destruct (skip_white_space l) as [l'|] eqn:E.
  - pose proof (skip_white_space_shorter l l' E) as Hlt.
    destruct (IH (length l') Hlt l' eq_refl) as (ws & Hws & Heq & Hnone).
    apply skip_white_space_Some in E as Hcp. destruct Hcp as (cp & Hcp & ->).
    rewrite (trim_start_Some _ l') by done.
    exists (utf8 cp ++ ws). split; [by constructor|].
    split; [|done]. rewrite <- app_assoc. by f_equal.
  - rewrite trim_start_None by done. exists []. split; [constructor|done].
Qed.

(** ** Reading back what [format_decimal] writes *)

Lemma is_digit_cases c :
  is_digit c = true →
  (∀ rest, skip_white_space (c :: rest) = None) ∧ Ascii.eqb c "-" = false ∧
  Ascii.eqb c "+" = false ∧ Ascii.eqb c "." = false ∧ c ≠ "I"%char.
Proof.
  destruct c as [[] [] [] [] [] [] [] []]; intros H;
    try discriminate H; repeat split; try done.
Qed.

Lemma skip_white_space_sign rest :
  skip_white_space ("-"%char :: rest) = None ∧
  skip_white_space ("+"%char :: rest) = None.
Proof. done. Qed.

Lemma render_all_digits n : all_digits (render n).
Proof. apply render_digits_all_digits. Qed.

Lemma length_render n : length (render n) = num_digits n.
Proof. apply length_render_digits. Qed.

Lemma render_nonempty n : render n ≠ [].
Proof.
  intros H. apply (f_equal length) in H. rewrite length_render in H.
  pose proof (num_digits_pos n). cbn in H. lia.
Qed.

Lemma read_decimal_integer int rest :
  all_digits int → int ≠ [] → no_digit_ahead rest →
  match rest with c :: _ => Ascii.eqb c "." = false | [] => True end →
  read_decimal (int ++ rest) = Some (digits_value int, read_exponent rest).
Proof.
  intros Hint Hne Hrest Hdot. unfold read_decimal.
  rewrite span_digits_app by done.
  destruct rest as [|c rest].
  - destruct int as [|a int]; [done|]. cbn [length].
    by rewrite app_nil_r, Z.sub_0_r.
  - rewrite Hdot. destruct int as [|a int]; [done|]. cbn [length].
    by rewrite app_nil_r, Z.sub_0_r.
Qed.

Lemma read_decimal_fraction int frac rest :
  all_digits int → all_digits frac → int ≠ [] ∨ frac ≠ [] →
  no_digit_ahead rest →
  read_decimal (int ++ "."%char :: frac ++ rest) =
    Some (digits_value (int ++ frac),
          read_exponent rest - Z.of_nat (length frac)).
Proof.
  intros Hint Hfrac Hne Hrest. unfold read_decimal.
  rewrite span_digits_app by done. cbn.
  rewrite span_digits_app by done.
  destruct int, frac; try done. by destruct Hne.
Qed.

Lemma read_exponent_render e :
  read_exponent ("e"%char :: (if e <? 0 then "-"%char else "+"%char)
                   :: render (Z.abs e)) = e.
Proof.
  cbn [read_exponent]. cbn [Ascii.eqb Bool.eqb orb].
  change (Ascii.eqb "e" "e" || Ascii.eqb "e" "E") with true. cbn iota.
  assert (span_digits (render (Z.abs e)) = (render (Z.abs e), [])) as Hspan.
  { apply span_digits_all, render_all_digits. }
  pose proof (render_nonempty (Z.abs e)) as Hne.
  pose proof (digits_value_render (Z.abs e) ltac:(lia)) as Hval.
  destruct (Z.ltb_spec e 0); cbn; rewrite Hspan;
    destruct (render (Z.abs e)); try done; rewrite Hval; lia.
Qed.

Lemma all_digits_take n l : all_digits l → all_digits (take n l).
Proof. apply Forall_take. Qed.

Lemma all_digits_drop n l : all_digits l → all_digits (drop n l).
Proof. apply Forall_drop. Qed.

Lemma round_decimal_shift s q :
  0 <= q → round_decimal (s * 10 ^ q) 0 = round_decimal s q.
Proof.
  intros Hq. unfold round_decimal.
  assert (0 < 10 ^ q) by (apply Z.pow_pos_nonneg; lia).
  destruct (Z.eqb_spec s 0) as [->|Hs]; [done|].
  assert ((s * 10 ^ q =? 0) = false) as -> by nia.
  assert ((0 <=? q) = true) as -> by lia. cbn. by rewrite Z.mul_1_r.
Qed.

(** Every string [format_decimal] writes is read back as a decimal with the
    same Number value. *)
Lemma read_decimal_format s q :
  0 < s →
  ∃ c' q', read_decimal (format_decimal s q) = Some (c', q') ∧
           round_decimal c' q' = round_decimal s q.
Proof.
  intros Hs. unfold format_decimal.
  set (k := Z.of_nat (num_digits s)). set (n := q + k).
  pose proof (num_digits_pos s) as Hk.
  pose proof (render_all_digits s) as Hds.
  pose proof (length_render s) as Hlen.
  pose proof (digits_value_render s ltac:(lia)) as Hval.
  pose proof (render_nonempty s) as Hne.
  destruct ((k <=? n) && (n <=? 21)) eqn:Ha.
  { (* digits and zeros *)
    replace (n - k) with q by lia.
    exists (s * 10 ^ q), 0. split; [|apply round_decimal_shift; lia].
    rewrite <- (app_nil_r (_ ++ _)).
    rewrite read_decimal_integer; try done.
    - cbn. rewrite digits_value_app, Hval, digits_value_zeros, length_zeros.
      rewrite Z2Nat.id by lia. do 2 f_equal. lia.
    - apply Forall_app. split; [done|apply zeros_all_digits].
    - intros [? _]%app_eq_nil. done. }
  destruct ((0 <? n) && (n <=? 21)) eqn:Hb.
  { (* a decimal point inside the digits *)
    assert (0 < n < k) as Hnk by lia.
    exists s, q. split; [|done].
    rewrite <- (app_nil_r (drop _ _)).
    rewrite read_decimal_fraction; try done.
    - rewrite take_drop, Hval. cbn. rewrite length_drop, Hlen.
      do 2 f_equal. lia.
    - by apply all_digits_take.
    - by apply all_digits_drop.
    - left. intros H. apply (f_equal length) in H.
      rewrite length_take, Hlen in H. cbn [length] in H. lia. }
  destruct ((-6 <? n) && (n <=? 0)) eqn:Hc.
  { (* zeros after the decimal point *)
    assert (n <= 0) as Hn by lia.
    exists s, q. split; [|done].
    change ("0"%char :: "."%char :: zeros (- n) ++ render s) with
      (["0"%char] ++ "."%char :: zeros (- n) ++ render s).
    rewrite <- (app_nil_r (zeros _ ++ _)).
    rewrite read_decimal_fraction; try done.
    - cbn [read_exponent]. rewrite length_app, length_zeros, Hlen.
      change (["0"%char] ++ ?l) with (zeros 1 ++ l).
      rewrite !digits_value_app, !digits_value_zeros, Hval.
      do 2 f_equal; lia.
    - by repeat constructor.
    - apply Forall_app. split; [apply zeros_all_digits|done].
    - by left. }
  (* exponent notation *)
  exists s, q. split; [|done].
  destruct (Z.eqb_spec k 1) as [Hk1|Hk1].
  - rewrite read_decimal_integer; try done.
    rewrite read_exponent_render, Hval. do 2 f_equal. lia.
  - rewrite <- app_assoc. cbn [app].
    rewrite read_decimal_fraction; try done.
    + rewrite take_drop, Hval, read_exponent_render, length_drop, Hlen.
      do 2 f_equal. lia.
    + by apply all_digits_take.
    + by apply all_digits_drop.
    + left. intros H. apply (f_equal length) in H.
      rewrite length_take, Hlen in H. cbn [length] in H. lia.
Qed.

Lemma format_decimal_head s q :
  0 < s → ∃ c rest, format_decimal s q = c :: rest ∧ is_digit c = true.
Proof.
  intros Hs. unfold format_decimal.
  pose proof (render_all_digits s) as Hds.
  pose proof (render_nonempty s) as Hne.
  pose proof (length_render s) as Hlen.
  pose proof (num_digits_pos s) as Hk.
  destruct (render s) as [|c ds] eqn:E; [done|].
  apply Forall_cons in Hds as [Hc _].
  repeat case_match; cbn; eauto.
  - destruct (Z.to_nat _) eqn:En; [|cbn; eauto].
    lia.
Qed.

(** ** The numeric converters *)

Lemma is_double_positive s m e :
  is_double (Finite s m e) = true → m ≠ 0 → positive_double m e.
Proof. unfold is_double, positive_double. intros H Hm. lia. Qed.

Lemma is_double_zero s e : is_double (Finite s 0 e) = true → e = -1074.
Proof. unfold is_double. intros H. change (2 ^ 52 <=? 0) with false in H. lia. Qed.

(** Reading a string that starts with a digit: no white space to skip, no
    sign, not [Infinity]. *)
Lemma read_number_head c rest :
  is_digit c = true →
  trim_start (c :: rest) = c :: rest ∧
  trim_start ("-"%char :: c :: rest) = "-"%char :: c :: rest ∧
  read_sign (c :: rest) = (false, c :: rest) ∧
  starts_with (list_ascii_of_string "Infinity") (c :: rest) = false.
Proof.
  intros (Hw & Hm & Hp & _ & HI)%is_digit_cases.
  rewrite !trim_start_None by (apply Hw || apply skip_white_space_sign).
  cbn. rewrite Hm, Hp. repeat split; try done.
  apply bool_decide_eq_false. cbn. intros [= ->]. done.
Qed.

Lemma parseFloat_format (negative : bool) s q :
  0 < s →
  parseFloat (string_of_list_ascii
                ((if negative then ["-"%char] else []) ++ format_decimal s q))
  = with_sign negative (round_decimal s q).
Proof.
  intros Hs. unfold parseFloat. rewrite list_ascii_of_string_of_list_ascii.
  destruct (format_decimal_head s q Hs) as (c & rest & Hfmt & Hc).
  destruct (read_decimal_format s q Hs) as (c' & q' & Hread & Hround).
  rewrite Hfmt in *.
  destruct (read_number_head c rest Hc) as (Ht & Htm & Hsign & Hinf).
  destruct negative; cbn [app].
  - rewrite Htm. cbn [read_sign]. change (Ascii.eqb "-" "-") with true. cbn iota.
    by rewrite Hinf, Hread, Hround.
  - by rewrite Ht, Hsign, Hinf, Hread, Hround.
Qed.

Lemma parseFloat_toString s m e :
  positive_double m e →
  parseFloat (Number_toString (Finite s m e)) = Finite s m e.
Proof.
  intros Hd. unfold Number_toString, Number_toString_chars.
  assert ((m =? 0) = false) as -> by (destruct Hd; lia).
  destruct (shortest_decimal_sound m e Hd) as [Hpos Hround].
  destruct (shortest_decimal m e) as [d q]. cbn [fst snd] in *.
  rewrite parseFloat_format, Hround by done. by destruct s.
Qed.

(** The float converter reads back every Number other than NaN; the value
    read is the Number that was written, except that the negative zero is
    read as the positive zero, which is equal to it. *)
Lemma floatConverter_round_trip x :
  is_double x = true → x ≠ NaN →
  ∃ s y, stringify floatConverter x = Normal s ∧
         parse floatConverter s = Normal (Some y) ∧
         Number_equal y x = true ∧ (x ≠ negative_zero → y = x).
Proof.
  intros Hx Hnan. exists (Number_toString x). cbn [stringify parse floatConverter].
  destruct x as [|s|s m e]; [done| |].
  - exists (Infinity s). by destruct s.
  - destruct (decide (m = 0)) as [->|Hm].
    + apply is_double_zero in Hx as ->.
      exists (Finite false 0 (-1074)).
      repeat split. by destruct s.
    + apply is_double_positive in Hx; [|done].
      exists (Finite s m e). rewrite parseFloat_toString by done. cbn.
      repeat split; try done.
      rewrite bool_decide_eq_true_2 by done. rewrite !Z.eqb_refl. cbn.
      by rewrite orb_true_r.
Qed.

Lemma num_digits_le s k : 0 < s < 10 ^ k → Z.of_nat (num_digits s) <= k.
Proof.
  intros [Hs Hk]. pose proof (num_digits_spec s Hs) as [Hlo _].
  pose proof (num_digits_pos s).
  destruct (Z.le_gt_cases 0 k) as [Hk0|Hk0].
  - assert (10 ^ (Z.of_nat (num_digits s) - 1) < 10 ^ k) as Hlt by lia.
    apply Z.pow_lt_mono_r_iff in Hlt; lia.
  - rewrite Z.pow_neg_r in Hk; lia.
Qed.

Lemma pow10_lt_inv a b : 0 <= b → 10 ^ a < 10 ^ b → a < b.
Proof. intros Hb Hlt. apply Z.pow_lt_mono_r_iff in Hlt; lia. Qed.

(** The exact decimal expansion of a double that is the integer [X0]. *)
Lemma exact_decimal_integer m e X0 :
  0 < m → X0 * 2 ^ Z.max 0 (- e) = m * 2 ^ Z.max 0 e →
  (exact_decimal m e).2 <= 0 ∧
  (exact_decimal m e).1 = X0 * 10 ^ (- (exact_decimal m e).2).
Proof.
  intros Hm HX. unfold exact_decimal.
  destruct (Z.leb_spec 0 e) as [He|He]; cbn [fst snd]; simpl_max.
  - cbn. lia.
  - split; [lia|]. change 10 with (2 * 5). rewrite Z.pow_mul_l. lia.
Qed.

(** The shortest decimal of a double that is an integer below [10^21] has
    no fractional digits and at most 21 digits before the decimal point. *)
Lemma shortest_decimal_integer m e X0 :
  positive_double m e → 0 < X0 < 10 ^ 21 →
  X0 * 2 ^ Z.max 0 (- e) = m * 2 ^ Z.max 0 e →
  0 <= (shortest_decimal m e).2 ∧
  (shortest_decimal m e).2 + Z.of_nat (num_digits (shortest_decimal m e).1) <= 21.
Proof.
  intros Hd HX0 HX.
  destruct (shortest_decimal_spec m e Hd) as (k & Hk & Htry & Hbefore).
  destruct (exact_decimal_integer m e X0 ltac:(destruct Hd; lia) HX) as [Hq0 HN].
  pose proof (exact_decimal_pos m e ltac:(destruct Hd; lia)) as HNpos.
  set (N := (exact_decimal m e).1) in *. set (q0 := (exact_decimal m e).2) in *.
  pose proof (num_digits_spec N HNpos) as [HDlo HDhi].
  pose proof (num_digits_pos N) as HD1.
  set (D := Z.of_nat (num_digits N)) in *.
  set (P := 10 ^ (- q0)) in *.
  assert (0 < P) as HP by (apply Z.pow_pos_nonneg; lia).
  set (k0 := D + q0).
  assert (1 <= k0) as Hk0lo.
  { assert (10 ^ (- q0) < 10 ^ D) as Hlt by (fold P; nia).
    apply pow10_lt_inv in Hlt; lia. }
  assert (k0 <= 21) as Hk0hi.
  { assert (10 ^ (D - 1) < 10 ^ (21 + - q0)) as Hlt.
    { rewrite Z.pow_add_r by lia. fold P. nia. }
    apply pow10_lt_inv in Hlt; lia. }
  (* the integer itself is a candidate of length [k0] *)
  assert (k <= k0) as Hkk0.
  { destruct (Z.le_gt_cases k k0) as [|Hgt]; [done|].
    assert (is_Some (try_length (Finite false m e) N q0 D k0)) as [c Hc].
    { apply try_length_complete. unfold candidates, passes. cbn [fst snd].
      replace (D - k0) with (- q0) by lia. fold P.
      rewrite HN, Z.div_mul by lia.
      replace (- q0 + q0) with 0 by lia.
      apply bool_decide_eq_true. apply round_decimal_integer; try done. lia. }
    rewrite Hbefore in Hc by lia. done. }
  apply try_length_sound in Htry as [Hpass Hcand].
  apply bool_decide_eq_true in Hpass.
  set (lo := N / 10 ^ (D - k)) in *.
  assert (0 < 10 ^ (D - k)) as Hpk by (apply Z.pow_pos_nonneg; lia).
  assert (0 < 10 ^ k) as Hpk' by (apply Z.pow_pos_nonneg; lia).
  assert (10 ^ D = 10 ^ k * 10 ^ (D - k)) as HDk.
  { rewrite <- Z.pow_add_r by lia. f_equal. lia. }
  assert (0 < lo < 10 ^ k) as Hlo.
  { split.
    - apply Z.div_str_pos. split; [done|].
      etrans; [|exact HDlo]. apply Z.pow_le_mono_r; lia.
    - apply Z.div_lt_upper_bound; [done|]. lia. }
  destruct Hcand as [Hc|Hc]; rewrite Hc in *; unfold candidates; cbn [fst snd].
  - fold lo. pose proof (num_digits_le lo k Hlo). lia.
  - fold lo. unfold candidates in Hpass. cbn [fst snd] in Hpass. fold lo in Hpass.
    destruct (Z.eqb_spec (lo + 1) (10 ^ k)) as [Heq|Hne]; cbn [fst snd] in *.
    + change (Z.of_nat (num_digits 1)) with 1.
      split; [lia|].
      destruct (decide (k0 = 21)) as [Hk21|]; [|lia].
      replace (D - k + q0 + k) with 21 in Hpass by lia.
      vm_compute in Hpass. injection Hpass as <- <-.
      simpl_max. lia.
    + pose proof (num_digits_le (lo + 1) k ltac:(lia)). lia.
Qed.

Lemma format_decimal_integer s q :
  0 <= q → q + Z.of_nat (num_digits s) <= 21 →
  format_decimal s q = render s ++ zeros q.
Proof.
  intros Hq Hn. unfold format_decimal.
  assert (((Z.of_nat (num_digits s) <=? q + Z.of_nat (num_digits s))
           && (q + Z.of_nat (num_digits s) <=? 21)) = true) as -> by lia.
  do 2 f_equal. lia.
Qed.

Lemma parseInt10_digits (negative : bool) ds :
  all_digits ds → ds ≠ [] →
  parseInt10 (string_of_list_ascii ((if negative then ["-"%char] else []) ++ ds))
  = with_sign negative (round_decimal (digits_value ds) 0).
Proof.
  intros Hds Hne. unfold parseInt10. rewrite list_ascii_of_string_of_list_ascii.
  destruct ds as [|c rest]; [done|]. clear Hne.
  pose proof Hds as [Hc _]%Forall_cons.
  destruct (read_number_head c rest Hc) as (Ht & Htm & Hsign & _).
  destruct negative; cbn [app].
  - rewrite Htm. cbn [read_sign]. change (Ascii.eqb "-" "-") with true. cbn iota.
    by rewrite span_digits_all.
  - rewrite Ht, Hsign. by rewrite span_digits_all.
Qed.

Lemma parseInt10_toString s m e X0 :
  positive_double m e → 0 < X0 < 10 ^ 21 →
  X0 * 2 ^ Z.max 0 (- e) = m * 2 ^ Z.max 0 e →
  parseInt10 (Number_toString (Finite s m e)) = Finite s m e.
Proof.
  intros Hd HX0 HX. unfold Number_toString, Number_toString_chars.
  assert ((m =? 0) = false) as -> by (destruct Hd; lia).
  destruct (shortest_decimal_sound m e Hd) as [Hpos Hround].
  destruct (shortest_decimal_integer m e X0 Hd HX0 HX) as [Hq Hn].
  destruct (shortest_decimal m e) as [d q]. cbn [fst snd] in *.
  rewrite format_decimal_integer by done.
  rewrite parseInt10_digits.
  - rewrite digits_value_app, digits_value_zeros, length_zeros.
    rewrite digits_value_render, Z2Nat.id, Z.add_0_r by lia.
    rewrite round_decimal_shift, Hround by done. by destruct s.
  - apply Forall_app. split; [apply render_all_digits|apply zeros_all_digits].
  - intros [? _]%app_eq_nil. by eapply render_nonempty.
Qed.

(** The integer converter reads back every Number that is an integer of
    magnitude below [10^21]; the value read is the Number that was written,
    except that the negative zero is read as the positive zero. *)
Lemma intConverter_round_trip x X :
  is_double x = true → integer_value x = Some X → Z.abs X < 10 ^ 21 →
  ∃ s y, stringify intConverter x = Normal s ∧
         parse intConverter s = Normal (Some y) ∧
         Number_equal y x = true ∧ (x ≠ negative_zero → y = x).
Proof.
  intros Hx HX Hlt. exists (Number_toString x). cbn [stringify parse intConverter].
  destruct x as [|s|s m e]; [done..|].
  destruct (decide (m = 0)) as [->|Hm].
  - apply is_double_zero in Hx as ->.
    exists (Finite false 0 (-1074)). repeat split. by destruct s.
  - apply is_double_positive in Hx; [|done].
    exists (Finite s m e).
    rewrite (parseInt10_toString s m e (Z.abs X)); try done.
    + cbn. repeat split; try done.
      rewrite bool_decide_eq_true_2 by done. rewrite !Z.eqb_refl. cbn.
      by rewrite orb_true_r.
    + split; [|done]. cbn in HX. destruct Hx as [? _].
      destruct (Z.leb_spec 0 e).
      * assert (0 < 2 ^ e) by (apply Z.pow_pos_nonneg; lia).
        injection HX as <-. destruct s; nia.
      * destruct (Z.eqb_spec (m mod 2 ^ (- e)) 0) as [Hmod|]; [|done].
        injection HX as <-.
        assert (0 < 2 ^ (- e)) by (apply Z.pow_pos_nonneg; lia).
        assert (0 < m / 2 ^ (- e)).
        { apply Z.div_str_pos. split; [done|].
          apply Z.mod_divide in Hmod; [|lia]. apply Z.divide_pos_le; [lia|done]. }
        destruct s; nia.
    + cbn in HX. destruct Hx as [? _].
      destruct (Z.leb_spec 0 e); simpl_max.
      * assert (0 < 2 ^ e) by (apply Z.pow_pos_nonneg; lia).
        injection HX as <-. destruct s; nia.
      * destruct (Z.eqb_spec (m mod 2 ^ (- e)) 0) as [Hmod|]; [|done].
        injection HX as <-.
        assert (0 < 2 ^ (- e)) by (apply Z.pow_pos_nonneg; lia).
        pose proof (Z.div_mod m (2 ^ (- e)) ltac:(lia)).
        assert (0 <= m / 2 ^ (- e)) by (apply Z.div_pos; lia).
        destruct s; nia.
Qed.

(** ** The calendar *)

Lemma DayFromYear_succ y : DayFromYear (y + 1) = DayFromYear y + DaysInYear y.
Proof.
  unfold DayFromYear, DaysInYear, is_leap_year.
  destruct ((y mod 4 =? 0) && (negb (y mod 100 =? 0) || (y mod 400 =? 0))) eqn:E;
    Z.div_mod_to_equations; lia.
Qed.

Lemma YearFromDay_spec day :
  DayFromYear (YearFromDay day) <= day < DayFromYear (YearFromDay day + 1).
Proof.
  unfold YearFromDay.
  set (y := 1970 + day * 10000 / 3652425).
  assert (DayFromYear (y - 1) <= day < DayFromYear (y + 2)) as Hest.
  { unfold DayFromYear. subst y. Z.div_mod_to_equations. lia. }
  destruct (Z.ltb_spec day (DayFromYear y)) as [Hlt|Hge].
  - replace (y - 1 + 1) with y by lia. lia.
  - destruct (Z.leb_spec (DayFromYear (y + 1)) day) as [Hle|Hgt]; [|lia].
    replace (y + 1 + 1) with (y + 2) by lia. lia.
Qed.

Lemma DayWithinYear_range t :
  0 <= DayWithinYear t < DaysInYear (YearFromTime t).
Proof.
  unfold DayWithinYear, YearFromTime.
  pose proof (YearFromDay_spec (Day t)) as H.
  rewrite DayFromYear_succ in H. lia.
Qed.

Ltac eval_literals :=
  repeat match goal with
  | |- context [Z.pos ?p + 1] =>
      let v := eval compute in (Z.pos p + 1) in change (Z.pos p + 1) with v
  | |- context [0 + 1] => change (0 + 1) with 1
  | H : context [Z.pos ?p + 1] |- _ =>
      let v := eval compute in (Z.pos p + 1) in change (Z.pos p + 1) with v in H
  | H : context [0 + 1] |- _ => change (0 + 1) with 1 in H
  end;
  cbn [days_before_month] in *.

Lemma month_of_day_spec (leap : bool) d :
  0 <= d < (if leap then 366 else 365) →
  0 <= month_of_day leap d <= 11 ∧
  days_before_month leap (month_of_day leap d) <= d
    < days_before_month leap (month_of_day leap d + 1).
Proof.
  intros Hd. unfold month_of_day.
  destruct leap; cbn [days_before_month]; eval_literals;
    repeat lazymatch goal with
    | |- context [if ?a <? ?b then _ else _] =>
        destruct (Z.ltb_spec a b); [eval_literals; lia|]
    end; eval_literals; lia.
Qed.

Lemma date_fields_range t :
  let leap := is_leap_year (YearFromTime t) in
  0 <= MonthFromTime t <= 11 ∧
  1 <= DateFromTime t <= days_in_month leap (MonthFromTime t) ∧
  DateFromTime t <= 31.
Proof.
  intros leap. unfold DateFromTime, MonthFromTime, days_in_month. fold leap.
  pose proof (DayWithinYear_range t) as Hd. unfold DaysInYear in Hd. fold leap in Hd.
  pose proof (month_of_day_spec leap (DayWithinYear t) Hd) as (Hm & Hlo & Hhi).
  split; [done|]. split; [lia|].
  set (m := month_of_day leap (DayWithinYear t)) in *.
  assert (m = 0 ∨ m = 1 ∨ m = 2 ∨ m = 3 ∨ m = 4 ∨ m = 5 ∨ m = 6 ∨ m = 7 ∨ m = 8
          ∨ m = 9 ∨ m = 10 ∨ m = 11) as Hcases by lia.
  clearbody m.
  repeat (destruct Hcases as [->|Hcases]; [destruct leap; eval_literals; lia|]).
  subst. destruct leap; eval_literals; lia.
Qed.

Lemma MakeDay_fields t :
  MakeDay (YearFromTime t) (MonthFromTime t) (DateFromTime t) = Day t.
Proof. unfold MakeDay, DateFromTime, DayWithinYear. lia. Qed.

Lemma time_fields t :
  0 <= HourFromTime t <= 23 ∧ 0 <= MinFromTime t <= 59 ∧
  0 <= SecFromTime t <= 59 ∧ 0 <= msFromTime t <= 999 ∧
  MakeTime (HourFromTime t) (MinFromTime t) (SecFromTime t) (msFromTime t)
    = TimeWithinDay t.
Proof.
  unfold HourFromTime, MinFromTime, SecFromTime, msFromTime, MakeTime,
    TimeWithinDay, msPerDay.
  Z.div_mod_to_equations. lia.
Qed.

Lemma MakeDate_fields t : MakeDate (Day t) (TimeWithinDay t) = t.
Proof.
  unfold MakeDate, Day, TimeWithinDay, msPerDay.
  Z.div_mod_to_equations. lia.
Qed.

Lemma YearFromTime_range t :
  - max_time <= t <= max_time → -271821 <= YearFromTime t <= 275760.
Proof.
  intros Ht. unfold YearFromTime.
  pose proof (YearFromDay_spec (Day t)) as H.
  set (y := YearFromDay (Day t)) in *. clearbody y.
  unfold DayFromYear, Day, msPerDay, max_time in *.
  Z.div_mod_to_equations. lia.
Qed.

(** ** Reading back what [toISOString] writes *)

Lemma forallb_is_digit l : all_digits l → forallb is_digit l = true.
Proof. induction 1 as [|c l Hc _ IH]; cbn; [done|]. by rewrite Hc, IH. Qed.

Lemma read_digits_render k n rest :
  0 <= n < 10 ^ Z.of_nat k →
  read_digits k (render_digits k n ++ rest) = Some (n, rest).
Proof.
  intros Hn. unfold read_digits.
  pose proof (length_render_digits k n) as Hlen.
  rewrite take_app_length', drop_app_length' by done.
  rewrite bool_decide_eq_true_2 by done.
  rewrite forallb_is_digit by apply render_digits_all_digits. cbn.
  rewrite digits_value_render_digits by lia. by rewrite Z.mod_small by lia.
Qed.

Lemma read_char_head c l : read_char c (c :: l) = Some l.
Proof. cbn. by rewrite Ascii.eqb_refl. Qed.

Lemma render_digits_head k n :
  ∃ c rest, render_digits (S k) n = c :: rest ∧ is_digit c = true.
Proof.
  pose proof (render_digits_all_digits (S k) n) as Hall.
  pose proof (length_render_digits (S k) n) as Hlen.
  destruct (render_digits (S k) n) as [|c rest]; [done|].
  apply Forall_cons in Hall as [Hc _]. eauto.
Qed.

Lemma read_year_chars y rest :
  -999999 <= y <= 999999 →
  read_year (year_chars y ++ rest) = Some (y, rest).
Proof.
  intros Hy. unfold year_chars.
  destruct ((0 <=? y) && (y <=? 9999)) eqn:E.
  - destruct (render_digits_head 3 y) as (c & ds & Hds & Hc).
    pose proof (read_digits_render 4 y rest ltac:(cbn; lia)) as Hread.
    rewrite Hds in *. cbn [app read_year].
    apply is_digit_cases in Hc as (_ & -> & -> & _). done.
  - pose proof (read_digits_render 6 (Z.abs y) rest ltac:(cbn; lia)) as Hread.
    destruct (Z.ltb_spec y 0); cbn [app read_year].
    + change (Ascii.eqb "-" "+") with false. change (Ascii.eqb "-" "-") with true.
      cbn iota. rewrite Hread. cbn.
      assert ((Z.abs y =? 0) = false) as -> by lia. do 2 f_equal. lia.
    + change (Ascii.eqb "+" "+") with true. cbn iota. rewrite Hread.
      do 2 f_equal. lia.
Qed.

Lemma read_ISO_chars t :
  - max_time <= t <= max_time → read_ISO (ISO_chars t) = Some t.
Proof.
  intros Ht. unfold read_ISO, ISO_chars.
  pose proof (YearFromTime_range t Ht) as Hy.
  pose proof (date_fields_range t) as (Hmo & Hda & Hda').
  pose proof (time_fields t) as (Hh & Hmi & Hs & Hms & Htime).
  rewrite read_year_chars by lia. cbn [mbind option_bind].
  rewrite read_char_head. cbn [mbind option_bind].
  rewrite read_digits_render by (cbn; lia). cbn [mbind option_bind].
  rewrite read_char_head. cbn [mbind option_bind].
  rewrite read_digits_render by (cbn; lia). cbn [mbind option_bind].
  rewrite read_char_head. cbn [mbind option_bind].
  rewrite read_digits_render by (cbn; lia). cbn [mbind option_bind].
  rewrite read_char_head. cbn [mbind option_bind].
  rewrite read_digits_render by (cbn; lia). cbn [mbind option_bind].
  rewrite read_char_head. cbn [mbind option_bind].
  rewrite read_digits_render by (cbn; lia). cbn [mbind option_bind].
  rewrite read_char_head. cbn [mbind option_bind].
  rewrite (read_digits_render 3 _ ["Z"%char]) by (cbn; lia). cbn [mbind option_bind].
  rewrite read_char_head. cbn [mbind option_bind].
  replace (MonthFromTime t + 1 - 1) with (MonthFromTime t) by lia.
  rewrite MakeDay_fields, Htime, MakeDate_fields.
  set (b := _ && _). assert (b = true) as ->; [|done].
  subst b. cbv zeta in Hda. lia.
Qed.

Section HostDateFacts.
Variable host_Date_parse : string → Date.

(** The ISO date converter reads back every valid Date. *)
Lemma isoDateConverter_round_trip t :
  is_date (Date_at t) = true →
  ∃ s, stringify (isoDateConverter host_Date_parse) (Date_at t) = Normal s ∧
       parse (isoDateConverter host_Date_parse) s = Normal (Some (Date_at t)).
Proof.
  intros Ht. eexists. split; [reflexivity|].
  cbn [parse isoDateConverter]. unfold Date_new.
  rewrite list_ascii_of_string_of_list_ascii.
  rewrite read_ISO_chars by (unfold is_date in Ht; lia).
  unfold TimeClip. unfold is_date in Ht.
  assert ((max_time <? Z.abs t) = false) as -> by lia. done.
Qed.

End HostDateFacts.

(** ** The round trip of the built-in converters *)

(** C3 (as amended).  Each built-in converter reads back the values of its
    domain: the boolean converter every boolean, the string converter every
    string, an enumeration converter every member of the list it was made
    from, the integer converter every Number that is an integer of magnitude
    below [10^21], the float converter every Number other than NaN, and the
    ISO date converter every valid Date.  The value read is the value
    written; for the two numeric converters the negative zero is read as the
    positive zero, which is equal to it. *)
Theorem builtin_converters_round_trip
    (b : bool) (str : string) (enumTuple : list string) (member : string)
    (i : Number) (I : Z) (f : Number)
    (host_Date_parse : string → Date) (t : Z) :
  member ∈ enumTuple →
  is_double i = true → integer_value i = Some I → Z.abs I < 10 ^ 21 →
  is_double f = true → f ≠ NaN →
  is_date (Date_at t) = true →
  reads_back booleanConverter eq b ∧
  reads_back stringConverter eq str ∧
  reads_back (enumConverterFactory enumTuple) eq member ∧
  reads_back intConverter same_number i ∧
  reads_back floatConverter same_number f ∧
  reads_back (isoDateConverter host_Date_parse) eq (Date_at t).
Proof.
  intros Hmember Hi HI Hbound Hf Hnan Ht. unfold reads_back, same_number.
  split; [|split; [|split; [|split; [|split]]]].
  - destruct b; eexists _, _; cbn; eauto.
  - eexists _, _; cbn; eauto.
  - eexists _, _. cbn. rewrite bool_decide_eq_true_2 by done. eauto.
  - destruct (intConverter_round_trip i I Hi HI Hbound) as (s & y & ? & ? & ? & ?).
    eauto 10.
  - destruct (floatConverter_round_trip f Hf Hnan) as (s & y & ? & ? & ? & ?).
    eauto 10.
  - destruct (isoDateConverter_round_trip host_Date_parse t Ht) as (s & ? & ?).
    eauto 10.
Qed.

(** The round trip at [true], ["player"], ["dark"] of [["dark"; "light"]],
    42, 1.5 and the date 2023-11-14T22:13:20.123Z. *)
Lemma builtin_converters_round_trip_witness :
  "dark" ∈ ["dark"; "light"] ∧
  is_double forty_two = true ∧ integer_value forty_two = Some 42 ∧
  Z.abs 42 < 10 ^ 21 ∧
  is_double one_and_a_half = true ∧ one_and_a_half ≠ NaN ∧
  is_date (Date_at 1700000000123) = true ∧
  reads_back booleanConverter eq true ∧
  reads_back stringConverter eq "player" ∧
  reads_back (enumConverterFactory ["dark"; "light"]) eq "dark" ∧
  reads_back intConverter same_number forty_two ∧
  reads_back floatConverter same_number one_and_a_half ∧
  reads_back (isoDateConverter no_host_formats) eq (Date_at 1700000000123).
Proof.
  assert ("dark" ∈ ["dark"; "light"]) as H1 by (by left).
  assert (is_double forty_two = true) as H2 by reflexivity.
  assert (integer_value forty_two = Some 42) as H3 by reflexivity.
  assert (Z.abs 42 < 10 ^ 21) as H4 by reflexivity.
  assert (is_double one_and_a_half = true) as H5 by reflexivity.
  assert (one_and_a_half ≠ NaN) as H6 by discriminate.
  assert (is_date (Date_at 1700000000123) = true) as H7 by reflexivity.
  repeat (split; [assumption|]).
  exact (builtin_converters_round_trip true "player" ["dark"; "light"] "dark"
           forty_two 42 one_and_a_half no_host_formats 1700000000123
           H1 H2 H3 H4 H5 H6 H7).
Defined.

(** C3, counterexample.  Values of the value types that are not read back:
    the integer converter writes NaN as ["NaN"] and reads that as [null],
    writes 1.5 as ["1.5"] and reads that as 1, and writes [10^21] as
    ["1e+21"] and reads that as 1; the float converter reads back [null] for
    NaN; the ISO date converter throws a RangeError for an invalid Date. *)
Lemma builtin_converters_lose_values :
  stringify intConverter NaN = Normal "NaN" ∧
  parse intConverter "NaN" = Normal None ∧
  stringify intConverter one_and_a_half = Normal "1.5" ∧
  parse intConverter "1.5" = Normal (Some one) ∧
  Number_equal one one_and_a_half = false ∧
  is_double ten_to_21 = true ∧ integer_value ten_to_21 = Some (10 ^ 21) ∧
  stringify intConverter ten_to_21 = Normal "1e+21" ∧
  parse intConverter "1e+21" = Normal (Some one) ∧
  stringify floatConverter NaN = Normal "NaN" ∧
  parse floatConverter "NaN" = Normal None ∧
  stringify (isoDateConverter no_host_formats) Invalid_Date
    = Throw (RangeError "Invalid time value") ∧
  ¬ reads_back intConverter same_number NaN ∧
  ¬ reads_back intConverter same_number one_and_a_half ∧
  ¬ reads_back floatConverter same_number NaN ∧
  ¬ reads_back (isoDateConverter no_host_formats) eq Invalid_Date.
Proof.
  assert (stringify intConverter one_and_a_half = Normal "1.5") as H15
    by (vm_compute; reflexivity).
  assert (parse intConverter "1.5" = Normal (Some one)) as Hp15
    by (vm_compute; reflexivity).
  assert (parse intConverter "NaN" = Normal None) as HpNaN
    by (vm_compute; reflexivity).
  assert (parse floatConverter "NaN" = Normal None) as HfNaN
    by (vm_compute; reflexivity).
  assert (Number_equal one one_and_a_half = false) as Hne
    by (vm_compute; reflexivity).
  do 5 (split; [first [assumption | reflexivity]|]).
  do 4 (split; [vm_compute; reflexivity|]).
  do 3 (split; [first [assumption | reflexivity]|]).
  split; [|split; [|split]].
  - intros (s & y & Hs & Hp & _). injection Hs as <-.
    change (Number_toString NaN) with "NaN" in Hp. rewrite HpNaN in Hp.
    discriminate Hp.
  - intros (s & y & Hs & Hp & Heq & _). rewrite H15 in Hs. injection Hs as <-.
    rewrite Hp15 in Hp. injection Hp as <-. rewrite Hne in Heq. discriminate Heq.
  - intros (s & y & Hs & Hp & _). injection Hs as <-.
    change (Number_toString NaN) with "NaN" in Hp. rewrite HfNaN in Hp.
    discriminate Hp.
  - intros (s & y & Hs & _). discriminate Hs.
Qed.

(** ** The claims on concrete inputs *)

Lemma world_b_ok : world_ok world_b.
Proof.
  destruct (TypedStorage_new_spec localStorage ""
    (uniform_schema stringConverter ["b"]) initial_world initial_world_ok)
    as (w' & Heq & Hok & _).
  unfold world_b.
  change (TypedStorage_new localStorage (inr ?c) None) with
    (TypedStorage_new localStorage (inl "") (Some c)).
  by rewrite Heq.
Qed.

(** The failed construction of [{a, b}] with ["b"] claimed. *)
Lemma failed_construction_keeps_earlier_keys_witness :
  world_ok world_b ∧
  TypedStorage_new localStorage (inl "")
    (Some (uniform_schema stringConverter ["a"; "b"])) world_b =
    (construct_ab.1, Throw (Error (taken_message "b" localStorage))) ∧
  ∃ pre key post,
    Object_keys (uniform_schema stringConverter ["a"; "b"]) = pre ++ key :: post ∧
    Error (taken_message "b" localStorage) =
      Error (taken_message ("" +:+ key) localStorage) ∧
    "" +:+ key ∈ effective_keys "" pre ∪ claimed world_b localStorage ∧
    (∀ key', key' ∈ pre → "" +:+ key' ∉ claimed world_b localStorage) ∧
    claimed construct_ab.1 localStorage =
      effective_keys "" pre ∪ claimed world_b localStorage ∧
    (∀ s, s ≠ localStorage → claimed construct_ab.1 s = claimed world_b s).
Proof.
  assert (TypedStorage_new localStorage (inl "")
    (Some (uniform_schema stringConverter ["a"; "b"])) world_b =
    (construct_ab.1, Throw (Error (taken_message "b" localStorage)))) as Hrun
    by (vm_compute; reflexivity).
  split; [exact world_b_ok|]. split; [exact Hrun|].
  exact (failed_construction_keeps_earlier_keys localStorage ""
           (uniform_schema stringConverter ["a"; "b"]) world_b construct_ab.1
           (Error (taken_message "b" localStorage)) world_b_ok Hrun).
Defined.

(** Prefix ["a"] with field ["bc"], then prefix ["ab"] with field ["c"]. *)
Lemma overlapping_construction_fails_witness :
  let first :=
    TypedStorage_new localStorage (inl "a")
      (Some (uniform_schema stringConverter ["bc"])) initial_world in
  let this1 := mkTypedStorage localStorage "a" (uniform_schema stringConverter ["bc"]) in
  world_ok initial_world ∧
  first = (first.1, Normal this1) ∧
  world_ok first.1 ∧ claimed first.1 localStorage ⊆ claimed first.1 localStorage ∧
  "bc" ∈ ["bc"] ∧ "c" ∈ ["c"] ∧ "a" +:+ "bc" = "ab" +:+ "c" ∧
  ∃ w2 storeKey,
    TypedStorage_new localStorage (inl "ab")
      (Some (uniform_schema stringConverter ["c"])) first.1 =
      (w2, Throw (Error (taken_message storeKey localStorage))) ∧
    stored w2 = stored first.1 ∧ calls w2 = calls first.1 ∧
    (∀ key, agree (getItem this1 key) w2 first.1 ∧
            agree (hasItem this1 key) w2 first.1 ∧
            agree (removeItem this1 key) w2 first.1 ∧
            ∀ value, agree (setItem accepts_all this1 key value) w2 first.1).
Proof.
  intros first this1.
  assert (first = (first.1, Normal this1)) as Hrun by (vm_compute; reflexivity).
  assert (world_ok first.1) as Hok.
  { destruct (TypedStorage_new_spec localStorage "a"
      (uniform_schema stringConverter ["bc"]) initial_world initial_world_ok)
      as (w' & Heq & Hok & _).
    subst first. by rewrite Heq. }
  assert (claimed first.1 localStorage ⊆ claimed first.1 localStorage) as Hsub
    by reflexivity.
  assert ("bc" ∈ ["bc"]) as H1 by (by left).
  assert ("c" ∈ ["c"]) as H2 by (by left).
  assert ("a" +:+ "bc" = "ab" +:+ "c") as H3 by reflexivity.
  split; [exact initial_world_ok|]. do 6 (split; [assumption|]).
  exact (overlapping_construction_fails accepts_all localStorage
           "a" (uniform_schema stringConverter ["bc"])
           "ab" (uniform_schema stringConverter ["c"]) "bc" "c"
           initial_world first.1 this1 first.1
           initial_world_ok Hrun Hok Hsub H1 H2 H3).
Defined.

(** [getItem("flag")] on the instance [{flag: booleanConverter}]. *)
Lemma getItem_reads_and_parses_witness :
  prop (converters flag_storage) "flag" = Some booleanConverter ∧
  (getItem flag_storage "flag" flag_world).2 =
    match items flag_world localStorage !! "flag" with
    | None => Normal None
    | Some item => parse booleanConverter item
    end.
Proof.
  assert (prop (converters flag_storage) "flag" = Some booleanConverter) as H
    by reflexivity.
  split; [exact H|].
  exact (proj1 (getItem_reads_and_parses flag_storage "flag" booleanConverter
                  flag_world H)).
Defined.

(** [{x: booleanConverter}] with prefix ["p_"] on [localStorage] and on
    [sessionStorage], in a fresh page. *)
Lemma distinct_stores_do_not_collide_witness :
  let converters := uniform_schema booleanConverter ["x"] in
  world_ok initial_world ∧ localStorage ≠ sessionStorage ∧
  NoDup (Object_keys converters) ∧
  (∀ key, key ∈ Object_keys converters →
          "p_" +:+ key ∉ claimed initial_world localStorage) ∧
  (∀ key, key ∈ Object_keys converters →
          "p_" +:+ key ∉ claimed initial_world sessionStorage) ∧
  ∃ w1 w2,
    TypedStorage_new localStorage (inl "p_") (Some converters) initial_world =
      (w1, Normal (mkTypedStorage localStorage "p_" converters)) ∧
    claimed w1 sessionStorage = claimed initial_world sessionStorage ∧
    TypedStorage_new sessionStorage (inl "p_") (Some converters) w1 =
      (w2, Normal (mkTypedStorage sessionStorage "p_" converters)) ∧
    claimed w2 localStorage =
      effective_keys "p_" (Object_keys converters) ∪ claimed initial_world localStorage ∧
    claimed w2 sessionStorage =
      effective_keys "p_" (Object_keys converters) ∪ claimed initial_world sessionStorage.
Proof.
  intros converters.
  assert (localStorage ≠ sessionStorage) as H1 by discriminate.
  assert (NoDup (Object_keys converters)) as H2 by apply NoDup_singleton.
  assert (∀ s key, key ∈ Object_keys converters →
            "p_" +:+ key ∉ claimed initial_world s) as H3.
  { intros s key _. unfold claimed. cbn. rewrite lookup_empty. set_solver. }
  split; [exact initial_world_ok|]. split; [exact H1|]. split; [exact H2|].
  split; [exact (H3 localStorage)|]. split; [exact (H3 sessionStorage)|].
  exact (distinct_stores_do_not_collide localStorage sessionStorage "p_" converters
           initial_world initial_world_ok H1 H2 (H3 localStorage) (H3 sessionStorage)).
Defined.

(** C6 (as amended).  [setDefaults] visits the fields of [body] in the
    order of [Object.keys].  A field for which [hasItem] is true when it is
    visited is left untouched: the call never writes under its key, and its
    entry is at the end what it was at the start.  A field for which
    [hasItem] is false when it is visited is written when the converter's
    [stringify] returns a string for the default: the store is called with
    that string, and when [setDefaults] returns the entry holds it.  When
    [stringify] throws instead, nothing is written for the field: the error
    ends [setDefaults], the store is never called to write under the key,
    and the entry is what it was at the start.  In particular, on an empty
    store [setDefaults({flag: false})] with the boolean converter stores
    ["0"], and [setDefaults({flag: true})] after it only reads the field and
    leaves the ["0"] where it is. *)
Theorem setDefaults_writes_exactly_unset :
  (∀ (accepts : Storage → gmap string string → string → string → bool)
     (Body : string → Type) (this : @TypedStorage Body)
     (body pre post : BodyObject) key (value : Body key)
     (c : Converter (Body key)) w w1,
     NoDup (keys_of body) →
     body = pre ++ existT key value :: post →
     setDefaults accepts this pre w = (w1, Normal tt) →
     prop (converters this) key = Some c →
     let w' := (setDefaults accepts this body w).1 in
     let k := effective_key this key in
     ((hasItem this key w1).2 = Normal true →
        items w' (storage this) !! k = items w (storage this) !! k ∧
        ∀ s, Call_setItem (storage this) k s ∉ new_calls w w') ∧
     ((hasItem this key w1).2 = Normal false →
        ∀ s, stringify c value = Normal s →
          Call_setItem (storage this) k s ∈ new_calls w w' ∧
          ((setDefaults accepts this body w).2 = Normal tt →
             items w' (storage this) !! k = Some s)) ∧
     ((hasItem this key w1).2 = Normal false →
        ∀ e, stringify c value = Throw e →
          (setDefaults accepts this body w).2 = Throw e ∧
          items w' (storage this) !! k = items w (storage this) !! k ∧
          ∀ s, Call_setItem (storage this) k s ∉ new_calls w w')) ∧
  (let r1 := setDefaults accepts_all flag_storage (flag_defaults false) flag_world in
   let r2 := setDefaults accepts_all flag_storage (flag_defaults true) r1.1 in
   items flag_world localStorage = ∅ ∧
   r1.2 = Normal tt ∧ items r1.1 localStorage !! "flag" = Some "0" ∧
   r2.2 = Normal tt ∧ items r2.1 localStorage !! "flag" = Some "0" ∧
   new_calls r1.1 r2.1 = [Call_getItem localStorage "flag"]).
Proof.
  split.
  - intros accepts Body this body pre post key value c w w1 Hnd Hbody Hpre Hc w' k.
    destruct (setDefaults_field accepts this body pre post key value c w w1
                Hnd Hbody Hpre Hc) as [Hset Hunset].
    split; [exact Hset|]. split; [exact Hunset|].
    intros Hhas e Hs.
    by apply (setDefaults_field_not_written accepts this body pre post key
                value c w w1 e).
  - repeat split; vm_compute; reflexivity.
Qed.

(** C6, counterexample.  With [{last_played: isoDateConverter}] and the
    defaults [{last_played: new Date(NaN)}] on an empty store, [hasItem] is
    false when the field is visited, and yet nothing is written:
    [toISOString] throws a RangeError, the store is called only to read, and
    it is as empty after the call as before. *)
Lemma setDefaults_invalid_date_writes_nothing :
  let r := setDefaults accepts_all date_storage date_defaults date_world in
  (TypedStorage_new localStorage
     (inr (uniform_schema (isoDateConverter no_host_formats) ["last_played"]))
     None initial_world) = (date_world, Normal date_storage) ∧
  items date_world localStorage = ∅ ∧
  (hasItem date_storage "last_played" date_world).2 = Normal false ∧
  r.2 = Throw (RangeError "Invalid time value") ∧
  new_calls date_world r.1 = [Call_getItem localStorage "last_played"] ∧
  items r.1 localStorage = ∅.
Proof. repeat split; vm_compute; reflexivity. Qed.

(** [setDefaults({flag: false})] on the empty store. *)
Lemma setDefaults_writes_exactly_unset_witness :
  let w' := (setDefaults accepts_all flag_storage (flag_defaults false) flag_world).1 in
  NoDup (keys_of (flag_defaults false)) ∧
  flag_defaults false = [] ++ existT "flag" false :: [] ∧
  setDefaults accepts_all flag_storage [] flag_world = (flag_world, Normal tt) ∧
  prop (converters flag_storage) "flag" = Some booleanConverter ∧
  (hasItem flag_storage "flag" flag_world).2 = Normal false ∧
  stringify booleanConverter false = Normal "0" ∧
  Call_setItem localStorage "flag" "0" ∈ new_calls flag_world w' ∧
  items w' localStorage !! "flag" = Some "0".
Proof.
  intros w'.
  assert (NoDup (keys_of (flag_defaults false))) as H1 by apply NoDup_singleton.
  assert (flag_defaults false = [] ++ existT "flag" false :: []) as H2
    by reflexivity.
  assert (setDefaults accepts_all flag_storage [] flag_world
          = (flag_world, Normal tt)) as H3 by reflexivity.
  assert (prop (converters flag_storage) "flag" = Some booleanConverter) as H4
    by reflexivity.
  assert ((hasItem flag_storage "flag" flag_world).2 = Normal false) as H5
    by (vm_compute; reflexivity).
  assert (stringify booleanConverter false = Normal "0") as H6 by reflexivity.
  assert ((setDefaults accepts_all flag_storage (flag_defaults false)
             flag_world).2 = Normal tt) as H7 by (vm_compute; reflexivity).
  do 6 (split; [assumption|]).
  pose proof (proj1 (proj2 (proj1 setDefaults_writes_exactly_unset accepts_all
    (λ _, bool) flag_storage (flag_defaults false) [] [] "flag" false
    booleanConverter flag_world flag_world H1 H2 H3 H4)) H5 "0" H6)
    as [Hcall Hitem].
  split; [exact Hcall|exact (Hitem H7)].
Defined.

(** [setDefaults({flag: false})] twice on the empty store. *)
Lemma setDefaults_twice_same_stores_witness :
  let r1 := setDefaults accepts_all flag_storage (flag_defaults false) flag_world in
  let r2 := setDefaults accepts_all flag_storage (flag_defaults false) r1.1 in
  NoDup (keys_of (flag_defaults false)) ∧
  stored r2.1 = stored r1.1 ∧
  (r1.2 = Normal tt →
     ∀ s k v, Call_setItem s k v ∈ new_calls r1.1 r2.1 →
              items r1.1 s !! k = Some v) ∧
  (r1.2 = Normal tt → round_trips flag_storage (flag_defaults false) →
     r2.2 = Normal tt ∧
     new_calls r1.1 r2.1 =
       (λ key, Call_getItem localStorage (effective_key flag_storage key))
         <$> keys_of (flag_defaults false)).
Proof.
  intros r1 r2.
  assert (NoDup (keys_of (flag_defaults false))) as H1 by apply NoDup_singleton.
  split; [exact H1|].
  exact (setDefaults_twice_same_stores accepts_all flag_storage
           (flag_defaults false) flag_world H1).
Defined.

(** C7, counterexample.  With [{count: intConverter}] and the defaults
    [{count: NaN}] on an empty store, the first [setDefaults] writes ["NaN"];
    the integer converter reads that back as [null], so [hasItem] is still
    false after the call, and the second [setDefaults] writes again. *)
Lemma setDefaults_NaN_writes_again :
  let r1 := setDefaults accepts_all count_storage count_defaults count_world in
  let r2 := setDefaults accepts_all count_storage count_defaults r1.1 in
  (TypedStorage_new localStorage (inr (uniform_schema intConverter ["count"]))
     None initial_world) = (count_world, Normal count_storage) ∧
  r1.2 = Normal tt ∧
  items r1.1 localStorage !! "count" = Some "NaN" ∧
  (hasItem count_storage "count" r1.1).2 = Normal false ∧
  r2.2 = Normal tt ∧
  new_calls r1.1 r2.1 =
    [Call_getItem localStorage "count"; Call_setItem localStorage "count" "NaN"] ∧
  stored r2.1 = stored r1.1.
Proof. repeat split; vm_compute; reflexivity. Qed.

(** ** The host functions on known values *)

Example toString_tenth : Number_toString (Finite false 7205759403792794 (-56)) = "0.1".
Proof. vm_compute. reflexivity. Qed.

Example toString_one_and_a_half : Number_toString one_and_a_half = "1.5".
Proof. vm_compute. reflexivity. Qed.

Example toString_forty_two : Number_toString forty_two = "42".
Proof. vm_compute. reflexivity. Qed.

Example toString_ten_to_21 : Number_toString ten_to_21 = "1e+21".
Proof. vm_compute. reflexivity. Qed.

Example toString_least_double : Number_toString (Finite false 1 (-1074)) = "5e-324".
Proof. vm_compute. reflexivity. Qed.

Example toString_micro :
  Number_toString (parseFloat "0.000001") = "0.000001" ∧
  Number_toString (parseFloat "0.0000001") = "1e-7".
Proof. split; vm_compute; reflexivity. Qed.

Example parseFloat_tenth : parseFloat "0.1" = Finite false 7205759403792794 (-56).
Proof. vm_compute. reflexivity. Qed.

Example parseFloat_prefix : parseFloat "  -42.5abc" = Finite true (85 * 2^46) (-47).
Proof. vm_compute. reflexivity. Qed.

Example parseFloat_no_number : parseFloat "abc" = NaN ∧ parseFloat "" = NaN.
Proof. split; vm_compute; reflexivity. Qed.

Example parseInt10_prefix : parseInt10 "42abc" = forty_two ∧ parseInt10 "x42" = NaN.
Proof. split; vm_compute; reflexivity. Qed.

(** White space of Unicode is skipped: an em space (U+2003, the bytes
    [E2 80 83], written out in the second string) before [42], and a byte
    order mark and a line separator before [1.5]. *)
Example parseInt10_em_space :
  parseInt10 (string_of_list_ascii (utf8 0x2003 ++ list_ascii_of_string "42"))
    = forty_two ∧
  parse intConverter " 42" = Normal (Some forty_two).
Proof. split; vm_compute; reflexivity. Qed.

Example parseFloat_line_separator :
  parseFloat (string_of_list_ascii
                (utf8 0xFEFF ++ utf8 0x2028 ++ list_ascii_of_string "1.5"))
    = one_and_a_half.
Proof. vm_compute. reflexivity. Qed.

Example toISOString_epoch :
  Date_toISOString (Date_at 0) = Normal "1970-01-01T00:00:00.000Z".
Proof. vm_compute. reflexivity. Qed.

Example toISOString_latest :
  Date_toISOString (Date_at max_time) = Normal "+275760-09-13T00:00:00.000Z".
Proof. vm_compute. reflexivity. Qed.

Example toISOString_leap_day :
  Date_toISOString (Date_at 1709164800000) = Normal "2024-02-29T00:00:00.000Z".
Proof. vm_compute. reflexivity. Qed.

Example Date_new_unreadable :
  Date_new no_host_formats "tomorrow" = Invalid_Date ∧
  parse (isoDateConverter no_host_formats) "tomorrow" = Normal None.
Proof. split; vm_compute; reflexivity. Qed.

(** * Further properties of the class *)

(** ** Construction *)

Lemma claim_keys_none prefix keys : ∀ S,
  (claim_keys prefix keys S).2 = None →
  (∀ key, key ∈ keys → prefix +:+ key ∉ S) ∧
  (claim_keys prefix keys S).1 = effective_keys prefix keys ∪ S.
Proof.
  unfold effective_keys.
  induction keys as [|key keys IH]; intros S; cbn.
  - intros _. split; [by intros ? ?%elem_of_nil|set_solver].
  - case_bool_decide as Hin; cbn; [done|].
    intros [Hfree Hres]%IH. split.
    + intros key' [->|Hk]%elem_of_cons; [done|].
      apply Hfree in Hk. set_solver.
    + rewrite Hres. set_solver.
Qed.

Lemma claim_keys_app prefix pre : ∀ rest S,
  NoDup pre → (∀ key, key ∈ pre → prefix +:+ key ∉ S) →
  claim_keys prefix (pre ++ rest) S =
    claim_keys prefix rest (effective_keys prefix pre ∪ S).
Proof.
  unfold effective_keys.
  induction pre as [|key pre IH]; intros rest S Hnd Hfree; cbn.
  - f_equal. set_solver.
  - apply NoDup_cons in Hnd as [Hkey Hnd].
    rewrite bool_decide_eq_false_2 by (apply Hfree; left).
    rewrite IH; [f_equal; set_solver|done|].
    intros key' Hin. rewrite elem_of_union, elem_of_singleton.
    intros [Heq%(inj _)|Hold]; [by subst|].
    revert Hold. apply Hfree. by right.
Qed.

Section ConstructionFurther.
Context {Body : string → Type}.
Implicit Types (converters : @Converters Body).

(** X1.  With distinct field names, construction returns an instance exactly
    when every effective key is free in the store; the instance then holds
    the store, the prefix and the converters it was given, and the claimed
    set of the store is the earlier one together with all the effective
    keys. *)
Theorem construction_succeeds_iff_keys_free storage prefix converters w :
  world_ok w → NoDup (Object_keys converters) →
  let r := TypedStorage_new storage (inl prefix) (Some converters) w in
  ((∃ this, r.2 = Normal this) ↔
     ∀ key, key ∈ Object_keys converters → prefix +:+ key ∉ claimed w storage) ∧
  (∀ this, r.2 = Normal this →
     this = mkTypedStorage storage prefix converters ∧
     claimed r.1 storage =
       effective_keys prefix (Object_keys converters) ∪ claimed w storage).
Proof.
  intros Hok Hnd r.
  destruct (TypedStorage_new_spec storage prefix converters w Hok)
    as (w' & Heq & _ & _ & _ & Hcl & _).
  subst r. rewrite Heq. cbn [fst snd].
  destruct (claim_keys prefix (Object_keys converters) (claimed w storage)).2
    as [storeKey|] eqn:E.
  - split; [|done]. split; [by intros [? ?]|].
    intros Hfree. rewrite (claim_keys_ok _ _ _ Hnd Hfree) in E. done.
  - apply claim_keys_none in E as [Hfree Hres]. split.
    + split; [done|]. eauto.
    + intros this [= <-]. by rewrite Hcl, Hres.
Qed.

(** X2.  When the fields before [key] are distinct and their effective keys
    free, and the effective key of [key] is claimed, construction throws the
    Error whose message names that key and the store: the first field in the
    order of [Object.keys] that collides is the one reported. *)
Theorem construction_reports_first_taken_key
    storage prefix converters pre key post w :
  world_ok w →
  Object_keys converters = pre ++ key :: post →
  NoDup pre →
  (∀ key', key' ∈ pre → prefix +:+ key' ∉ claimed w storage) →
  prefix +:+ key ∈ claimed w storage →
  (TypedStorage_new storage (inl prefix) (Some converters) w).2 =
    Throw (Error ("the key " +:+ quote +:+ (prefix +:+ key) +:+ quote +:+ " from "
                  +:+ getStorageName storage +:+ " is already taken.")).
Proof.
  intros Hok Hkeys Hnd Hfree Htaken.
  destruct (TypedStorage_new_spec storage prefix converters w Hok)
    as (w' & Heq & _).
  rewrite Heq, Hkeys, (claim_keys_app _ _ _ _ Hnd Hfree). cbn.
  rewrite bool_decide_eq_true_2 by set_solver. done.
Qed.

(** X3.  Whatever its arguments and its outcome, a construction keeps the
    registry well formed, releases no claimed key of any store, and touches
    neither the contents of the stores nor the record of their calls. *)
Theorem construction_keeps_registry storage
    (prefix : string + @Converters Body) (converters : option (@Converters Body)) w :
  world_ok w →
  let w' := (TypedStorage_new storage prefix converters w).1 in
  world_ok w' ∧ (∀ s, claimed w s ⊆ claimed w' s) ∧
  stored w' = stored w ∧ calls w' = calls w.
Proof.
  intros Hok.
  assert (∀ p (c : @Converters Body),
    let w' := (TypedStorage_new storage (inl p) (Some c) w).1 in
    world_ok w' ∧ (∀ s, claimed w s ⊆ claimed w' s) ∧
    stored w' = stored w ∧ calls w' = calls w) as Hmain.
  { intros p c.
    destruct (TypedStorage_new_spec storage p c w Hok)
      as (w' & Heq & Hok' & Hst & Hcalls & Hcl & Hother).
    rewrite Heq. cbn [fst]. repeat split; try done; try apply Hok'.
    intros s. destruct (decide (s = storage)) as [->|Hs].
    - rewrite Hcl. apply claim_keys_mono.
    - by rewrite Hother. }
  destruct prefix as [p|c]; [destruct converters as [c|]|].
  - apply Hmain.
  - cbn. done.
  - apply (Hmain "" c).
Qed.

End ConstructionFurther.

(** X4.  [getTakenKey] hands out one Set object per storage: asked again for
    the same storage it returns the same object and changes nothing, and
    for another storage it returns another object. *)
Theorem getTakenKey_one_set_per_storage storage storage' w :
  world_ok w → storage ≠ storage' →
  ∃ w1 set w2 set',
    getTakenKey storage w = (w1, Normal set) ∧
    getTakenKey storage w1 = (w1, Normal set) ∧
    getTakenKey storage' w1 = (w2, Normal set') ∧
    set ≠ set' ∧
    getTakenKey storage w2 = (w2, Normal set).
Proof.
  intros Hok Hne.
  destruct (getTakenKey_spec storage w Hok)
    as (w1 & l & Hget & Hok1 & Hl & Hheap & _).
  assert (∀ w, takenKeys w !! storage = Some l →
            getTakenKey storage w = (w, Normal l)) as Hagain.
  { intros w0 Hw0. unfold getTakenKey, bind, takenKeys_get. by rewrite Hw0. }
  destruct Hok1 as [Hb Hi].
  assert (∃ w2 l', getTakenKey storage' w1 = (w2, Normal l') ∧ l ≠ l' ∧
                   takenKeys w2 !! storage = Some l) as (w2 & l' & H2 & Hll & H3).
  { unfold getTakenKey, bind, takenKeys_get.
    destruct (takenKeys w1 !! storage') as [l'|] eqn:E.
    - exists w1, l'. repeat split; auto.
      intros ->. apply Hne. by eapply Hi.
    - cbn. eexists _, _. repeat split; cbn.
      + apply Hb in Hl. lia.
      + by rewrite lookup_insert_ne. }
  exists w1, l, w2, l'. repeat split; auto.
Qed.

(** ** Reading after writing *)

Section MethodsFurther.
Variable accepts : Storage → gmap string string → string → string → bool.
Context {Body : string → Type}.
Implicit Types (this : @TypedStorage Body) (w : World) (key : string).

Lemma getItem_same_entry this key w w' :
  items w (storage this) !! effective_key this key =
    items w' (storage this) !! effective_key this key →
  (getItem this key w).2 = (getItem this key w').2.
Proof.
  intros Heq. rewrite !getItem_unfold. cbn. rewrite Heq.
  destruct (items w' _ !! _); [|done]. by destruct (prop _ _).
Qed.

Lemma removeItem_touches this key w :
  touches_only this (λ key', key' = key) w (removeItem this key w).1.
Proof.
  unfold removeItem, Storage_removeItem. cbn.
  split; [|repeat split; eauto].
  - intros s k Hn. unfold items at 1. cbn. rewrite lookup_insert.
    case_decide as Hs; [|done]. subst s. cbn.
    rewrite lookup_delete_ne; [done|]. intros <-. apply Hn. eauto.
  - eexists. split; [done|]. by intros s k v ?%list_elem_of_singleton.
Qed.

Lemma items_record c w s : items (record c w) s = items w s.
Proof. done. Qed.

(** X5.  After a [setItem] the store accepted, the entry of the field holds
    the converter's string for the value; when the converter reads that
    string back, [getItem] returns what it reads and [hasItem] is true. *)
Theorem setItem_then_getItem this key (value : Body key)
    (c : Converter (Body key)) s y w :
  prop (converters this) key = Some c →
  stringify c value = Normal s →
  parse c s = Normal (Some y) →
  accepts (storage this) (items w (storage this)) (effective_key this key) s = true →
  let w1 := (setItem accepts this key value w).1 in
  (setItem accepts this key value w).2 = Normal tt ∧
  items w1 (storage this) !! effective_key this key = Some s ∧
  (getItem this key w1).2 = Normal (Some y) ∧
  (hasItem this key w1).2 = Normal true.
Proof.
  intros Hc Hs Hp Hacc w1. subst w1.
  rewrite setItem_unfold, Hc, Hs. unfold Storage_setItem. rewrite Hacc.
  cbn [fst snd].
  set (w1 := mkWorld _ _ _ _).
  assert (items w1 (storage this) !! effective_key this key = Some s) as Hit.
  { unfold items. cbn. rewrite lookup_insert_eq. cbn. apply lookup_insert_eq. }
  assert ((getItem this key w1).2 = Normal (Some y)) as Hget.
  { rewrite getItem_unfold, Hit, Hc. cbn. done. }
  repeat split; try done.
  rewrite hasItem_unfold. destruct (getItem this key w1) as [? r]. cbn in Hget.
  by subst r.
Qed.

(** X6.  A [setItem] that throws leaves the contents of the stores as they
    were.  When the converter's [stringify] throws, the store is not called
    at all; when the store refuses the write, the call is made and its
    QuotaExceededError reaches the caller. *)
Theorem setItem_failure_changes_nothing this key (value : Body key)
    (c : Converter (Body key)) w :
  prop (converters this) key = Some c →
  let r := setItem accepts this key value w in
  (∀ e, r.2 = Throw e → stored r.1 = stored w ∧
        ∀ key', (getItem this key' r.1).2 = (getItem this key' w).2) ∧
  (∀ e, stringify c value = Throw e → r = (w, Throw e)) ∧
  (∀ s, stringify c value = Normal s →
        accepts (storage this) (items w (storage this)) (effective_key this key) s
          = false →
        r.2 = Throw QuotaExceededError ∧
        calls r.1 = calls w ++ [Call_setItem (storage this) (effective_key this key) s]).
Proof.
  intros Hc r. subst r. rewrite setItem_unfold, Hc.
  destruct (stringify c value) as [s|e0] eqn:Hs.
  - unfold Storage_setItem.
    destruct (accepts _ _ _ _) eqn:Hacc; cbn [fst snd].
    + split; [done|]. split; [done|].
      intros s' [= <-] Hacc'. congruence.
    + split; [|split; [done|]].
      * intros e _. split; [done|]. intros key'. by apply getItem_same_entry.
      * by intros s' [= <-] _.
  - cbn. split; [done|]. split; [|done]. by intros e [= <-].
Qed.

(** X7.  [removeItem] always returns; after it the field has no entry,
    [getItem] returns [null] and [hasItem] is false; removing again changes
    nothing. *)
Theorem removeItem_then_getItem this key w :
  let w1 := (removeItem this key w).1 in
  (removeItem this key w).2 = Normal tt ∧
  items w1 (storage this) !! effective_key this key = None ∧
  (getItem this key w1).2 = Normal None ∧
  (hasItem this key w1).2 = Normal false ∧
  stored (removeItem this key w1).1 = stored w1.
Proof.
  intros w1.
  assert (items w1 (storage this) !! effective_key this key = None) as Hit.
  { subst w1. unfold removeItem, Storage_removeItem, items. cbn.
    rewrite lookup_insert_eq. cbn. apply lookup_delete_eq. }
  assert ((getItem this key w1).2 = Normal None) as Hget.
  { rewrite getItem_unfold, Hit. done. }
  repeat split; try done.
  - rewrite hasItem_unfold. destruct (getItem this key w1) as [? r].
    cbn in Hget. by subst r.
  - subst w1. unfold removeItem, Storage_removeItem. cbn.
    unfold items at 1. cbn. rewrite lookup_insert_eq. cbn.
    rewrite insert_insert_eq. f_equal. apply delete_id, lookup_delete_eq.
Qed.

(** X8.  For a key the instance has no converter for, [getItem] returns
    [null] while the store has no entry under the effective key and throws a
    TypeError once it has one; [setItem] throws a TypeError without calling
    the store. *)
Theorem methods_without_converter this key (value : Body key) w :
  prop (converters this) key = None →
  (items w (storage this) !! effective_key this key = None →
     (getItem this key w).2 = Normal None) ∧
  (is_Some (items w (storage this) !! effective_key this key) →
     ∃ msg, (getItem this key w).2 = Throw (TypeError msg)) ∧
  ∃ msg, setItem accepts this key value w = (w, Throw (TypeError msg)).
Proof.
  intros Hc. rewrite getItem_unfold, setItem_unfold, Hc. cbn.
  split; [by intros ->|]. split; [|eauto].
  intros [item ->]. eauto.
Qed.

End MethodsFurther.

(** ** More on [setDefaults] *)

Section SetDefaultsFurther.
Variable accepts : Storage → gmap string string → string → string → bool.
Context {Body : string → Type}.
Implicit Types (this : @TypedStorage Body) (w : World) (key : string).

Lemma calls_only_refl this K w : calls_only this K w w.
Proof. exists []. rewrite app_nil_r. split; [done|]. by intros c ?%elem_of_nil. Qed.

Lemma calls_only_trans this (K1 K2 K : string → Prop) w1 w2 w3 :
  (∀ key, K1 key → K key) → (∀ key, K2 key → K key) →
  calls_only this K1 w1 w2 → calls_only this K2 w2 w3 → calls_only this K w1 w3.
Proof.
  intros HK1 HK2 (tr1 & Hc1 & Htr1) (tr2 & Hc2 & Htr2).
  exists (tr1 ++ tr2). rewrite Hc2, Hc1, app_assoc. split; [done|].
  intros c [Hin|Hin]%elem_of_app.
  - destruct (Htr1 _ Hin) as (key & ? & ?). exists key. eauto.
  - destruct (Htr2 _ Hin) as (key & ? & ?). exists key. eauto.
Qed.

Lemma visit_calls this key (value : Body key) w :
  calls_only this (λ key', key' = key) w (visit accepts this (existT key value) w).1.
Proof.
  rewrite visit_unfold, hasItem_unfold.
  pose proof (getItem_touches this key w (λ _, False)) as [_ Hget].
  assert (calls_only this (λ key', key' = key) w (getItem this key w).1) as Hg.
  { eexists. split; [exact Hget|].
    intros c ->%list_elem_of_singleton. exists key. eauto. }
  destruct (getItem this key w) as [w1 [v|e]]; cbn [fst snd] in *; [|done].
  destruct (bool_decide (is_Some v)); [done|].
  eapply (calls_only_trans _ (λ key', key' = key) (λ key', key' = key));
    [done|done|exact Hg|].
  rewrite setItem_unfold.
  destruct (prop _ _) as [c|]; [|apply calls_only_refl].
  destruct (stringify c value) as [s|e]; [|apply calls_only_refl].
  assert (∀ c0, c0 ∈ [Call_setItem (storage this) (effective_key this key) s] →
            field_call this (λ key', key' = key) c0) as Hs.
  { intros c0 ->%list_elem_of_singleton. exists key. eauto. }
  unfold Storage_setItem.
  destruct (accepts _ _ _ _); cbn; eexists; (split; [reflexivity|exact Hs]).
Qed.

Lemma setDefaults_calls this (body : BodyObject) : ∀ w,
  calls_only this (λ key, key ∈ keys_of body) w (setDefaults accepts this body w).1.
Proof.
  induction body as [|[key value] body IH]; intros w.
  - apply calls_only_refl.
  - rewrite setDefaults_cons. unfold bind.
    pose proof (visit_calls this key value w) as Hv.
    destruct (visit accepts this (existT key value) w) as [w1 [[]|e]]; cbn in *.
    + eapply calls_only_trans; [..|apply Hv|apply IH]; cbn.
      * intros ? ->. left.
      * intros ??. by right.
    + eapply (calls_only_trans _ _ (λ _, False));
        [..|apply Hv|apply calls_only_refl]; cbn.
      * intros ? ->. left.
      * done.
Qed.

Lemma visit_thrown_stored this key (value : Body key) w e :
  (visit accepts this (existT key value) w).2 = Throw e →
  stored (visit accepts this (existT key value) w).1 = stored w.
Proof.
  rewrite visit_unfold, hasItem_unfold, getItem_unfold. cbn zeta.
  assert (∀ w0, (setItem accepts this key value w0).2 = Throw e →
            stored (setItem accepts this key value w0).1 = stored w0) as Hset.
  { intros w0. rewrite setItem_unfold.
    destruct (prop _ _) as [c|]; [|done].
    destruct (stringify c value); [|done].
    unfold Storage_setItem. by destruct (accepts _ _ _ _). }
  destruct (items w (storage this) !! _) as [item|].
  - destruct (prop (converters this) key) as [c|] eqn:Hc; [|done].
    destruct (parse c item) as [[v|]|e']; cbn; [done| |done].
    intros H. by rewrite Hset.
  - cbn. intros H. by rewrite Hset.
Qed.

(** X9.  When [setDefaults] returns and the converter of every field reads
    back the string it writes for the default, every field of the defaults
    is set afterwards: [hasItem] is true and [getItem] returns a value. *)
Theorem setDefaults_sets_every_field this (body : BodyObject) w w' :
  NoDup (keys_of body) →
  setDefaults accepts this body w = (w', Normal tt) →
  round_trips this body →
  ∀ key, key ∈ keys_of body →
    (hasItem this key w').2 = Normal true ∧
    ∃ v, (getItem this key w').2 = Normal (Some v).
Proof.
  revert w. induction body as [|[key0 value] body IH]; intros w Hnd Hrun Hrt key Hin.
  { by apply elem_of_nil in Hin. }
  assert (∀ w0, (hasItem this key w0).2 = Normal true →
            (hasItem this key w0).2 = Normal true ∧
            ∃ v, (getItem this key w0).2 = Normal (Some v)) as Hboth.
  { intros w0. rewrite hasItem_unfold.
    destruct (getItem this key w0) as [? [[v|]|?]]; cbn; try done. eauto. }
  apply Hboth. clear Hboth.
  apply NoDup_cons in Hnd as [Hkey Hnd].
  rewrite setDefaults_cons in Hrun. unfold bind in Hrun.
  destruct (visit accepts this (existT key0 value) w) as [wa [[]|e]] eqn:Hv;
    [|done].
  cbn in Hin. apply elem_of_cons in Hin as [->|Hin].
  - pose proof (setDefaults_touches accepts this body wa) as (Hframe & _).
    rewrite Hrun in Hframe. cbn [fst] in Hframe.
    rewrite (visit_returned_hasItem accepts this key0 value w w'); [done|..].
    + by rewrite Hv.
    + intros c s. apply Hrt. left.
    + rewrite Hv. cbn. apply Hframe.
      intros (_ & key' & ? & ->%(inj (effective_key this))). done.
  - eapply (IH wa); try done.
    intros key' value' c s Hin'. apply Hrt. by right.
Qed.

(** X10.  [setDefaults] reads and writes only the entries of the fields of
    its argument: every other entry of every store, and the registry, are
    as before, and every call the stores received is a [getItem] or a
    [setItem] under the effective key of one of these fields (never a
    [removeItem]). *)
Theorem setDefaults_touches_only_its_fields this (body : BodyObject) w :
  let w' := (setDefaults accepts this body w).1 in
  (∀ s k, ¬ (s = storage this ∧
             ∃ key, key ∈ keys_of body ∧ k = effective_key this key) →
          items w' s !! k = items w s !! k) ∧
  takenKeys w' = takenKeys w ∧ heap w' = heap w ∧
  (∀ c, c ∈ new_calls w w' →
        ∃ key, key ∈ keys_of body ∧
          (c = Call_getItem (storage this) (effective_key this key) ∨
           ∃ v, c = Call_setItem (storage this) (effective_key this key) v)).
Proof.
  intros w'.
  destruct (setDefaults_touches accepts this body w) as (Hi & Ht & Hh & _).
  destruct (setDefaults_calls this body w) as (tr & Hc & Htr).
  repeat split; try done.
  intros c. fold w' in Hc. rewrite (new_calls_app _ _ _ Hc). apply Htr.
Qed.

(** X11.  [setDefaults] stops at the first field whose visit throws: the
    error reaches the caller, the stores are as the fields before it left
    them (nothing is rolled back), and no call is made for any field after
    it. *)
Theorem setDefaults_stops_at_failure this (body pre post : BodyObject)
    key (value : Body key) w w1 e :
  NoDup (keys_of body) →
  body = pre ++ existT key value :: post →
  setDefaults accepts this pre w = (w1, Normal tt) →
  (visit accepts this (existT key value) w1).2 = Throw e →
  let r := setDefaults accepts this body w in
  r.2 = Throw e ∧ stored r.1 = stored w1 ∧
  ∀ key', key' ∈ keys_of post →
    ∀ c, c ∈ new_calls w r.1 →
      c ≠ Call_getItem (storage this) (effective_key this key') ∧
      ∀ v, c ≠ Call_setItem (storage this) (effective_key this key') v.
Proof.
  intros Hnd -> Hpre Hthrow r.
  unfold keys_of in Hnd. rewrite fmap_app, fmap_cons in Hnd. cbn in Hnd.
  apply NoDup_app in Hnd as (_ & Hpre_post & [Hpost _]%NoDup_cons).
  assert (r = visit accepts this (existT key value) w1) as Hr.
  { subst r. rewrite setDefaults_app. unfold bind at 1. rewrite Hpre.
    rewrite setDefaults_cons. unfold bind.
    destruct (visit accepts this (existT key value) w1) as [w2 [[]|e']];
      [done|done]. }
  rewrite Hr. split; [done|]. split; [by eapply visit_thrown_stored|].
  intros key' Hin c Hc.
  pose proof (setDefaults_calls this pre w) as Hcpre. rewrite Hpre in Hcpre.
  pose proof (visit_calls this key value w1) as Hcv.
  cbn [fst] in Hcpre.
  assert (calls_only this (λ k, k ∈ keys_of pre ∨ k = key) w
            (visit accepts this (existT key value) w1).1) as (tr & Htr & Hshape).
  { eapply calls_only_trans; [| |exact Hcpre|exact Hcv]; cbn; [by left|by right]. }
  rewrite (new_calls_app _ _ _ Htr) in Hc.
  destruct (Hshape c Hc) as (k & Hk & Hcall).
  assert (k ≠ key') as Hne.
  { intros ->. destruct Hk as [Hk| ->].
    - apply (Hpre_post _ Hk). by right.
    - done. }
  assert (effective_key this k ≠ effective_key this key') as Hne'.
  { by intros ?%(inj (effective_key this)). }
  destruct Hcall as [->| [v ->]]; split; try intros v'; congruence.
Qed.

End SetDefaultsFurther.

(** ** Two instances on one store *)

Section TwoInstances.
Variable accepts : Storage → gmap string string → string → string → bool.
Context {Body1 Body2 : string → Type}.

(** X12.  Two instances constructed on the same store never share an
    effective key, so no [setItem], [removeItem] or [setDefaults] of the
    second changes what [getItem] of the first returns for any of its
    fields. *)
Theorem instances_do_not_interfere storage
    prefix1 (converters1 : @Converters Body1)
    prefix2 (converters2 : @Converters Body2)
    w0 w1 (this1 : @TypedStorage Body1) w w2 (this2 : @TypedStorage Body2) key1 :
  world_ok w0 →
  TypedStorage_new storage (inl prefix1) (Some converters1) w0 = (w1, Normal this1) →
  world_ok w → claimed w1 storage ⊆ claimed w storage →
  TypedStorage_new storage (inl prefix2) (Some converters2) w = (w2, Normal this2) →
  key1 ∈ Object_keys converters1 →
  (∀ key2, key2 ∈ Object_keys converters2 →
     effective_key this1 key1 ≠ effective_key this2 key2) ∧
  ∀ w',
    (∀ key2 (value : Body2 key2), key2 ∈ Object_keys converters2 →
       (getItem this1 key1 (setItem accepts this2 key2 value w').1).2
         = (getItem this1 key1 w').2 ∧
       (getItem this1 key1 (removeItem this2 key2 w').1).2
         = (getItem this1 key1 w').2) ∧
    (∀ body : BodyObject,
       (∀ key2, key2 ∈ keys_of body → key2 ∈ Object_keys converters2) →
       (getItem this1 key1 (setDefaults accepts this2 body w').1).2
         = (getItem this1 key1 w').2).
Proof.
  intros Hok0 Hnew1 Hok Hkept Hnew2 Hk1.
  destruct (TypedStorage_new_spec storage prefix1 converters1 w0 Hok0)
    as (w1' & Heq1 & _ & _ & _ & Hcl1 & _).
  rewrite Hnew1 in Heq1.
  destruct (claim_keys prefix1 (Object_keys converters1) (claimed w0 storage)).2
    eqn:E1; [by inversion Heq1|].
  inversion Heq1; subst w1' this1. clear Heq1.
  destruct (TypedStorage_new_spec storage prefix2 converters2 w Hok)
    as (w2' & Heq2 & _).
  rewrite Hnew2 in Heq2.
  destruct (claim_keys prefix2 (Object_keys converters2) (claimed w storage)).2
    eqn:E2; [by inversion Heq2|].
  inversion Heq2; subst w2' this2. clear Heq2.
  apply claim_keys_none in E2 as [Hfree _].
  assert (∀ key2, key2 ∈ Object_keys converters2 →
            prefix1 +:+ key1 ≠ prefix2 +:+ key2) as Hne.
  { intros key2 Hk2 Heq. apply (Hfree key2 Hk2). rewrite <- Heq.
    apply Hkept. rewrite Hcl1. by apply claim_keys_claims. }
  split; [exact Hne|].
  set (this1 := mkTypedStorage storage prefix1 converters1).
  set (this2 := mkTypedStorage storage prefix2 converters2).
  assert (∀ (K : string → Prop) w' w'',
    (∀ key2, K key2 → key2 ∈ Object_keys converters2) →
    touches_only this2 K w' w'' →
    (getItem this1 key1 w'').2 = (getItem this1 key1 w').2) as Hframe.
  { intros K w' w'' HK (Hi & _). apply getItem_same_entry. apply Hi.
    intros (_ & key2 & HK2 & Heq). by apply (Hne key2 (HK _ HK2)). }
  intros w'. split.
  - intros key2 value Hk2. split.
    + eapply Hframe; [|apply setItem_touches]. by intros ? ->.
    + eapply Hframe; [|apply removeItem_touches]. by intros ? ->.
  - intros body Hbody. eapply Hframe; [|apply setDefaults_touches]. done.
Qed.

End TwoInstances.

(** ** What the converters accept *)

(** X13.  The boolean, string and enumeration converters accept only the
    strings they write themselves: whatever [parse] returns, [stringify]
    writes back as the string that was parsed.  The boolean converter reads
    every string other than ["0"] and ["1"] as [null], and an enumeration
    converter every string that is not a member of its list. *)
Theorem simple_converters_accept_what_they_write :
  (∀ s b, parse booleanConverter s = Normal (Some b) →
          stringify booleanConverter b = Normal s) ∧
  (∀ s, s ≠ "0" → s ≠ "1" → parse booleanConverter s = Normal None) ∧
  (∀ s, ∃ v, parse stringConverter s = Normal (Some v) ∧
             stringify stringConverter v = Normal s) ∧
  (∀ enumTuple s v, parse (enumConverterFactory enumTuple) s = Normal (Some v) →
          v ∈ enumTuple ∧ stringify (enumConverterFactory enumTuple) v = Normal s) ∧
  (∀ enumTuple s, s ∉ enumTuple →
          parse (enumConverterFactory enumTuple) s = Normal None).
Proof.
  split; [|split; [|split; [|split]]].
  - intros s b. cbn.
    destruct (String.eqb_spec s "0") as [->|]; [by intros [= <-]|].
    destruct (String.eqb_spec s "1") as [->|]; [by intros [= <-]|]. done.
  - intros s H0 H1. cbn.
    destruct (String.eqb_spec s "0"); [done|].
    destruct (String.eqb_spec s "1"); done.
  - intros s. exists s. done.
  - intros enumTuple s v. cbn. case_bool_decide; [|done]. by intros [= <-].
  - intros enumTuple s Hs. cbn. by rewrite bool_decide_eq_false_2.
Qed.

(** ** What the integer converter reads *)

Lemma round_decimal_not_NaN c q : round_decimal c q ≠ NaN.
Proof.
  unfold round_decimal, round_ratio.
  repeat (case_match; try done).
Qed.

Lemma with_sign_not_NaN negative x : x ≠ NaN → with_sign negative x ≠ NaN.
Proof. by destruct negative, x. Qed.

Lemma span_digits_split l : ∀ ds rest,
  span_digits l = (ds, rest) → l = ds ++ rest ∧ all_digits ds.
Proof.
  induction l as [|c l IH]; intros ds rest; cbn.
  - intros [= <- <-]. split; [done|constructor].
  - destruct (is_digit c) eqn:Hc.
    + destruct (span_digits l) as [ds' rest'].
      destruct (IH ds' rest' eq_refl) as [-> Hds].
      intros [= <- <-]. split; [done|by constructor].
    + intros [= <- <-]. split; [done|constructor].
Qed.

Lemma read_sign_split l :
  ∃ sign, optional_sign sign ∧ l = sign ++ (read_sign l).2.
Proof.
  unfold optional_sign. destruct l as [|c l]; [by exists []; auto|]. cbn.
  destruct (Ascii.eqb_spec c "-") as [->|]; [exists ["-"%char]; auto|].
  destruct (Ascii.eqb_spec c "+") as [->|]; [exists ["+"%char]; auto|].
  exists []. auto.
Qed.

(** What [parseInt] makes of white space, an optional sign and a digit:
    the sign and the digits are read. *)
Lemma read_sign_trim_start ws sign d rest :
  white_space ws → optional_sign sign → is_digit d = true →
  read_sign (trim_start (ws ++ sign ++ d :: rest)) =
    (bool_decide (sign = ["-"%char]), d :: rest).
Proof.
  intros Hws Hsign Hd. rewrite trim_start_app by done.
  destruct (is_digit_cases d Hd) as (Hw & Hm & Hp & _).
  destruct Hsign as [->|[->| ->]]; cbn [app].
  - rewrite trim_start_None by apply Hw. cbn. by rewrite Hm, Hp.
  - by rewrite trim_start_None by apply skip_white_space_sign.
  - by rewrite trim_start_None by apply skip_white_space_sign.
Qed.

Lemma intConverter_reads_leading_digit string :
  has_leading_digit string →
  ∃ y, parse intConverter string = Normal (Some y) ∧ y ≠ NaN.
Proof.
  intros (ws & sign & d & rest & Hl & Hws & Hsign & Hd).
  cbn [parse intConverter]. unfold parseInt10.
  rewrite Hl, read_sign_trim_start by done.
  cbn [span_digits]. rewrite Hd.
  destruct (span_digits rest) as [ds rest'].
  pose proof (with_sign_not_NaN (bool_decide (sign = ["-"%char])) _
    (round_decimal_not_NaN (digits_value (d :: ds)) 0)) as Hnn.
  destruct (with_sign _ _) eqn:E; [done|..]; cbn; eauto.
Qed.

Lemma intConverter_null_without_digit string :
  ¬ has_leading_digit string → parse intConverter string = Normal None.
Proof.
  intros Hno. cbn [parse intConverter]. unfold parseInt10.
  destruct (trim_start_spec (list_ascii_of_string string)) as (ws & Hws & Hl & _).
  destruct (read_sign_split (trim_start (list_ascii_of_string string)))
    as (sign & Hsign & Hl1).
  destruct (read_sign _) as [negative l2]. cbn [snd] in Hl1.
  destruct (span_digits l2) as [ds rest] eqn:Hspan.
  apply span_digits_split in Hspan as [-> Hds].
  destruct ds as [|d ds]; [done|].
  destruct Hno. exists ws, sign, d, (ds ++ rest).
  apply Forall_cons in Hds as [Hd _].
  repeat split; try done. by rewrite Hl at 1; rewrite Hl1.
Qed.

(** X14.  The integer converter reads a string as [null] exactly when the
    string is not of the form: white space and line terminators (of
    Unicode), an optional sign, a decimal digit, anything.  It reads every
    string of that form as a Number, and never as NaN. *)
Theorem intConverter_parse_null_iff string :
  (parse intConverter string = Normal None ↔ ¬ has_leading_digit string) ∧
  (has_leading_digit string →
     ∃ y, parse intConverter string = Normal (Some y) ∧ y ≠ NaN).
Proof.
  split; [split|].
  - intros Hnull (y & Hy & _)%intConverter_reads_leading_digit. congruence.
  - apply intConverter_null_without_digit.
  - apply intConverter_reads_leading_digit.
Qed.

Lemma double_of_integer_positive n :
  0 < n < 2 ^ 53 →
  positive_double (n * 2 ^ (52 - Z.log2 n)) (Z.log2 n - 52) ∧
  0 <= Z.log2 n <= 52.
Proof.
  intros Hn.
  pose proof (Z.log2_nonneg n) as HL0.
  assert (Z.log2 n < 53) as HL by (apply Z.log2_lt_pow2; lia).
  pose proof (Z.log2_spec n ltac:(lia)) as [Hlo Hhi].
  set (L := Z.log2 n) in *.
  assert (0 < 2 ^ L) by (apply Z.pow_pos_nonneg; lia).
  assert (0 < 2 ^ (52 - L)) by (apply Z.pow_pos_nonneg; lia).
  assert (2 ^ 52 = 2 ^ L * 2 ^ (52 - L)) as H52.
  { rewrite <- Z.pow_add_r by lia. f_equal. lia. }
  assert (2 ^ 53 = 2 ^ Z.succ L * 2 ^ (52 - L)) as H53.
  { rewrite <- Z.pow_add_r by lia. f_equal. lia. }
  split; [|lia]. unfold positive_double.
  split; [|split; [lia|left]]; nia.
Qed.

Lemma round_decimal_double_of_integer n :
  0 <= n < 2 ^ 53 → round_decimal n 0 = double_of_integer n.
Proof.
  intros Hn. unfold double_of_integer.
  destruct (Z.eqb_spec n 0) as [->|Hn0]; [done|].
  destruct (double_of_integer_positive n ltac:(lia)) as [Hd HL].
  apply round_decimal_integer; [done|lia|].
  destruct (decide (Z.log2 n = 52)) as [HL52|HL52].
  - rewrite HL52. change (52 - 52) with 0. change (- 0) with 0.
    change (Z.max 0 0) with 0. rewrite Z.pow_0_r. lia.
  - simpl_max. replace (- (Z.log2 n - 52)) with (52 - Z.log2 n) by lia. lia.
Qed.

(** X15.  The integer converter reads an integer below [2^53] exactly, and
    with it any string that goes on after the digits with something that is
    not a digit, or that starts with white space or a sign: the text after
    the digits is ignored. *)
Theorem intConverter_parses_integer_prefix ws sign n suffix :
  white_space ws →
  sign = [] ∨ sign = ["+"%char] ∨ sign = ["-"%char] →
  0 <= n < 2 ^ 53 →
  no_digit_ahead suffix →
  parse intConverter (string_of_list_ascii (ws ++ sign ++ render n ++ suffix)) =
    Normal (Some (with_sign (bool_decide (sign = ["-"%char])) (double_of_integer n))) ∧
  integer_value (double_of_integer n) = Some n.
Proof.
  intros Hws Hsign Hn Hsuffix. split.
  - cbn [parse intConverter]. unfold parseInt10.
    rewrite list_ascii_of_string_of_list_ascii.
    pose proof (render_all_digits n) as Hds.
    pose proof (render_nonempty n) as Hne.
    pose proof (span_digits_app (render n) suffix Hds Hsuffix) as Hspan.
    pose proof (digits_value_render n ltac:(lia)) as Hval.
    pose proof (round_decimal_double_of_integer n Hn) as Hround.
    pose proof (with_sign_not_NaN (bool_decide (sign = ["-"%char])) _
                  (round_decimal_not_NaN n 0)) as Hnn.
    rewrite Hround in Hnn.
    destruct (render n) as [|c ds] eqn:E; [done|].
    pose proof Hds as [Hc _]%Forall_cons.
    cbn [app] in *.
    rewrite read_sign_trim_start, Hspan, Hval, Hround by done.
    by destruct (with_sign _ _).
  - unfold double_of_integer.
    destruct (Z.eqb_spec n 0) as [->|Hn0]; [done|].
    destruct (double_of_integer_positive n ltac:(lia)) as [_ HL].
    cbn [integer_value].
    assert (0 < 2 ^ (52 - Z.log2 n)) by (apply Z.pow_pos_nonneg; lia).
    destruct (Z.leb_spec 0 (Z.log2 n - 52)).
    + replace (Z.log2 n - 52) with 0 by lia.
      replace (52 - Z.log2 n) with 0 by lia. f_equal. cbn. lia.
    + replace (- (Z.log2 n - 52)) with (52 - Z.log2 n) by lia.
      rewrite Z.mod_mul, Z.div_mul by lia. cbn. f_equal. lia.
Qed.

(** An em space (U+2003), a sign and trailing text around the digits of
    42. *)
Lemma intConverter_parses_integer_prefix_witness :
  white_space (utf8 0x2003) ∧
  (["-"%char] = [] ∨ ["-"%char] = ["+"%char] ∨ ["-"%char] = ["-"%char]) ∧
  0 <= 42 < 2 ^ 53 ∧
  no_digit_ahead (list_ascii_of_string "abc") ∧
  parse intConverter
    (string_of_list_ascii
       (utf8 0x2003 ++ ["-"%char] ++ render 42 ++ list_ascii_of_string "abc")) =
    Normal (Some (with_sign (bool_decide (["-"%char] = ["-"%char]))
                    (double_of_integer 42))) ∧
  integer_value (double_of_integer 42) = Some 42.
Proof.
  assert (white_space (utf8 0x2003)) as H1.
  { rewrite <- (app_nil_r (utf8 0x2003)).
    apply white_space_cons; [|apply white_space_nil].
    apply (bool_decide_unpack (0x2003 ∈ WhiteSpace ++ LineTerminator)).
    reflexivity. }
  assert (["-"%char] = [] ∨ ["-"%char] = ["+"%char] ∨ ["-"%char] = ["-"%char])
    as H2 by (right; right; reflexivity).
  assert (0 <= 42 < 2 ^ 53) as H3 by (split; [discriminate|reflexivity]).
  assert (no_digit_ahead (list_ascii_of_string "abc")) as H4 by reflexivity.
  do 4 (split; [assumption|]).
  exact (intConverter_parses_integer_prefix (utf8 0x2003) ["-"%char] 42
           (list_ascii_of_string "abc") H1 H2 H3 H4).
Defined.

(** X16.  Whatever the integer converter reads is an integer or an
    infinity: it never returns a Number with a fractional part. *)
Theorem intConverter_parse_is_integer string y :
  parse intConverter string = Normal (Some y) →
  (∃ negative, y = Infinity negative) ∨ is_Some (integer_value y).
Proof.
  cbn [parse intConverter]. unfold parseInt10.
  destruct (read_sign _) as [negative l].
  destruct (span_digits l) as [ds rest].
  destruct ds as [|c ds]; [done|].
  set (N := digits_value (c :: ds)).
  pose proof (digits_value_nonneg (c :: ds)) as HN. fold N in HN.
  assert ((∃ s, round_decimal N 0 = Infinity s) ∨
          ∃ s m e, round_decimal N 0 = Finite s m e ∧
                   (0 <= e ∨ m mod 2 ^ (- e) = 0)) as Hround.
  { unfold round_decimal.
    destruct (Z.eqb_spec N 0) as [->|HN0].
    { right. exists false, 0, (-1074). split; [done|]. right. done. }
    change (0 <=? 0) with true. cbn iota. rewrite Z.pow_0_r, Z.mul_1_r.
    unfold round_ratio.
    assert (binade N 1 = Z.log2 N) as ->.
    { apply binade_unique; [lia|lia|].
      pose proof (Z.log2_nonneg N). simpl_max.
      pose proof (Z.log2_spec N ltac:(lia)) as [? Hhi].
      rewrite Z.pow_succ_r in Hhi by done. lia. }
    pose proof (Z.log2_nonneg N) as HL.
    pose proof (Z.log2_spec N ltac:(lia)) as [Hlo Hhi].
    set (L := Z.log2 N) in *.
    replace (Z.max (L - 52) (-1074)) with (L - 52) by lia.
    destruct (Z.le_gt_cases 0 (L - 52)) as [He|He].
    - set (m := round_half_even _ _).
      destruct (m =? 2 ^ 53); destruct (971 <? _); eauto 10 with lia.
    - simpl_max. rewrite Z.mul_1_l.
      assert (0 < 2 ^ (- (L - 52))) as Hp by (apply Z.pow_pos_nonneg; lia).
      assert (round_half_even (N * 2 ^ (- (L - 52))) 1 = N * 2 ^ (- (L - 52)))
        as ->.
      { rewrite <- (Z.mul_1_r (N * _)) at 1. by apply round_half_even_exact. }
      assert (2 ^ 53 = 2 ^ Z.succ L * 2 ^ (- (L - 52))) as H53.
      { rewrite <- Z.pow_add_r by lia. f_equal. lia. }
      assert ((N * 2 ^ (- (L - 52)) =? 2 ^ 53) = false) as -> by nia.
      assert ((971 <? L - 52) = false) as -> by lia.
      right. eexists _, _, _. split; [done|]. right. by apply Z.mod_mul; lia. }
  destruct (Number_isNaN _) eqn:Hnan; [done|]. intros [= <-].
  destruct Hround as [[s ->]|(s & m & e & -> & Hint)].
  - left. destruct negative; cbn; eauto.
  - right. assert (is_Some (integer_value (Finite (if negative then negb s else s) m e)))
      as Hsome.
    { cbn. destruct (Z.leb_spec 0 e); [by eexists|].
      destruct Hint as [Hint|Hint]; [lia|]. rewrite Hint. cbn. by eexists. }
    by destruct negative.
Qed.

(** What the converter reads from ["7.9 apples"]. *)
Lemma intConverter_parse_is_integer_witness :
  parse intConverter "7.9 apples" = Normal (Some (double_of_integer 7)) ∧
  ((∃ negative, double_of_integer 7 = Infinity negative) ∨
   is_Some (integer_value (double_of_integer 7))).
Proof.
  assert (parse intConverter "7.9 apples" = Normal (Some (double_of_integer 7)))
    as H by (vm_compute; reflexivity).
  split; [exact H|].
  exact (intConverter_parse_is_integer "7.9 apples" (double_of_integer 7) H).
Defined.

(** ** Distinct values, distinct strings *)

(** X17.  The float converter writes different Numbers as different
    strings (the two zeros, which are equal, both as ["0"]), and the ISO
    date converter writes different valid Dates as different strings: a
    stored string determines the value that was written. *)
Theorem stringify_distinguishes_values
    (host_Date_parse : string → Date) (x y : Number) (t u : Z) :
  is_double x = true → x ≠ NaN → is_double y = true → y ≠ NaN →
  is_date (Date_at t) = true → is_date (Date_at u) = true →
  (stringify floatConverter x = stringify floatConverter y →
     Number_equal x y = true) ∧
  (stringify (isoDateConverter host_Date_parse) (Date_at t) =
     stringify (isoDateConverter host_Date_parse) (Date_at u) → t = u).
Proof.
  intros Hx Hxn Hy Hyn Ht Hu. split.
  - intros Heq.
    destruct (floatConverter_round_trip x Hx Hxn) as (s & x' & Hs & Hp & Hex & Hx').
    destruct (floatConverter_round_trip y Hy Hyn) as (s' & y' & Hs' & Hp' & Hey & Hy').
    rewrite Heq, Hs' in Hs. injection Hs as ->.
    rewrite Hp' in Hp. injection Hp as ->.
    clear -Hex Hey.
    destruct x as [|sx|sx mx ex], y as [|sy|sy my ey], x' as [|sz|sz mz ez];
      try done; cbn in *; repeat case_bool_decide; subst; try done; lia.
  - intros Heq.
    destruct (isoDateConverter_round_trip host_Date_parse t Ht) as (s & Hs & Hp).
    destruct (isoDateConverter_round_trip host_Date_parse u Hu) as (s' & Hs' & Hp').
    rewrite Heq, Hs' in Hs. injection Hs as ->.
    rewrite Hp' in Hp. by injection Hp as ->.
Qed.

(** The Numbers 1.5 and 42, and the dates 0 and 1700000000123. *)
Lemma stringify_distinguishes_values_witness :
  is_double one_and_a_half = true ∧ one_and_a_half ≠ NaN ∧
  is_double forty_two = true ∧ forty_two ≠ NaN ∧
  is_date (Date_at 0) = true ∧ is_date (Date_at 1700000000123) = true ∧
  (stringify floatConverter one_and_a_half = stringify floatConverter forty_two →
     Number_equal one_and_a_half forty_two = true) ∧
  (stringify (isoDateConverter no_host_formats) (Date_at 0) =
     stringify (isoDateConverter no_host_formats) (Date_at 1700000000123) →
   0 = 1700000000123).
Proof.
  assert (is_double one_and_a_half = true) as H1 by reflexivity.
  assert (one_and_a_half ≠ NaN) as H2 by discriminate.
  assert (is_double forty_two = true) as H3 by reflexivity.
  assert (forty_two ≠ NaN) as H4 by discriminate.
  assert (is_date (Date_at 0) = true) as H5 by reflexivity.
  assert (is_date (Date_at 1700000000123) = true) as H6 by reflexivity.
  do 6 (split; [assumption|]).
  exact (stringify_distinguishes_values no_host_formats one_and_a_half forty_two
           0 1700000000123 H1 H2 H3 H4 H5 H6).
Defined.

(** ** Defaults never replace a value *)

Section DefaultsKeep.
Variable accepts : Storage → gmap string string → string → string → bool.
Context {Body : string → Type}.
Implicit Types (this : @TypedStorage Body) (w : World) (key : string).

Lemma setDefaults_keeps_entry this (body : BodyObject) key : ∀ w,
  NoDup (keys_of body) →
  (hasItem this key w).2 = Normal true →
  items (setDefaults accepts this body w).1 (storage this) !! effective_key this key
    = items w (storage this) !! effective_key this key.
Proof.
  induction body as [|[key0 value] body IH]; intros w Hnd Hhas; [done|].
  apply NoDup_cons in Hnd as [Hkey0 Hnd].
  rewrite setDefaults_cons. unfold bind.
  assert (items (visit accepts this (existT key0 value) w).1 (storage this)
            !! effective_key this key
          = items w (storage this) !! effective_key this key) as Hvisit.
  { destruct (decide (key0 = key)) as [->|Hne].
    - rewrite visit_unfold.
      pose proof (getItem_touches this key w (λ _, False)) as [(Hi & _) _].
      rewrite hasItem_unfold in Hhas |- *.
      destruct (getItem this key w) as [w1 [v|e]]; cbn [fst snd] in *; [|done].
      injection Hhas as ->. cbn. apply Hi. by intros (_ & ? & [] & _).
    - pose proof (visit_touches accepts this key0 value w) as (Hi & _).
      apply Hi. intros (_ & ? & -> & ?%(inj (effective_key this))). done. }
  destruct (visit accepts this (existT key0 value) w) as [w1 [[]|e]];
    cbn [fst snd] in *; [|done].
  rewrite IH; [done|done|].
  rewrite <- Hhas. by apply hasItem_same_entry.
Qed.

(** X18.  [setDefaults] never replaces a value that can be read: for a field
    for which [hasItem] is true before the call, [getItem] returns after the
    call what it returned before, whatever the defaults say and however the
    call ends. *)
Theorem setDefaults_keeps_readable_values this (body : BodyObject) key w :
  NoDup (keys_of body) →
  (hasItem this key w).2 = Normal true →
  let w' := (setDefaults accepts this body w).1 in
  (getItem this key w').2 = (getItem this key w).2 ∧
  (hasItem this key w').2 = Normal true.
Proof.
  intros Hnd Hhas w'.
  pose proof (setDefaults_keeps_entry this body key w Hnd Hhas) as Hentry.
  fold w' in Hentry. split.
  - by apply getItem_same_entry.
  - rewrite <- Hhas. by apply hasItem_same_entry.
Qed.

End DefaultsKeep.

(** ** The further properties on concrete inputs *)

Lemma claimed_initial_world s : claimed initial_world s = ∅.
Proof. unfold claimed. cbn. by rewrite lookup_empty. Qed.

Lemma claimed_world_b : claimed world_b localStorage = {["b"]}.
Proof.
  destruct (TypedStorage_new_spec localStorage ""
    (uniform_schema stringConverter ["b"]) initial_world initial_world_ok)
    as (w' & Heq & _ & _ & _ & Hcl & _).
  unfold world_b.
  change (TypedStorage_new localStorage (inr ?c) None) with
    (TypedStorage_new localStorage (inl "") (Some c)).
  rewrite Heq. cbn [fst]. rewrite Hcl, claimed_initial_world. cbn.
  rewrite bool_decide_eq_false_2 by set_solver. cbn. set_solver.
Qed.

(** [{x: booleanConverter}] with prefix ["p_"] in a fresh page. *)
Lemma construction_succeeds_iff_keys_free_witness :
  let converters := uniform_schema booleanConverter ["x"] in
  let r := TypedStorage_new localStorage (inl "p_") (Some converters) initial_world in
  world_ok initial_world ∧ NoDup (Object_keys converters) ∧
  ((∃ this, r.2 = Normal this) ↔
     ∀ key, key ∈ Object_keys converters →
            "p_" +:+ key ∉ claimed initial_world localStorage) ∧
  (∀ this, r.2 = Normal this →
     this = mkTypedStorage localStorage "p_" converters ∧
     claimed r.1 localStorage =
       effective_keys "p_" (Object_keys converters) ∪
       claimed initial_world localStorage).
Proof.
  intros converters r.
  assert (NoDup (Object_keys converters)) as H by apply NoDup_singleton.
  split; [exact initial_world_ok|]. split; [exact H|].
  exact (construction_succeeds_iff_keys_free localStorage "p_" converters
           initial_world initial_world_ok H).
Defined.

(** The construction of [{a, b}] with ["b"] claimed. *)
Lemma construction_reports_first_taken_key_witness :
  let converters := uniform_schema stringConverter ["a"; "b"] in
  world_ok world_b ∧
  Object_keys converters = ["a"] ++ "b" :: [] ∧
  NoDup ["a"] ∧
  (∀ key', key' ∈ ["a"] → "" +:+ key' ∉ claimed world_b localStorage) ∧
  "" +:+ "b" ∈ claimed world_b localStorage ∧
  (TypedStorage_new localStorage (inl "") (Some converters) world_b).2 =
    Throw (Error ("the key " +:+ quote +:+ ("" +:+ "b") +:+ quote +:+ " from "
                  +:+ getStorageName localStorage +:+ " is already taken.")).
Proof.
  intros converters.
  assert (Object_keys converters = ["a"] ++ "b" :: []) as H1 by reflexivity.
  assert (NoDup ["a"]) as H2 by apply NoDup_singleton.
  assert (∀ key', key' ∈ ["a"] → "" +:+ key' ∉ claimed world_b localStorage) as H3.
  { intros key' ->%list_elem_of_singleton. rewrite claimed_world_b.
    by intros ?%elem_of_singleton. }
  assert ("" +:+ "b" ∈ claimed world_b localStorage) as H4.
  { rewrite claimed_world_b. by apply elem_of_singleton. }
  split; [exact world_b_ok|]. do 4 (split; [assumption|]).
  exact (construction_reports_first_taken_key localStorage "" converters
           ["a"] "b" [] world_b world_b_ok H1 H2 H3 H4).
Defined.

(** The failed construction of [{a, b}] with ["b"] claimed keeps the
    registry. *)
Lemma construction_keeps_registry_witness :
  let w' := construct_ab.1 in
  world_ok world_b ∧
  world_ok w' ∧ (∀ s, claimed world_b s ⊆ claimed w' s) ∧
  stored w' = stored world_b ∧ calls w' = calls world_b.
Proof.
  split; [exact world_b_ok|].
  exact (construction_keeps_registry localStorage
           (inr (uniform_schema stringConverter ["a"; "b"])) None world_b
           world_b_ok).
Defined.

(** [localStorage] and [sessionStorage] in a fresh page. *)
Lemma getTakenKey_one_set_per_storage_witness :
  world_ok initial_world ∧ localStorage ≠ sessionStorage ∧
  ∃ w1 set w2 set',
    getTakenKey localStorage initial_world = (w1, Normal set) ∧
    getTakenKey localStorage w1 = (w1, Normal set) ∧
    getTakenKey sessionStorage w1 = (w2, Normal set') ∧
    set ≠ set' ∧
    getTakenKey localStorage w2 = (w2, Normal set).
Proof.
  assert (localStorage ≠ sessionStorage) as H by discriminate.
  split; [exact initial_world_ok|]. split; [exact H|].
  exact (getTakenKey_one_set_per_storage localStorage sessionStorage
           initial_world initial_world_ok H).
Defined.

(** [setItem("flag", false)] on the instance [{flag: booleanConverter}]. *)
Lemma setItem_then_getItem_witness :
  let w1 := (setItem accepts_all flag_storage "flag" false flag_world).1 in
  prop (converters flag_storage) "flag" = Some booleanConverter ∧
  stringify booleanConverter false = Normal "0" ∧
  parse booleanConverter "0" = Normal (Some false) ∧
  accepts_all localStorage (items flag_world localStorage) "flag" "0" = true ∧
  (setItem accepts_all flag_storage "flag" false flag_world).2 = Normal tt ∧
  items w1 localStorage !! "flag" = Some "0" ∧
  (getItem flag_storage "flag" w1).2 = Normal (Some false) ∧
  (hasItem flag_storage "flag" w1).2 = Normal true.
Proof.
  intros w1.
  assert (prop (converters flag_storage) "flag" = Some booleanConverter) as H1
    by reflexivity.
  assert (stringify booleanConverter false = Normal "0") as H2 by reflexivity.
  assert (parse booleanConverter "0" = Normal (Some false)) as H3 by reflexivity.
  assert (accepts_all localStorage (items flag_world localStorage) "flag" "0"
          = true) as H4 by reflexivity.
  do 4 (split; [assumption|]).
  exact (setItem_then_getItem accepts_all flag_storage "flag" false
           booleanConverter "0" false flag_world H1 H2 H3 H4).
Defined.

(** [setItem("flag", true)] on a full store. *)
Lemma setItem_failure_changes_nothing_witness :
  let r := setItem store_full flag_storage "flag" true flag_world in
  prop (converters flag_storage) "flag" = Some booleanConverter ∧
  stringify booleanConverter true = Normal "1" ∧
  store_full localStorage (items flag_world localStorage) "flag" "1" = false ∧
  r.2 = Throw QuotaExceededError ∧
  calls r.1 = calls flag_world ++ [Call_setItem localStorage "flag" "1"] ∧
  stored r.1 = stored flag_world.
Proof.
  intros r.
  assert (prop (converters flag_storage) "flag" = Some booleanConverter) as H1
    by reflexivity.
  assert (stringify booleanConverter true = Normal "1") as H2 by reflexivity.
  assert (store_full localStorage (items flag_world localStorage) "flag" "1"
          = false) as H3 by reflexivity.
  do 3 (split; [assumption|]).
  destruct (setItem_failure_changes_nothing store_full flag_storage "flag" true
              booleanConverter flag_world H1) as (Hkeep & _ & Hquota).
  destruct (Hquota "1" H2 H3) as [Hthrow Hcalls].
  split; [exact Hthrow|]. split; [exact Hcalls|].
  exact (proj1 (Hkeep QuotaExceededError Hthrow)).
Defined.

(** The key ["other"] on the instance [{flag: booleanConverter}]. *)
Lemma methods_without_converter_witness :
  prop (converters flag_storage) "other" = None ∧
  (items flag_world localStorage !! "other" = None →
     (getItem flag_storage "other" flag_world).2 = Normal None) ∧
  (is_Some (items flag_world localStorage !! "other") →
     ∃ msg, (getItem flag_storage "other" flag_world).2 = Throw (TypeError msg)) ∧
  ∃ msg, setItem accepts_all flag_storage "other" true flag_world
         = (flag_world, Throw (TypeError msg)).
Proof.
  assert (prop (converters flag_storage) "other" = None) as H
    by (vm_compute; reflexivity).
  split; [exact H|].
  exact (methods_without_converter accepts_all flag_storage "other" true
           flag_world H).
Defined.

Lemma boolean_schema_round_trips keys prefix (body : @BodyObject (λ _, bool)) :
  round_trips (mkTypedStorage localStorage prefix
                 (uniform_schema booleanConverter keys)) body.
Proof.
  intros key value c s _. cbn. case_bool_decide; [|done].
  intros [= <-]. destruct value; intros [= <-]; cbn; eauto.
Qed.

(** [setDefaults({a: false, b: true})] on the empty store. *)
Lemma setDefaults_sets_every_field_witness :
  let w' := (setDefaults accepts_all pair_storage pair_defaults pair_world).1 in
  NoDup (keys_of pair_defaults) ∧
  setDefaults accepts_all pair_storage pair_defaults pair_world = (w', Normal tt) ∧
  round_trips pair_storage pair_defaults ∧
  ∀ key, key ∈ keys_of pair_defaults →
    (hasItem pair_storage key w').2 = Normal true ∧
    ∃ v, (getItem pair_storage key w').2 = Normal (Some v).
Proof.
  intros w'.
  assert (NoDup (keys_of pair_defaults)) as H1.
  { apply NoDup_cons. split; [|apply NoDup_singleton].
    by intros ?%list_elem_of_singleton. }
  assert (setDefaults accepts_all pair_storage pair_defaults pair_world
          = (w', Normal tt)) as H2 by (vm_compute; reflexivity).
  assert (round_trips pair_storage pair_defaults) as H3
    by apply boolean_schema_round_trips.
  do 3 (split; [assumption|]).
  exact (setDefaults_sets_every_field accepts_all pair_storage pair_defaults
           pair_world w' H1 H2 H3).
Defined.

(** [setDefaults({a: false, b: true})] on a full store: the write of [a]
    is refused and [b] is never visited. *)
Lemma setDefaults_stops_at_failure_witness :
  let r := setDefaults store_full pair_storage pair_defaults pair_world in
  NoDup (keys_of pair_defaults) ∧
  pair_defaults = [] ++ existT "a" false :: [existT "b" true] ∧
  setDefaults store_full pair_storage [] pair_world = (pair_world, Normal tt) ∧
  (visit store_full pair_storage (existT "a" false) pair_world).2
    = Throw QuotaExceededError ∧
  r.2 = Throw QuotaExceededError ∧ stored r.1 = stored pair_world ∧
  ∀ key', key' ∈ ["b"] →
    ∀ c, c ∈ new_calls pair_world r.1 →
      c ≠ Call_getItem localStorage (effective_key pair_storage key') ∧
      ∀ v, c ≠ Call_setItem localStorage (effective_key pair_storage key') v.
Proof.
  intros r.
  assert (NoDup (keys_of pair_defaults)) as H1.
  { apply NoDup_cons. split; [|apply NoDup_singleton].
    by intros ?%list_elem_of_singleton. }
  assert (pair_defaults = [] ++ existT "a" false :: [existT "b" true]) as H2
    by reflexivity.
  assert (setDefaults store_full pair_storage [] pair_world
          = (pair_world, Normal tt)) as H3 by reflexivity.
  assert ((visit store_full pair_storage (existT "a" false) pair_world).2
          = Throw QuotaExceededError) as H4 by (vm_compute; reflexivity).
  do 4 (split; [assumption|]).
  exact (setDefaults_stops_at_failure store_full pair_storage pair_defaults
           [] [existT "b" true] "a" false pair_world pair_world
           QuotaExceededError H1 H2 H3 H4).
Defined.

(** Prefix ["a"] with field ["bc"], then prefix ["b"] with field ["c"]. *)
Lemma instances_do_not_interfere_witness :
  let converters1 := uniform_schema stringConverter ["bc"] in
  let converters2 := uniform_schema stringConverter ["c"] in
  let this1 := mkTypedStorage localStorage "a" converters1 in
  let this2 := mkTypedStorage localStorage "b" converters2 in
  let first := TypedStorage_new localStorage (inl "a") (Some converters1) initial_world in
  let second := TypedStorage_new localStorage (inl "b") (Some converters2) first.1 in
  world_ok initial_world ∧
  first = (first.1, Normal this1) ∧
  world_ok first.1 ∧ claimed first.1 localStorage ⊆ claimed first.1 localStorage ∧
  second = (second.1, Normal this2) ∧
  "bc" ∈ Object_keys converters1 ∧
  (∀ key2, key2 ∈ Object_keys converters2 →
     effective_key this1 "bc" ≠ effective_key this2 key2) ∧
  ∀ w',
    (∀ key2 (value : string), key2 ∈ Object_keys converters2 →
       (getItem this1 "bc" (setItem accepts_all this2 key2 value w').1).2
         = (getItem this1 "bc" w').2 ∧
       (getItem this1 "bc" (removeItem this2 key2 w').1).2
         = (getItem this1 "bc" w').2) ∧
    (∀ body : BodyObject,
       (∀ key2, key2 ∈ keys_of body → key2 ∈ Object_keys converters2) →
       (getItem this1 "bc" (setDefaults accepts_all this2 body w').1).2
         = (getItem this1 "bc" w').2).
Proof.
  intros converters1 converters2 this1 this2 first second.
  assert (first = (first.1, Normal this1)) as H1 by (vm_compute; reflexivity).
  assert (world_ok first.1) as H2.
  { destruct (TypedStorage_new_spec localStorage "a" converters1 initial_world
      initial_world_ok) as (w' & Heq & Hok & _).
    subst first. by rewrite Heq. }
  assert (claimed first.1 localStorage ⊆ claimed first.1 localStorage) as H3
    by reflexivity.
  assert (second = (second.1, Normal this2)) as H4 by (vm_compute; reflexivity).
  assert ("bc" ∈ Object_keys converters1) as H5 by (by left).
  split; [exact initial_world_ok|]. do 5 (split; [assumption|]).
  exact (instances_do_not_interfere accepts_all localStorage
           "a" converters1 "b" converters2
           initial_world first.1 this1 first.1 second.1 this2 "bc"
           initial_world_ok H1 H2 H3 H4 H5).
Defined.

(** [setDefaults({flag: true})] after [setDefaults({flag: false})]. *)
Lemma setDefaults_keeps_readable_values_witness :
  let w := (setDefaults accepts_all flag_storage (flag_defaults false) flag_world).1 in
  let w' := (setDefaults accepts_all flag_storage (flag_defaults true) w).1 in
  NoDup (keys_of (flag_defaults true)) ∧
  (hasItem flag_storage "flag" w).2 = Normal true ∧
  (getItem flag_storage "flag" w').2 = (getItem flag_storage "flag" w).2 ∧
  (hasItem flag_storage "flag" w').2 = Normal true.
Proof.
  intros w w'.
  assert (NoDup (keys_of (flag_defaults true))) as H1 by apply NoDup_singleton.
  assert ((hasItem flag_storage "flag" w).2 = Normal true) as H2
    by (vm_compute; reflexivity).
  do 2 (split; [assumption|]).
  exact (setDefaults_keeps_readable_values accepts_all flag_storage
           (flag_defaults true) "flag" w H1 H2).
Defined.

(** ** What the float and the date converter read can be written again *)

Lemma binade_bracket n d :
  0 < n → 0 < d →
  let b := binade n d in
  d * 2 ^ Z.max 0 b <= n * 2 ^ Z.max 0 (- b) < 2 * d * 2 ^ Z.max 0 b.
Proof.
  intros Hn Hd b. subst b. unfold binade.
  set (K := Z.log2 d + 1).
  assert (0 < K) as HK by (pose proof (Z.log2_nonneg d); lia).
  assert (d < 2 ^ K) as HdK by (apply Z.log2_spec; lia).
  assert (0 < 2 ^ K) as HK2 by (apply Z.pow_pos_nonneg; lia).
  set (N := n * 2 ^ K / d).
  assert (N * d <= n * 2 ^ K < (N + 1) * d) as HN.
  { subst N. pose proof (Z.div_mod (n * 2 ^ K) d ltac:(lia)).
    pose proof (Z.mod_pos_bound (n * 2 ^ K) d Hd). nia. }
  assert (0 < N) as HN0 by nia.
  set (L := Z.log2 N).
  assert (0 <= L) as HL by apply Z.log2_nonneg.
  assert (2 ^ L <= N < 2 ^ (L + 1)) as HLs.
  { rewrite Z.add_1_r. by apply Z.log2_spec. }
  assert (0 < 2 ^ L) as HL2 by (apply Z.pow_pos_nonneg; lia).
  rewrite Z.add_1_r, Z.pow_succ_r in HLs by lia.
  destruct (Z.le_gt_cases K L) as [Hb|Hb].
  - simpl_max.
    assert (2 ^ L = 2 ^ K * 2 ^ (L - K)) as HLK.
    { rewrite <- Z.pow_add_r by lia. f_equal. lia. }
    assert (0 < 2 ^ (L - K)) by (apply Z.pow_pos_nonneg; lia).
    nia.
  - simpl_max.
    assert (2 ^ K = 2 ^ L * 2 ^ (- (L - K))) as HLK.
    { rewrite <- Z.pow_add_r by lia. f_equal. lia. }
    assert (0 < 2 ^ (- (L - K))) by (apply Z.pow_pos_nonneg; lia).
    nia.
Qed.

Lemma round_half_even_bounds N D A B :
  0 < D → A * D <= N < B * D → A <= round_half_even N D <= B.
Proof.
  intros HD HN. unfold round_half_even.
  pose proof (Z.div_mod N D ltac:(lia)).
  pose proof (Z.mod_pos_bound N D HD).
  assert (A <= N / D < B) by nia.
  destruct (2 * (N mod D) ?= D); [destruct (Z.even _)|..]; lia.
Qed.

(** The Number value of a positive rational is a double. *)
Lemma round_ratio_is_double n d :
  0 < n → 0 < d → is_double (round_ratio n d) = true.
Proof.
  intros Hn Hd. unfold round_ratio.
  pose proof (binade_bracket n d Hn Hd) as Hb. cbn zeta in Hb.
  set (b := binade n d) in *.
  set (e := Z.max (b - 52) (-1074)).
  set (m := round_half_even _ _).
  assert (0 < 2 ^ Z.max 0 e) as HQ by (apply Z.pow_pos_nonneg; lia).
  assert (0 < 2 ^ Z.max 0 (- e)) as HP by (apply Z.pow_pos_nonneg; lia).
  assert (0 <= m <= 2 ^ 53 ∧ (2 ^ 52 <= m ∨ e = -1074)) as [Hm Hnorm].
  { destruct (Z.le_gt_cases (-1074) (b - 52)) as [He|He].
    - assert (e = b - 52) as Hee by lia.
      enough (2 ^ 52 <= m <= 2 ^ 53) by lia.
      apply round_half_even_bounds; [nia|].
      clearbody e b. subst e. clear m HQ HP.
      destruct (Z.le_gt_cases 52 b) as [H52|H52].
      + simpl_max.
        assert (2 ^ b = 2 ^ 52 * 2 ^ (b - 52)) as Hs.
        { rewrite <- Z.pow_add_r by lia. f_equal. lia. }
        change (2 ^ 53) with (2 * 2 ^ 52). nia.
      + destruct (Z.le_gt_cases 0 b) as [H0|H0].
        * simpl_max.
          assert (2 ^ 52 = 2 ^ b * 2 ^ (- (b - 52))) as Hs.
          { rewrite <- Z.pow_add_r by lia. f_equal. lia. }
          assert (0 < 2 ^ b) by (apply Z.pow_pos_nonneg; lia).
          assert (0 < 2 ^ (- (b - 52))) by (apply Z.pow_pos_nonneg; lia).
          change (2 ^ 53) with (2 * 2 ^ 52). rewrite Hs. nia.
        * simpl_max.
          assert (2 ^ (- (b - 52)) = 2 ^ 52 * 2 ^ (- b)) as Hs.
          { rewrite <- Z.pow_add_r by lia. f_equal. lia. }
          change (2 ^ 53) with (2 * 2 ^ 52). rewrite Hs. nia.
    - assert (e = -1074) as Hee by lia.
      enough (0 <= m <= 2 ^ 52) by (change (2 ^ 53) with (2 * 2 ^ 52); lia).
      apply round_half_even_bounds; [nia|].
      rewrite Hee. clearbody b. clear m HQ HP e Hee.
      change (Z.max 0 (- -1074)) with 1074. change (Z.max 0 (-1074)) with 0.
      rewrite Z.pow_0_r. simpl_max.
      assert (0 < 2 ^ 1074) by (by apply Z.pow_pos_nonneg).
      split; [nia|].
      destruct (Z.le_gt_cases (-1074) b) as [Hlow|Hlow].
      + assert (2 ^ 1074 = 2 ^ (- b) * 2 ^ (1074 + b)) as Hs.
        { rewrite <- Z.pow_add_r by lia. f_equal. lia. }
        assert (2 ^ (1074 + b) <= 2 ^ 51) by (apply Z.pow_le_mono_r; lia).
        assert (0 < 2 ^ (1074 + b)) by (apply Z.pow_pos_nonneg; lia).
        change (2 ^ 52) with (2 * 2 ^ 51). rewrite Hs. nia.
      + assert (2 ^ 1074 <= 2 ^ (- b)) by (apply Z.pow_le_mono_r; lia).
        assert (0 < 2 ^ 52) by done. nia. }
  assert (-1074 <= e) by (subst e; lia).
  clearbody m e. unfold is_double.
  destruct (m =? 2 ^ 53) eqn:Hm53; destruct (971 <? _) eqn:He971; try done.
  - change (2 ^ 52 <? 2 ^ 53) with true. change (2 ^ 52 <=? 2 ^ 52) with true.
    change (0 <=? 2 ^ 52) with true. cbn [andb orb]. lia.
  - assert (2 ^ 52 = 4503599627370496) as E52 by reflexivity.
    assert (2 ^ 53 = 9007199254740992) as E53 by reflexivity.
    rewrite E52, E53 in *. lia.
Qed.

Lemma round_decimal_is_double c q :
  0 <= c → is_double (round_decimal c q) = true.
Proof.
  intros Hc. unfold round_decimal.
  destruct (c =? 0) eqn:E; [done|].
  destruct (0 <=? q) eqn:Hq; apply round_ratio_is_double; lia.
Qed.

Lemma with_sign_is_double negative x :
  is_double x = true → is_double (with_sign negative x) = true.
Proof. by destruct negative, x. Qed.

(** [parseFloat] returns a double, whatever the string. *)
Lemma parseFloat_is_double string : is_double (parseFloat string) = true.
Proof.
  unfold parseFloat.
  destruct (read_sign _) as [negative l].
  destruct (starts_with _ l); [done|].
  unfold read_decimal.
  destruct (span_digits l) as [int rest].
  destruct (match rest with
            | [] => ([], [])
            | c :: rest' => if Ascii.eqb c "." then span_digits rest' else ([], rest)
            end) as [frac rest'].
  assert (is_double (with_sign negative
            (round_decimal (digits_value (int ++ frac))
               (read_exponent rest' - Z.of_nat (length frac)))) = true) as H.
  { apply with_sign_is_double, round_decimal_is_double, digits_value_nonneg. }
  by destruct int, frac.
Qed.

(** X19.  Whatever the float converter reads from a string is a Number it
    can write and read again: the second reading gives the same Number
    (the positive zero for the negative zero). *)
Theorem floatConverter_reads_what_it_can_write string y :
  parse floatConverter string = Normal (Some y) →
  is_double y = true ∧ y ≠ NaN ∧ reads_back floatConverter same_number y.
Proof.
  cbn [parse floatConverter].
  pose proof (parseFloat_is_double string) as Hd.
  destruct (parseFloat string) as [|s|s m e] eqn:E; [done|..];
    intros Hy; cbn in Hy; injection Hy as <-.
  - split; [done|]. split; [done|].
    destruct (floatConverter_round_trip (Infinity s) Hd ltac:(done))
      as (s' & y' & ? & ? & ? & ?).
    by exists s', y'.
  - split; [done|]. split; [done|].
    destruct (floatConverter_round_trip (Finite s m e) Hd ltac:(done))
      as (s' & y' & ? & ? & ? & ?).
    by exists s', y'.
Qed.

(** What the float converter reads from ["  -42.5abc"]. *)
Lemma floatConverter_reads_what_it_can_write_witness :
  let y := Finite true (85 * 2^46) (-47) in
  parse floatConverter "  -42.5abc" = Normal (Some y) ∧
  is_double y = true ∧ y ≠ NaN ∧ reads_back floatConverter same_number y.
Proof.
  intros y.
  assert (parse floatConverter "  -42.5abc" = Normal (Some y)) as H
    by (vm_compute; reflexivity).
  split; [exact H|].
  exact (floatConverter_reads_what_it_can_write "  -42.5abc" y H).
Defined.

(** X20.  With a host whose [Date.parse] returns Dates (a time value within
    the range of Date, or an invalid Date), whatever the ISO date converter
    reads from a string is a valid Date: [stringify] writes it without
    throwing, and reading that string gives the same Date. *)
Theorem isoDateConverter_reads_what_it_can_write
    (host_Date_parse : string → Date) string d :
  (∀ s, is_date (host_Date_parse s) = true) →
  parse (isoDateConverter host_Date_parse) string = Normal (Some d) →
  ∃ t s, d = Date_at t ∧ is_date d = true ∧
    stringify (isoDateConverter host_Date_parse) d = Normal s ∧
    parse (isoDateConverter host_Date_parse) s = Normal (Some d).
Proof.
  intros Hhost. cbn [parse isoDateConverter].
  assert (is_date (Date_new host_Date_parse string) = true) as Hd.
  { unfold Date_new. destruct (read_ISO _) as [t|]; [|apply Hhost].
    unfold TimeClip. destruct (max_time <? Z.abs t) eqn:E; [done|].
    cbn. lia. }
  destruct (Date_new host_Date_parse string) as [|t]; [done|].
  intros [= <-].
  destruct (isoDateConverter_round_trip host_Date_parse t Hd) as (s & Hs & Hp).
  by exists t, s.
Qed.

(** What the converter reads from ["2020-02-29T12:34:56.789Z"]. *)
Lemma isoDateConverter_reads_what_it_can_write_witness :
  let d := Date_at 1582979696789 in
  (∀ s, is_date (no_host_formats s) = true) ∧
  parse (isoDateConverter no_host_formats) "2020-02-29T12:34:56.789Z"
    = Normal (Some d) ∧
  ∃ t s, d = Date_at t ∧ is_date d = true ∧
    stringify (isoDateConverter no_host_formats) d = Normal s ∧
    parse (isoDateConverter no_host_formats) s = Normal (Some d).
Proof.
  intros d.
  assert (∀ s, is_date (no_host_formats s) = true) as H1 by done.
  assert (parse (isoDateConverter no_host_formats) "2020-02-29T12:34:56.789Z"
          = Normal (Some d)) as H2 by (vm_compute; reflexivity).
  do 2 (split; [assumption|]).
  exact (isoDateConverter_reads_what_it_can_write no_host_formats
           "2020-02-29T12:34:56.789Z" d H1 H2).
Defined.
